(** * Two-point boundary value problems: the solvers of [17_ODE_BVP.ipynb]

    The notebook holds three computational cells: a shooting method wrapped
    around [scipy.integrate.ode], a finite-difference solver with Dirichlet
    conditions at both ends, and a finite-difference solver with a Dirichlet
    condition on the left and a Neumann condition on the right.

    Floating-point numbers are idealised as real numbers: every arithmetic
    operation of the cells is the exact one.  Python exceptions are values of
    an error monad; [numpy] arrays are lists; the two external routines
    ([numpy.linalg.solve] and the [scipy] integrator) are parameters.

    The idealisation hides rounding.  Where a statement would depend on it,
    the update of the slope guess is also given in binary64, the arithmetic
    of the notebook ([guess_update64]): there a positive step can leave the
    guess unchanged. *)

From Stdlib Require Import PrimFloat.
From Stdlib Require Import String Reals Lra Lia List ZArith Bool Psatz.
From Stdlib Require Import ClassicalEpsilon.
Import ListNotations.
Local Open Scope R_scope.

(** ** Exceptions and results *)

Inductive exn : Type :=
| IndexError
| ValueError
| ZeroDivisionError
| LinAlgError
| Exception (msg : string).

Inductive result (A : Type) : Type :=
| Ok (v : A)
| Raise (e : exn).

Arguments Ok {A} v.
Arguments Raise {A} e.

Definition bind {A B : Type} (r : result A) (k : A -> result B) : result B :=
  match r with
  | Ok v => k v
  | Raise e => Raise e
  end.

Declare Scope py_scope.
Delimit Scope py_scope with py.
Notation "x <- e ;; k" := (bind e (fun x => k))
  (at level 61, e at next level, right associativity) : py_scope.
Notation "' p <- e ;; k" := (bind e (fun x => match x with p => k end))
  (at level 61, p pattern, e at next level, right associativity) : py_scope.
Local Open Scope py_scope.

Definition vec : Type := list R.
Definition matrix : Type := list (list R).

(** [A[i, j]] for indices known to be in range. *)
Definition entry (A : matrix) (i j : nat) : R := nth j (nth i A []) 0.

(** Matrices and vectors given by their entries. *)
Definition tabulate (n : nat) (g : nat -> R) : vec := map g (seq 0 n).

Definition tabulate2 (n m : nat) (g : nat -> nat -> R) : matrix :=
  map (fun i => tabulate m (g i)) (seq 0 n).

(** ** Python scalars and indexing *)

(** [x / y] on Python floats. *)
Definition py_div (x y : R) : result R :=
  if Req_dec_T y 0 then Raise ZeroDivisionError else Ok (x / y).

(** A Python index into a sequence of length [len]: negative indices count
    from the end. *)
Definition norm_index (len : nat) (i : Z) : result nat :=
  if ((0 <=? i) && (i <? Z.of_nat len))%Z then Ok (Z.to_nat i)
  else if ((i <? 0) && (- Z.of_nat len <=? i))%Z then Ok (Z.to_nat (Z.of_nat len + i))
  else Raise IndexError.

Fixpoint update {A : Type} (l : list A) (k : nat) (x : A) : list A :=
  match l, k with
  | [], _ => []
  | _ :: t, O => x :: t
  | h :: t, S k' => h :: update t k' x
  end.

(** [v[i]] *)
Definition getitem (v : vec) (i : Z) : result R :=
  k <- norm_index (length v) i ;; Ok (nth k v 0).

(** [v[i] = x] *)
Definition setitem (v : vec) (i : Z) (x : R) : result vec :=
  k <- norm_index (length v) i ;; Ok (update v k x).

(** [A[i, j] = x] *)
Definition setitem2 (A : matrix) (i j : Z) (x : R) : result matrix :=
  r <- norm_index (length A) i ;;
  c <- norm_index (length (nth r A [])) j ;;
  Ok (update A r (update (nth r A []) c x)).

(** [A[i, j]] *)
Definition getitem2 (A : matrix) (i j : Z) : result R :=
  r <- norm_index (length A) i ;;
  c <- norm_index (length (nth r A [])) j ;;
  Ok (entry A r c).

(** [v[1:-1]] and [v[:-1]]; slicing never raises. *)
Definition slice_1_m1 (v : vec) : vec := removelast (tl v).
Definition slice_to_m1 (v : vec) : vec := removelast v.

(** [v[1:]] *)
Definition slice_1 (v : vec) : vec := tl v.

(** [U[1:-1] = w], with the broadcasting of a one-element right-hand side. *)
Definition assign_slice_1_m1 (U w : vec) : result vec :=
  match U with
  | [] => if (length w <=? 1)%nat then Ok [] else Raise ValueError
  | u0 :: rest =>
      let m := length (removelast rest) in
      if (length w =? m)%nat then
        Ok (match rest with [] => [u0] | _ => u0 :: w ++ [last rest 0] end)
      else if (length w =? 1)%nat then
        Ok (match rest with
            | [] => [u0]
            | _ => u0 :: repeat (hd 0 w) m ++ [last rest 0]
            end)
      else Raise ValueError
  end.

(** ** The [numpy] routines the cells call *)

Module Np.

Definition zeros (n : Z) : result vec :=
  if (n <? 0)%Z then Raise ValueError else Ok (repeat 0 (Z.to_nat n)).

Definition ones (n : Z) : result vec :=
  if (n <? 0)%Z then Raise ValueError else Ok (repeat 1 (Z.to_nat n)).

(** [numpy.zeros((n, m))]; an array without rows keeps no column count. *)
Definition zeros2 (n m : Z) : result matrix :=
  if ((n <? 0) || (m <? 0))%Z then Raise ValueError
  else Ok (repeat (repeat 0 (Z.to_nat m)) (Z.to_nat n)).

(** [numpy.empty(n)]: the entries are whatever the memory held, here
    [junk]. *)
Definition empty (junk : nat -> R) (n : Z) : result vec :=
  if (n <? 0)%Z then Raise ValueError
  else Ok (map junk (seq 0 (Z.to_nat n))).

(** [numpy.empty((n, m))]. *)
Definition empty2 (junk : nat -> nat -> R) (n m : Z) : result matrix :=
  if ((n <? 0) || (m <? 0))%Z then Raise ValueError
  else Ok (map (fun i => map (junk i) (seq 0 (Z.to_nat m))) (seq 0 (Z.to_nat n))).

(** [numpy.linspace(start, stop, num)]: [num] samples, the last one set to
    [stop] when there are at least two. *)
Definition linspace (start stop : R) (num : Z) : result vec :=
  if (num <? 0)%Z then Raise ValueError
  else
    let n := Z.to_nat num in
    let step := (stop - start) / INR (n - 1) in
    let y := map (fun i => INR i * step + start) (seq 0 n) in
    Ok (if (1 <? n)%nat then removelast y ++ [stop] else y).

(** [numpy.diag(v, k)]: the square matrix of side [len(v) + |k|] holding
    [v] on its [k]-th diagonal. *)
Definition diag (v : vec) (k : Z) : matrix :=
  let n := (length v + Z.abs_nat k)%nat in
  map (fun i =>
         map (fun j =>
                if (Z.of_nat j =? Z.of_nat i + k)%Z
                then nth (Nat.min i j) v 0 else 0)
             (seq 0 n))
      (seq 0 n).

Definition shape (A : matrix) : nat * nat :=
  (length A, match A with [] => O | r :: _ => length r end).

Definition imap {A B : Type} (g : nat -> A -> B) (l : list A) : list B :=
  map (fun p => g (fst p) (snd p)) (combine (seq 0 (length l)) l).

(** [A += B]: [B] is broadcast to the shape of [A] along every axis where
    it has size one. *)
Definition iadd (A B : matrix) : result matrix :=
  let '(ra, ca) := shape A in
  let '(rb, cb) := shape B in
  if (((rb =? ra) || (rb =? 1)) && ((cb =? ca) || (cb =? 1)))%nat then
    Ok (imap (fun i row =>
                imap (fun j x =>
                        x + entry B (if (rb =? 1)%nat then O else i)
                                    (if (cb =? 1)%nat then O else j))
                     row)
             A)
  else Raise ValueError.

End Np.

(** ** The Dirichlet finite-difference cell *)

Section DirichletCell.

(** [numpy.linalg.solve] and the contents of uninitialised memory. *)
Variable solve : matrix -> vec -> result vec.
Variable junk : nat -> R.

Variable f : R -> R.
Variables a b u_a u_b : R.
Variable N : Z.

(** From [# Descretization] to the end of [# Construct RHS]: the grid with
    its two end points, the matrix and the right-hand side. *)
Definition dirichlet_system : result (vec * matrix * vec) :=
  x_bc <- Np.linspace a b (N + 2) ;;
  let x := slice_1_m1 x_bc in
  delta_x <- py_div (b - a) (IZR (N + 1)) ;;
  A <- Np.zeros2 N N ;;
  ones <- Np.ones N ;;
  let diagonal := map (fun v => v / delta_x ^ 2) ones in
  A <- Np.iadd A (Np.diag (map (fun v => v * -2) diagonal) 0) ;;
  A <- Np.iadd A (Np.diag (slice_to_m1 diagonal) 1) ;;
  A <- Np.iadd A (Np.diag (slice_to_m1 diagonal) (-1)) ;;
  let rhs := map f x in
  b0 <- getitem rhs 0 ;;
  q <- py_div u_a (delta_x ^ 2) ;;
  rhs <- setitem rhs 0 (b0 - q) ;;
  bl <- getitem rhs (-1) ;;
  q <- py_div u_b (delta_x ^ 2) ;;
  rhs <- setitem rhs (-1) (bl - q) ;;
  Ok (x_bc, A, rhs).

(** The whole cell up to [# Plot result]: the grid and the solution [U]. *)
Definition dirichlet_cell : result (vec * vec) :=
  '(x_bc, A, rhs) <- dirichlet_system ;;
  U <- Np.empty junk (N + 2) ;;
  U <- setitem U 0 u_a ;;
  U <- setitem U (-1) u_b ;;
  w <- solve A rhs ;;
  U <- assign_slice_1_m1 U w ;;
  Ok (x_bc, U).

End DirichletCell.

(** ** The mixed Dirichlet/Neumann finite-difference cell *)

Section MixedCell.

Variable solve : matrix -> vec -> result vec.
Variable junk : nat -> R.

Variable f : R -> R.
Variables a b u_a u_x_b : R.
Variable N : Z.

(** From [# Descretization] to the end of [# Boundary conditions]. *)
Definition mixed_system : result (vec * matrix * vec) :=
  x_bc <- Np.linspace a b (N + 2) ;;
  delta_x <- py_div (b - a) (IZR (N + 1)) ;;
  A <- Np.zeros2 (N + 2) (N + 2) ;;
  ones <- Np.ones (N + 2) ;;
  let diagonal := map (fun v => v / delta_x ^ 2) ones in
  A <- Np.iadd A (Np.diag (map (fun v => v * -2) diagonal) 0) ;;
  A <- Np.iadd A (Np.diag (slice_to_m1 diagonal) 1) ;;
  A <- Np.iadd A (Np.diag (slice_to_m1 diagonal) (-1)) ;;
  let rhs := map f x_bc in
  A <- setitem2 A 0 0 1 ;;
  A <- setitem2 A 0 1 0 ;;
  q <- py_div 3 (2 * delta_x) ;;
  A <- setitem2 A (-1) (-1) q ;;
  q <- py_div (-4) (2 * delta_x) ;;
  A <- setitem2 A (-1) (-2) q ;;
  q <- py_div 1 (2 * delta_x) ;;
  A <- setitem2 A (-1) (-3) q ;;
  rhs <- setitem rhs 0 u_a ;;
  rhs <- setitem rhs (-1) u_x_b ;;
  Ok (x_bc, A, rhs).

(** The whole cell up to [# Plot result]. *)
Definition mixed_cell : result (vec * vec) :=
  '(x_bc, A, rhs) <- mixed_system ;;
  U <- Np.empty junk (N + 2) ;;
  U <- solve A rhs ;;
  Ok (x_bc, U).

End MixedCell.

(** ** The shooting cell *)

(** The interface of [scipy.integrate.ode] the cell relies on: an integrator
    is created from the right-hand side, an initial state and an initial
    time; [integrate] advances it to a requested location; [successful]
    reports on the last advance and [y] reads the current state. *)
Record ode_solver : Type := {
  ode_state : Type;
  set_initial_value : (R -> R * R -> R * R) -> R * R -> R -> ode_state;
  integrate : ode_state -> R -> ode_state;
  successful : ode_state -> bool;
  y : ode_state -> R * R
}.

(** The variables the main loop reads and writes. *)
Record shoot_state : Type := {
  u_prime_rhs : R;
  du_prime : R;
  success : bool;
  u : matrix;
  convergence : vec
}.

Definition TOLERANCE : R := 1 / 10 ^ 8.
Definition MAX_ITERATIONS : Z := 100.

(** [u[:, j]] and [u[:, j] = v] on an array of two rows. *)
Definition get_column (u : matrix) (j : Z) : result (R * R) :=
  v0 <- getitem2 u 0 j ;;
  v1 <- getitem2 u 1 j ;;
  Ok (v0, v1).

Definition set_column (u : matrix) (j : Z) (v : R * R) : result matrix :=
  u <- setitem2 u 0 j (fst v) ;;
  setitem2 u 1 j (snd v).

Section ShootingCell.

Variable ode : ode_solver.
Variable junk : nat -> nat -> R.

(** The right-hand side [f(x, u)] of the first-order system. *)
Variable f : R -> R * R -> R * R.
Variables a b : R.
Variable N : Z.
Variables u_a u_b : R.

Section Loop.

Variable tolerance : R.
Variable x : vec.

(** [for (i, x_output) in enumerate(x[1:])], from index [i] on. *)
Fixpoint integrate_outputs (integrator : ode_state ode) (u : matrix)
         (i : nat) (outputs : list R) : result matrix :=
  match outputs with
  | [] => Ok u
  | x_output :: rest =>
      let integrator := integrate ode integrator x_output in
      if negb (successful ode integrator)
      then Raise (Exception "Integration Failed!")
      else
        u <- set_column u (Z.of_nat i + 1) (y ode integrator) ;;
        integrate_outputs integrator u (S i) rest
  end.

(** One pass through the body of the main loop, for the loop index
    [n]; the boolean tells whether the pass ended in [break]. *)
Definition shooting_iteration (n : nat) (s : shoot_state)
  : result (shoot_state * bool) :=
  u <- setitem2 (u s) 0 0 u_a ;;
  u <- setitem2 u 1 0 (u_prime_rhs s) ;;
  y0 <- get_column u 0 ;;
  let integrator := set_initial_value ode f y0 0 in
  u <- integrate_outputs integrator u 0 (slice_1 x) ;;
  ub <- getitem2 u 0 (-1) ;;
  convergence <- setitem (convergence s) (Z.of_nat n) (Rabs (ub - u_b)) ;;
  if Rlt_dec (Rabs (ub - u_b)) tolerance then
    Ok ({| u_prime_rhs := u_prime_rhs s; du_prime := du_prime s;
           success := true; u := u; convergence := convergence |}, true)
  else if Rlt_dec ub u_b then
    Ok ({| u_prime_rhs := u_prime_rhs s + du_prime s; du_prime := du_prime s;
           success := success s; u := u; convergence := convergence |}, false)
  else
    Ok ({| u_prime_rhs := u_prime_rhs s - du_prime s;
           du_prime := du_prime s * (1 / 2);
           success := success s; u := u; convergence := convergence |}, false).

(** [for n in range(...)] over the remaining loop indices. *)
Fixpoint shooting_loop (indices : list nat) (s : shoot_state)
  : result shoot_state :=
  match indices with
  | [] => Ok s
  | n :: rest =>
      r <- shooting_iteration n s ;;
      if snd r then Ok (fst r) else shooting_loop rest (fst r)
  end.

End Loop.

(** The cell from [x = numpy.linspace(a, b, N)] to the end of the main
    loop, for given algorithm parameters and initial guess. *)
Definition shooting_run (tolerance : R) (max_iterations : Z)
           (u_prime_rhs0 du_prime0 : R) : result shoot_state :=
  x <- Np.linspace a b N ;;
  u <- Np.empty2 junk 2 N ;;
  convergence <- Np.zeros max_iterations ;;
  shooting_loop tolerance x (seq 0 (Z.to_nat max_iterations))
    {| u_prime_rhs := u_prime_rhs0; du_prime := du_prime0;
       success := false; u := u; convergence := convergence |}.

(** The cell with the algorithm parameters of the notebook. *)
Definition shooting_cell (u_prime_rhs0 du_prime0 : R) : result shoot_state :=
  shooting_run TOLERANCE MAX_ITERATIONS u_prime_rhs0 du_prime0.

End ShootingCell.

(** The right-hand side of the notebook, [u_xx = -sin(u)] as a first-order
    system. *)
Definition pendulum (x : R) (v : R * R) : R * R := (snd v, - sin (fst v)).

(** The loop variables on entry to the main loop. *)
Definition entry_state (junk : nat -> nat -> R) (N : Z) (max_iterations : nat)
           (u_prime_rhs0 du_prime0 : R) : shoot_state :=
  {| u_prime_rhs := u_prime_rhs0; du_prime := du_prime0; success := false;
     u := [map (junk 0%nat) (seq 0 (Z.to_nat N)); map (junk 1%nat) (seq 0 (Z.to_nat N))];
     convergence := repeat 0 max_iterations |}.

(** Two integrators: one explicit Euler step per requested location, which
    always succeeds, and one that reports failure on every advance. *)
Definition euler_ode : ode_solver := {|
  ode_state := (R -> R * R -> R * R) * R * (R * R);
  set_initial_value := fun f y0 t0 => (f, t0, y0);
  integrate := fun st t' =>
    let '(f, t, y) := st in
    (f, t', (fst y + (t' - t) * fst (f t y), snd y + (t' - t) * snd (f t y)));
  successful := fun _ => true;
  y := fun st => snd st
|}.

Definition failing_ode : ode_solver := {|
  ode_state := R * R;
  set_initial_value := fun _ y0 _ => y0;
  integrate := fun st _ => st;
  successful := fun _ => false;
  y := fun st => st
|}.

(** ** The table one pass of the shooting loop produces *)

Section ShotTable.

Variable ode : ode_solver.

(** The states read after each requested location, or the exception of
    the first advance that fails. *)
Fixpoint trajectory (integrator : ode_state ode) (outputs : list R)
  : result (list (R * R)) :=
  match outputs with
  | [] => Ok []
  | x_output :: rest =>
      let integrator := integrate ode integrator x_output in
      if negb (successful ode integrator)
      then Raise (Exception "Integration Failed!")
      else t <- trajectory integrator rest ;; Ok (y ode integrator :: t)
  end.

(** The array [u] after the inner loop, for the slope guess [s]: the
    first row holds the values, the second row the derivatives. *)
Definition shot_table (f : R -> R * R -> R * R) (x : vec) (u_a s : R)
  : result matrix :=
  t <- trajectory (set_initial_value ode f (u_a, s) 0) (slice_1 x) ;;
  Ok [u_a :: map fst t; s :: map snd t].

End ShotTable.

(** The shape the loop keeps for [u]: two rows as long as [x]. *)
Definition table_shape (x : vec) (table : matrix) : Prop :=
  exists r0 r1, table = [r0; r1] /\ length r0 = length x /\ length r1 = length x.

(** The value at the right end of the interval read in a table,
    [u[0, -1]]. *)
Definition value_at_b (table : matrix) : R := last (nth 0 table []) 0.

(** ** Runs of the shooting loop *)

Section ShootingTrace.

Variable ode : ode_solver.
Variable f : R -> R * R -> R * R.
Variables u_a u_b : R.
Variable tolerance : R.
Variable x : vec.

(** The integrator reports a failure at one of the requested
    locations. *)
Fixpoint fails_within (integrator : ode_state ode) (outputs : list R) : Prop :=
  match outputs with
  | [] => False
  | x_output :: rest =>
      let integrator := integrate ode integrator x_output in
      successful ode integrator = false \/
      (successful ode integrator = true /\ fails_within integrator rest)
  end.

Variable init : shoot_state.

(** [iterates trace j s]: starting from [init], the loop has gone through
    [length trace] passes, none of which met the stopping criterion; the
    residuals of these passes are [trace], [j] of the passes reached or
    exceeded the target, and the loop variables are now [s]. *)
Inductive iterates : list R -> nat -> shoot_state -> Prop :=
| iterates_start : iterates [] 0 init
| iterates_below (trace : list R) (j : nat) (s s' : shoot_state) :
    iterates trace j s ->
    shooting_iteration ode f u_a u_b tolerance x (length trace) s = Ok (s', false) ->
    value_at_b (u s') < u_b ->
    iterates (trace ++ [Rabs (value_at_b (u s') - u_b)]) j s'
| iterates_above (trace : list R) (j : nat) (s s' : shoot_state) :
    iterates trace j s ->
    shooting_iteration ode f u_a u_b tolerance x (length trace) s = Ok (s', false) ->
    ~ value_at_b (u s') < u_b ->
    iterates (trace ++ [Rabs (value_at_b (u s') - u_b)]) (S j) s'.

End ShootingTrace.

(** ** Closed forms of the assembled systems *)

(** The grid point of index [i] when [n] points lie strictly inside
    [[a, b]]: [x_i = a + i (b - a) / (n + 1)]. *)
Definition grid_point (a b : R) (n i : nat) : R :=
  INR i * ((b - a) / INR (n + 1)) + a.

(** The spacing [(b - a) / (n + 1)]. *)
Definition spacing (a b : R) (n : nat) : R := (b - a) / INR (n + 1).

(** Entry [(i, j)] of the second-difference matrix of spacing [dx]. *)
Definition stencil_entry (dx : R) (i j : nat) : R :=
  if (i =? j)%nat then -2 / dx ^ 2
  else if ((i =? j + 1) || (j =? i + 1))%nat then 1 / dx ^ 2
  else 0.

(** Entry [i] (counted from 0) of the Dirichlet right-hand side: the source
    term at the interior point of index [i + 1], less [u_a / dx ^ 2] in the
    first entry and less [u_b / dx ^ 2] in the last one. *)
Definition dirichlet_rhs_entry (f : R -> R) (a b u_a u_b : R) (n i : nat) : R :=
  f (grid_point a b n (S i))
  - (if (i =? 0)%nat then u_a / spacing a b n ^ 2 else 0)
  - (if (i =? n - 1)%nat then u_b / spacing a b n ^ 2 else 0).

(** Entry [(i, j)] of the mixed system on [n + 2] unknowns: the identity
    row on top, the one-sided first-derivative row at the bottom and the
    second-difference rows in between. *)
Definition mixed_entry (dx : R) (n i j : nat) : R :=
  if (i =? 0)%nat then (if (j =? 0)%nat then 1 else 0)
  else if (i =? n + 1)%nat then
    (if (j =? n - 1)%nat then 1 / (2 * dx)
     else if (j =? n)%nat then -4 / (2 * dx)
     else if (j =? n + 1)%nat then 3 / (2 * dx)
     else 0)
  else stencil_entry dx i j.

Definition mixed_rhs_entry (f : R -> R) (a b u_a u_x_b : R) (n i : nat) : R :=
  if (i =? 0)%nat then u_a
  else if (i =? n + 1)%nat then u_x_b
  else f (grid_point a b n i).

(** ** What an exact linear solve returns *)

Definition dot (r x : vec) : R :=
  fold_right Rplus 0 (map (fun p => fst p * snd p) (combine r x)).

Definition mat_vec (A : matrix) (x : vec) : vec := map (fun r => dot r x) A.

Definition square (n : nat) (A : matrix) : Prop :=
  length A = n /\ forall r, In r A -> length r = n.

Definition solves (A : matrix) (rhs x : vec) : Prop :=
  length x = length rhs /\ mat_vec A x = rhs.

Definition unique_solution (A : matrix) (rhs x : vec) : Prop :=
  solves A rhs x /\ forall y, solves A rhs y -> y = x.

(** The contract of [numpy.linalg.solve] in exact arithmetic: on a square
    system that has exactly one solution, that solution is returned. *)
Definition exact_solver (solve : matrix -> vec -> result vec) : Prop :=
  forall n A rhs x,
    square n A -> length rhs = n -> unique_solution A rhs x ->
    solve A rhs = Ok x.

(** [rsum F n] is [F 0 + ... + F (n - 1)]. *)
Definition rsum (F : nat -> R) (n : nat) : R :=
  fold_right Rplus 0 (map F (seq 0 n)).

(** A solver meeting the contract: the unique solution of a square system
    when there is one, [LinAlgError] otherwise. *)
Definition ideal_solve (A : matrix) (rhs : vec) : result vec :=
  match excluded_middle_informative
          (square (length rhs) A /\ exists x, unique_solution A rhs x) with
  | left H => Ok (proj1_sig (constructive_indefinite_description _ (proj2 H)))
  | right _ => Raise LinAlgError
  end.

(** The right-hand side as a reading of it by entries would have it: the
    first entry [f x_1 - u_a / dx ^ 2], the last entry [f x_n - u_b / dx ^ 2],
    and [f x_i] in between. *)
Definition rhs_entrywise (f : R -> R) (a b u_a u_b : R) (n : nat)
           (x_bc rhs : vec) : Prop :=
  let dx := (b - a) / INR (n + 1) in
  nth 0 rhs 0 = f (nth 1 x_bc 0) - u_a / dx ^ 2 /\
  nth (n - 1) rhs 0 = f (nth n x_bc 0) - u_b / dx ^ 2 /\
  forall i, (0 < i < n - 1)%nat -> nth i rhs 0 = f (nth (S i) x_bc 0).

(** ** Convergence of the Dirichlet solver on [u_xx = e^x]

    Polynomials as coefficient lists, lowest degree first, with their
    evaluation and their formal derivative; [expoly A B l] is
    [A e^h + B e^(-h) + l(h)]. *)
Fixpoint peval (l : list R) (h : R) : R :=
  match l with
  | [] => 0
  | c :: r => c + h * peval r h
  end.

Fixpoint padd (p q : list R) : list R :=
  match p, q with
  | [], _ => q
  | _, [] => p
  | c :: p', d :: q' => (c + d) :: padd p' q'
  end.

Fixpoint pderiv (l : list R) : list R :=
  match l with
  | [] => []
  | _ :: r => padd r (0 :: pderiv r)
  end.

Definition expoly (A B : R) (l : list R) (h : R) : R :=
  A * exp h + B * exp (- h) + peval l h.

(** The second difference of [e^x] on a grid of spacing [h] is [kappa h]
    times [e^x]. *)
Definition kappa (h : R) : R := (exp h + exp (- h) - 2) / h ^ 2.

(** The exact solution coded in the cell. *)
Definition u_true (x : R) : R := (4 - exp 1) * x - 1 + exp x.

(** [max(abs(U - u_true(x_bc)))], the largest error over the grid. *)
Definition maxl (l : list R) : R := fold_right Rmax 0 l.

Definition grid_error (x_bc U : vec) : R :=
  maxl (map (fun p => Rabs (snd p - u_true (fst p))) (combine x_bc U)).

(** The largest grid error of the cell run with [N = n] on the problem of
    the notebook: [f = exp], [[a, b] = [0, 1]], [u_a = 0], [u_b = 3]. *)
Definition dirichlet_max_error (solve : matrix -> vec -> result vec)
           (junk : nat -> R) (n : nat) : R :=
  match dirichlet_cell solve junk exp 0 1 0 3 (Z.of_nat n) with
  | Ok (x_bc, U) => grid_error x_bc U
  | Raise _ => 0
  end.

(** The error is a multiple of [bump]: [e^x] less its chord on [[0, 1]]. *)
Definition bump (x : R) : R := exp x - 1 - (exp 1 - 1) * x.

(** The solution of the difference equations in closed form. *)
Definition discrete_solution (n i : nat) : R :=
  let k := kappa (spacing 0 1 n) in
  let x := grid_point 0 1 n i in
  - 1 / k + (3 - (exp 1 - 1) / k) * x + exp x / k.

(** The factor of [|bump|] in the grid error. *)
Definition cfac (h : R) : R := 1 - / kappa h.

(** ** A worked run of the shooting loop *)

(** A small run used to exercise the statements: the pendulum equation on
    the two-point grid of [numpy.linspace(0, 2, 2)], integrated by one Euler
    step from [0] to [2]. *)
Definition demo_grid : vec := [INR 0 * ((2 - 0) / INR (2 - 1)) + 0; 2].

Definition demo_table (s : R) : matrix :=
  [[0; 0 + (2 - 0) * fst (pendulum 0 (0, s))];
   [s; s + (2 - 0) * snd (pendulum 0 (0, s))]].

(** The loop variables of the worked run after its first and second pass
    (target [3/2], initial guess [1], initial step [1/2], a budget of [m]
    passes). *)
Definition demo_state1 (m : nat) : shoot_state :=
  {| u_prime_rhs := 1 - 1 / 2; du_prime := 1 / 2 * (1 / 2); success := false;
     u := demo_table 1;
     convergence :=
       update (repeat 0 m) 0 (Rabs (value_at_b (demo_table 1) - 3 / 2)) |}.

Definition demo_state2 (m : nat) : shoot_state :=
  {| u_prime_rhs := 1 - 1 / 2 + 1 / 2 * (1 / 2); du_prime := 1 / 2 * (1 / 2);
     success := false;
     u := demo_table (1 - 1 / 2);
     convergence :=
       update (convergence (demo_state1 m)) 1
              (Rabs (value_at_b (demo_table (1 - 1 / 2)) - 3 / 2)) |}.

(** ** Input validation as the specification words it *)

(** Every run of the shooting cell started with a non-positive step raises
    an exception. *)
Definition rejects_nonpositive_step : Prop :=
  forall ode junk f a b N u_a u_b u_prime_rhs0 du_prime0,
    du_prime0 <= 0 ->
    exists e,
      shooting_cell ode junk f a b N u_a u_b u_prime_rhs0 du_prime0 = Raise e.

(** ** The update of the guess in binary64

    [u_prime_rhs] and [du_prime] are Python floats.  The two branches of the
    update at the end of a pass that did not stop the loop, on the pair
    (guess, step), with the operations of binary64: [u_prime_rhs += du_prime]
    when [u[0, -1] < u_b] ([below]), and [u_prime_rhs -= du_prime] followed
    by [du_prime *= 0.5] otherwise. *)
Definition guess_update64 (below : bool) (p : float * float) : float * float :=
  if below then (PrimFloat.add (fst p) (snd p), snd p)
  else (PrimFloat.sub (fst p) (snd p), PrimFloat.mul (snd p) 0.5%float).

(** The guess and the step after [k] passes that all reached or exceeded
    the target. *)
Definition overshoot_run64 (k : nat) (p : float * float) : float * float :=
  Nat.iter k (guess_update64 false) p.

(** ** Grid functions built by forward recurrence *)

(** [march f a b n u_a t i] is the pair [(W i, W (i + 1))] of the grid
    function that starts with [W 0 = u_a], [W 1 = u_a + t] and has second
    differences [dx ^ 2 * f x_(i+1)]. *)
Fixpoint march (f : R -> R) (a b : R) (n : nat) (u_a t : R) (i : nat) : R * R :=
  match i with
  | O => (u_a, u_a + t)
  | S k =>
      let '(p, q) := march f a b n u_a t k in
      (q, 2 * q - p + spacing a b n ^ 2 * f (grid_point a b n (S k)))
  end.

(** The grid function with the boundary values [u_a] and [u_b] and second
    differences [dx ^ 2 * f x_i]. *)
Definition difference_solution (f : R -> R) (a b u_a u_b : R) (n i : nat) : R :=
  let t := (u_b - fst (march f a b n u_a 0 (n + 1))) / INR (n + 1) in
  fst (march f a b n u_a t i).

(** The grid function with the left boundary value [u_a], second differences
    [dx ^ 2 * f x_i] and one-sided difference [u_x_b] at the right end. *)
Definition mixed_solution (f : R -> R) (a b u_a u_x_b : R) (n i : nat) : R :=
  let W0 := fun k => fst (march f a b n u_a 0 k) in
  let t := (2 * spacing a b n * u_x_b
            - (W0 (n - 1)%nat - 4 * W0 n + 3 * W0 (n + 1)%nat)) / 2 in
  fst (march f a b n u_a t i).

(** ** The loop index after the main loop and the convergence plot *)

Section ShootingPlot.

Variable ode : ode_solver.
Variable junk : nat -> nat -> R.
Variable f : R -> R * R -> R * R.
Variables a b : R.
Variable N : Z.
Variables u_a u_b : R.
Variable tolerance : R.

(** The main loop together with the loop variable [n], which Python keeps
    after the loop: the index of the last pass that was entered, and no
    binding at all ([None]) when the range was empty. *)
Fixpoint shooting_loop_index (x : vec) (indices : list nat) (n0 : option nat)
         (s : shoot_state) : result (shoot_state * option nat) :=
  match indices with
  | [] => Ok (s, n0)
  | n :: rest =>
      r <- shooting_iteration ode f u_a u_b tolerance x n s ;;
      if snd r then Ok (fst r, Some n)
      else shooting_loop_index x rest (Some n) (fst r)
  end.

Definition shooting_run_index (max_iterations : Z) (u_prime_rhs0 du_prime0 : R)
  : result (shoot_state * option nat) :=
  x <- Np.linspace a b N ;;
  u <- Np.empty2 junk 2 N ;;
  convergence <- Np.zeros max_iterations ;;
  shooting_loop_index x (seq 0 (Z.to_nat max_iterations)) None
    {| u_prime_rhs := u_prime_rhs0; du_prime := du_prime0;
       success := false; u := u; convergence := convergence |}.

End ShootingPlot.

(** [n_range = numpy.arange(n)] against [convergence[:n]], the points of
    the convergence plot. *)
Definition convergence_plot (n : nat) (s : shoot_state) : list (nat * R) :=
  combine (seq 0 n) (firstn n (convergence s)).

(** The state the worked run returns when it starts from the slope [3/4],
    which meets the target at the first pass. *)
Definition demo_state_converged : shoot_state :=
  {| u_prime_rhs := 3 / 4; du_prime := 1 / 2; success := true;
     u := demo_table (3 / 4);
     convergence :=
       update (repeat 0 100) 0 (Rabs (value_at_b (demo_table (3 / 4)) - 3 / 2)) |}.

(** The exact solution coded in the mixed cell. *)
Definition mixed_u_true (x : R) : R :=
  - (5 + exp 1) * x - (2 + exp 1 + exp (- 1)) + exp x.

(** ** Convergence of the mixed solver on [u_xx = e^x]

    The one-sided difference of [e^x] at [x] over a grid of spacing [h] is
    [sigma h] times [e^x]. *)
Definition sigma (h : R) : R := (exp (- (2 * h)) - 4 * exp (- h) + 3) / (2 * h).

(** The solution of the mixed difference equations in closed form, for the
    problem of the notebook: [f = exp], [[a, b] = [-1, 1]], [u_a = 3],
    [u_x_b = -5]. *)
Definition mixed_discrete_solution (n i : nat) : R :=
  let h := spacing (- 1) 1 n in
  let B := - 5 - exp 1 * sigma h / kappa h in
  let A := 3 + B - exp (- 1) / kappa h in
  let x := grid_point (- 1) 1 n i in
  A + B * x + exp x / kappa h.

(** * Facts about the array model *)

Lemma bind_Ok {A B : Type} (v : A) (k : A -> result B) : bind (Ok v) k = k v.
Proof. reflexivity. Qed.

Lemma bind_Raise {A B : Type} (e : exn) (k : A -> result B) :
  bind (Raise e) k = Raise e.
Proof. reflexivity. Qed.

Lemma bind_inv {A B : Type} (r : result A) (k : A -> result B) (w : B) :
  bind r k = Ok w -> exists v, r = Ok v /\ k v = Ok w.
Proof.
  destruct r as [v|e]; simpl; intros H.
  - exists v; split; [reflexivity | exact H].
  - discriminate H.
Qed.

Lemma norm_index_nonneg (len : nat) (k : nat) :
  (k < len)%nat -> norm_index len (Z.of_nat k) = Ok k.
Proof.
  intros Hk. unfold norm_index.
  replace ((0 <=? Z.of_nat k) && (Z.of_nat k <? Z.of_nat len))%Z with true.
  - now rewrite Nat2Z.id.
  - symmetry. apply andb_true_iff. split; [apply Z.leb_le | apply Z.ltb_lt]; lia.
Qed.

Lemma norm_index_neg (len : nat) (k : nat) :
  (1 <= k <= len)%nat -> norm_index len (- Z.of_nat k) = Ok (len - k)%nat.
Proof.
  intros Hk. unfold norm_index.
  replace ((0 <=? - Z.of_nat k) && (- Z.of_nat k <? Z.of_nat len))%Z with false.
  - replace ((- Z.of_nat k <? 0) && (- Z.of_nat len <=? - Z.of_nat k))%Z with true.
    + f_equal. lia.
    + symmetry. apply andb_true_iff. split; [apply Z.ltb_lt | apply Z.leb_le]; lia.
  - symmetry. apply andb_false_iff. left. apply Z.leb_gt. lia.
Qed.

Lemma norm_index_first (len : nat) : (1 <= len)%nat -> norm_index len 0 = Ok 0%nat.
Proof. intros H. apply (norm_index_nonneg len 0). lia. Qed.

Lemma norm_index_last (len : nat) :
  (1 <= len)%nat -> norm_index len (-1) = Ok (len - 1)%nat.
Proof. intros H. apply (norm_index_neg len 1). lia. Qed.

Lemma norm_index_range (len : nat) (i : Z) (k : nat) :
  norm_index len i = Ok k -> (k < len)%nat.
Proof.
  unfold norm_index.
  destruct ((0 <=? i) && (i <? Z.of_nat len))%Z eqn:E1.
  - apply andb_true_iff in E1 as [H1 H2].
    apply Z.leb_le in H1. apply Z.ltb_lt in H2.
    intros H; inversion H; lia.
  - destruct ((i <? 0) && (- Z.of_nat len <=? i))%Z eqn:E2; [|discriminate].
    apply andb_true_iff in E2 as [H1 H2].
    apply Z.ltb_lt in H1. apply Z.leb_le in H2.
    intros H; inversion H; lia.
Qed.

Lemma norm_index_empty (i : Z) : norm_index 0 i = Raise IndexError.
Proof.
  unfold norm_index.
  destruct ((0 <=? i) && (i <? Z.of_nat 0))%Z eqn:E1.
  - apply andb_true_iff in E1 as [H1 H2].
    apply Z.leb_le in H1. apply Z.ltb_lt in H2. simpl in H2. lia.
  - destruct ((i <? 0) && (- Z.of_nat 0 <=? i))%Z eqn:E2; [|reflexivity].
    apply andb_true_iff in E2 as [H1 H2].
    apply Z.ltb_lt in H1. apply Z.leb_le in H2. simpl in H2. lia.
Qed.

Lemma update_length {A : Type} (l : list A) (k : nat) (x : A) :
  length (update l k x) = length l.
Proof.
  revert k; induction l as [|h t IH]; intros [|k]; simpl; auto.
Qed.

Lemma nth_update {A : Type} (l : list A) (k i : nat) (x d : A) :
  nth i (update l k x) d =
  if ((i =? k) && (k <? length l))%nat then x else nth i l d.
Proof.
  revert k i; induction l as [|h t IH]; intros k i.
  - simpl. destruct k; rewrite andb_false_r; reflexivity.
  - destruct k as [|k], i as [|i]; simpl; try reflexivity.
    rewrite IH. reflexivity.
Qed.

Lemma py_div_ok (x y : R) : y <> 0 -> py_div x y = Ok (x / y).
Proof.
  intros Hy. unfold py_div. destruct (Req_dec_T y 0); [contradiction | reflexivity].
Qed.

Lemma py_div_zero (x : R) : py_div x 0 = Raise ZeroDivisionError.
Proof.
  unfold py_div. destruct (Req_dec_T 0 0) as [_|H]; [reflexivity | now elim H].
Qed.

Lemma tabulate_length n g : length (tabulate n g) = n.
Proof. unfold tabulate. now rewrite length_map, length_seq. Qed.

Lemma nth_map_seq {B : Type} (g : nat -> B) n i d :
  (i < n)%nat -> nth i (map g (seq 0 n)) d = g i.
Proof.
  intros Hi.
  rewrite (nth_indep _ d (g O)) by now rewrite length_map, length_seq.
  rewrite (map_nth g (seq 0 n) O i), seq_nth by assumption. reflexivity.
Qed.

Lemma nth_tabulate n g i d : (i < n)%nat -> nth i (tabulate n g) d = g i.
Proof. apply nth_map_seq. Qed.

Lemma tabulate_ext n g h :
  (forall i, (i < n)%nat -> g i = h i) -> tabulate n g = tabulate n h.
Proof.
  intros H. apply map_ext_in. intros i Hi. apply in_seq in Hi. apply H. lia.
Qed.

Lemma tabulate2_length n m g : length (tabulate2 n m g) = n.
Proof. unfold tabulate2. now rewrite length_map, length_seq. Qed.

Lemma nth_tabulate2 n m g i :
  (i < n)%nat -> nth i (tabulate2 n m g) [] = tabulate m (g i).
Proof.
  intros Hi. unfold tabulate2. now rewrite nth_map_seq.
Qed.

Lemma entry_tabulate2 n m g i j :
  (i < n)%nat -> (j < m)%nat -> entry (tabulate2 n m g) i j = g i j.
Proof.
  intros Hi Hj. unfold entry. rewrite nth_tabulate2 by assumption.
  now apply nth_tabulate.
Qed.

Lemma tabulate2_ext n m g h :
  (forall i j, (i < n)%nat -> (j < m)%nat -> g i j = h i j) ->
  tabulate2 n m g = tabulate2 n m h.
Proof.
  intros H. apply map_ext_in. intros i Hi. apply in_seq in Hi.
  apply tabulate_ext. intros j Hj. apply H; lia.
Qed.

Lemma repeat_tabulate (x : R) n : repeat x n = tabulate n (fun _ => x).
Proof.
  unfold tabulate. induction n as [|n IH]; [reflexivity|].
  simpl. rewrite IH. f_equal. now rewrite <- seq_shift, map_map.
Qed.

Lemma imap_map_seq {A B : Type} (g : nat -> A -> B) n (h : nat -> A) :
  Np.imap g (map h (seq 0 n)) = map (fun i => g i (h i)) (seq 0 n).
Proof.
  unfold Np.imap. rewrite length_map, length_seq.
  generalize 0%nat. induction n as [|n IH]; intros s; [reflexivity|].
  simpl. f_equal. apply IH.
Qed.

Lemma shape_tabulate2 n m g :
  (1 <= n)%nat -> Np.shape (tabulate2 n m g) = (n, m).
Proof.
  intros Hn. unfold Np.shape. rewrite tabulate2_length.
  destruct n as [|n]; [lia|]. simpl. now rewrite tabulate_length.
Qed.

Lemma iadd_tabulate2 n m g h :
  (1 <= n)%nat ->
  Np.iadd (tabulate2 n m g) (tabulate2 n m h)
  = Ok (tabulate2 n m (fun i j => g i j + h i j)).
Proof.
  intros Hn. unfold Np.iadd. rewrite !shape_tabulate2 by assumption.
  rewrite !Nat.eqb_refl. simpl.
  rewrite (imap_map_seq _ n (fun i => tabulate m (g i))).
  apply f_equal. unfold tabulate2. apply map_ext_in. intros i Hi. apply in_seq in Hi.
  rewrite (imap_map_seq _ m (g i)).
  apply map_ext_in. intros j Hj. apply in_seq in Hj.
  f_equal.
  assert (Ei : (if (n =? 1)%nat then 0%nat else i) = i).
  { destruct (Nat.eqb_spec n 1); [lia | reflexivity]. }
  assert (Ej : (if (m =? 1)%nat then 0%nat else j) = j).
  { destruct (Nat.eqb_spec m 1); [lia | reflexivity]. }
  rewrite Ei, Ej. apply entry_tabulate2; lia.
Qed.

Lemma diag_tabulate2 (v : vec) (k : Z) :
  Np.diag v k =
  tabulate2 (length v + Z.abs_nat k) (length v + Z.abs_nat k)
    (fun i j => if (Z.of_nat j =? Z.of_nat i + k)%Z
                then nth (Nat.min i j) v 0 else 0).
Proof. reflexivity. Qed.

Lemma zeros2_tabulate2 (n m : nat) :
  Np.zeros2 (Z.of_nat n) (Z.of_nat m) = Ok (tabulate2 n m (fun _ _ => 0)).
Proof.
  unfold Np.zeros2.
  replace ((Z.of_nat n <? 0) || (Z.of_nat m <? 0))%Z with false.
  - rewrite !Nat2Z.id. apply f_equal. unfold tabulate2.
    induction n as [|n IH]; [reflexivity|].
    simpl. rewrite IH. rewrite <- seq_shift, map_map.
    now rewrite <- repeat_tabulate.
  - symmetry. apply orb_false_iff. split; apply Z.ltb_ge; lia.
Qed.

Lemma ones_tabulate (n : nat) :
  Np.ones (Z.of_nat n) = Ok (tabulate n (fun _ => 1)).
Proof.
  unfold Np.ones. replace (Z.of_nat n <? 0)%Z with false.
  - now rewrite Nat2Z.id, repeat_tabulate.
  - symmetry. apply Z.ltb_ge. lia.
Qed.

Lemma removelast_tabulate n g : removelast (tabulate (S n) g) = tabulate n g.
Proof.
  unfold tabulate. rewrite seq_S, map_app. simpl. apply removelast_last.
Qed.

Lemma tl_tabulate n g : tl (tabulate (S n) g) = tabulate n (fun i => g (S i)).
Proof.
  unfold tabulate. simpl. now rewrite <- seq_shift, map_map.
Qed.

Lemma map_tabulate (h : R -> R) n g :
  map h (tabulate n g) = tabulate n (fun i => h (g i)).
Proof. unfold tabulate. now rewrite map_map. Qed.

(** The grid of [numpy.linspace] in exact arithmetic. *)
Lemma linspace_tabulate (a b : R) (m : nat) :
  (2 <= m)%nat ->
  Np.linspace a b (Z.of_nat m)
  = Ok (tabulate m (fun i => INR i * ((b - a) / INR (m - 1)) + a)).
Proof.
  intros Hm. unfold Np.linspace.
  replace (Z.of_nat m <? 0)%Z with false by (symmetry; apply Z.ltb_ge; lia).
  rewrite Nat2Z.id.
  replace (1 <? m)%nat with true by (symmetry; apply Nat.ltb_lt; lia).
  apply f_equal. destruct m as [|k]; [lia|].
  fold (tabulate (S k) (fun i => INR i * ((b - a) / INR (S k - 1)) + a)).
  rewrite removelast_tabulate.
  unfold tabulate at 2. rewrite seq_S, map_app. simpl.
  unfold tabulate. apply f_equal. apply f_equal2; [|reflexivity].
  rewrite Nat.sub_0_r.
  assert (INR k <> 0) by (apply not_0_INR; lia).
  field. assumption.
Qed.

Lemma list_eq_tabulate (l : vec) n g :
  length l = n -> (forall i, (i < n)%nat -> nth i l 0 = g i) -> l = tabulate n g.
Proof.
  intros Hl H. apply (nth_ext _ _ 0 0).
  - now rewrite tabulate_length.
  - intros i Hi. rewrite Hl in Hi. rewrite nth_tabulate by assumption. now apply H.
Qed.

Lemma IZR_succ_of_nat (n : nat) : IZR (Z.of_nat n + 1) = INR (n + 1).
Proof. rewrite INR_IZR_INZ. f_equal. lia. Qed.

Lemma INR_succ_neq_0 (n : nat) : INR (n + 1) <> 0.
Proof. apply not_0_INR. lia. Qed.

Lemma spacing_neq_0 (a b : R) (n : nat) : a <> b -> spacing a b n <> 0.
Proof.
  intros Hab. unfold spacing. pose proof (INR_succ_neq_0 n) as Hn.
  intros H. apply Hab.
  assert (E : b - a = spacing a b n * INR (n + 1)) by (unfold spacing; field; assumption).
  unfold spacing in E. rewrite H in E. lra.
Qed.

(** * The Dirichlet system *)

Section DirichletSystem.

Variable f : R -> R.
Variables a b u_a u_b : R.
Variable n : nat.
Hypothesis Hn : (1 <= n)%nat.
Hypothesis Hab : a <> b.

Lemma dirichlet_matrix_ok {B : Type} (dx : R) (k : matrix -> result B) :
  (A <- Np.zeros2 (Z.of_nat n) (Z.of_nat n) ;;
   ones <- Np.ones (Z.of_nat n) ;;
   let diagonal := map (fun v => v / dx ^ 2) ones in
   A <- Np.iadd A (Np.diag (map (fun v => v * -2) diagonal) 0) ;;
   A <- Np.iadd A (Np.diag (slice_to_m1 diagonal) 1) ;;
   A <- Np.iadd A (Np.diag (slice_to_m1 diagonal) (-1)) ;;
   k A)
  = k (tabulate2 n n (stencil_entry dx)).
Proof.
  rewrite zeros2_tabulate2, ones_tabulate, !bind_Ok. cbv zeta.
  rewrite !map_tabulate.
  destruct n as [|n']; [lia|]. unfold slice_to_m1.
  rewrite removelast_tabulate.
  rewrite !diag_tabulate2, !tabulate_length.
  change (Z.abs_nat 0) with 0%nat. change (Z.abs_nat 1) with 1%nat.
  change (Z.abs_nat (-1)) with 1%nat.
  rewrite Nat.add_0_r, Nat.add_1_r.
  rewrite iadd_tabulate2, bind_Ok by lia.
  rewrite iadd_tabulate2, bind_Ok by lia.
  rewrite iadd_tabulate2, bind_Ok by lia.
  apply f_equal. apply tabulate2_ext. intros i j Hi Hj.
  unfold stencil_entry.
  destruct (Nat.eqb_spec i j) as [->|Hij].
  - replace (Z.of_nat j =? Z.of_nat j + 0)%Z with true by (symmetry; apply Z.eqb_eq; lia).
    replace (Z.of_nat j =? Z.of_nat j + 1)%Z with false by (symmetry; apply Z.eqb_neq; lia).
    replace (Z.of_nat j =? Z.of_nat j + -1)%Z with false by (symmetry; apply Z.eqb_neq; lia).
    rewrite Nat.min_id, nth_tabulate by assumption. lra.
  - replace (Z.of_nat j =? Z.of_nat i + 0)%Z with false by (symmetry; apply Z.eqb_neq; lia).
    destruct (Nat.eqb_spec i (j + 1)) as [->|Hij1].
    + replace (Z.of_nat j =? Z.of_nat (j + 1) + 1)%Z with false
        by (symmetry; apply Z.eqb_neq; lia).
      replace (Z.of_nat j =? Z.of_nat (j + 1) + -1)%Z with true
        by (symmetry; apply Z.eqb_eq; lia).
      rewrite Nat.min_r, nth_tabulate by lia. cbn [orb]. lra.
    + replace (Z.of_nat j =? Z.of_nat i + -1)%Z with false
        by (symmetry; apply Z.eqb_neq; lia).
      destruct (Nat.eqb_spec j (i + 1)) as [->|Hji1].
      * replace (Z.of_nat (i + 1) =? Z.of_nat i + 1)%Z with true
          by (symmetry; apply Z.eqb_eq; lia).
        rewrite Nat.min_l, nth_tabulate by lia. cbn [orb]. lra.
      * replace (Z.of_nat j =? Z.of_nat i + 1)%Z with false
          by (symmetry; apply Z.eqb_neq; lia).
        cbn [orb]. lra.
Qed.

Lemma dirichlet_system_ok :
  dirichlet_system f a b u_a u_b (Z.of_nat n)
  = Ok (tabulate (n + 2) (grid_point a b n),
        tabulate2 n n (stencil_entry (spacing a b n)),
        tabulate n (dirichlet_rhs_entry f a b u_a u_b n)).
Proof.
  unfold dirichlet_system.
  replace (Z.of_nat n + 2)%Z with (Z.of_nat (n + 2)) by lia.
  rewrite linspace_tabulate, bind_Ok by lia. cbv zeta.
  rewrite IZR_succ_of_nat, py_div_ok, bind_Ok by apply INR_succ_neq_0.
  fold (spacing a b n).
  rewrite dirichlet_matrix_ok.
  replace (n + 2 - 1)%nat with (n + 1)%nat by lia.
  fold (spacing a b n).
  replace (n + 2)%nat with (S (S n)) by lia.
  unfold slice_1_m1. rewrite tl_tabulate, removelast_tabulate, map_tabulate.
  pose proof (spacing_neq_0 a b n Hab) as Hdx.
  assert (Hdx2 : spacing a b n ^ 2 <> 0) by (apply pow_nonzero; exact Hdx).
  unfold getitem at 1. rewrite tabulate_length.
  rewrite norm_index_first, !bind_Ok by lia.
  rewrite py_div_ok, bind_Ok by exact Hdx2.
  unfold setitem at 1. rewrite tabulate_length.
  rewrite norm_index_first, !bind_Ok by lia.
  unfold getitem at 1. rewrite update_length, tabulate_length.
  rewrite norm_index_last, !bind_Ok by lia.
  rewrite py_div_ok, bind_Ok by exact Hdx2.
  unfold setitem. rewrite update_length, tabulate_length.
  rewrite norm_index_last, !bind_Ok by lia.
  do 2 apply f_equal.
  apply list_eq_tabulate.
  - now rewrite !update_length, tabulate_length.
  - intros i Hi. rewrite !nth_update, !update_length, !tabulate_length.
    rewrite !nth_tabulate by lia.
    replace (0 <? n)%nat with true by (symmetry; apply Nat.ltb_lt; lia).
    replace (n - 1 <? n)%nat with true by (symmetry; apply Nat.ltb_lt; lia).
    rewrite !andb_true_r.
    unfold dirichlet_rhs_entry, grid_point, spacing.
    destruct (Nat.eqb_spec i (n - 1)) as [E1|E1];
      destruct (Nat.eqb_spec i 0) as [E0|E0];
      destruct (Nat.eqb_spec (n - 1) 0) as [E2|E2];
      try lia; try rewrite <- E1; try rewrite E0; lra.
Qed.

End DirichletSystem.

(** ** Inputs on which the Dirichlet cell raises *)

Section DirichletErrors.

Variable f : R -> R.
Variables a b u_a u_b : R.

Lemma dirichlet_system_no_interior :
  dirichlet_system f a b u_a u_b 0 = Raise IndexError.
Proof.
  unfold dirichlet_system.
  change (Np.linspace a b (0 + 2)) with
    (Ok (removelast (map (fun i => INR i * ((b - a) / INR (2 - 1)) + a) (seq 0 2))
           ++ [b])).
  rewrite bind_Ok. cbv zeta.
  rewrite py_div_ok by (simpl; lra).
  reflexivity.
Qed.

Lemma dirichlet_system_minus_one :
  dirichlet_system f a b u_a u_b (-1) = Raise ZeroDivisionError.
Proof.
  unfold dirichlet_system.
  change (Np.linspace a b (-1 + 2)) with
    (Ok (map (fun i => INR i * ((b - a) / INR (1 - 1)) + a) (seq 0 1))).
  rewrite bind_Ok. cbv zeta.
  change (IZR (-1 + 1)) with 0. now rewrite py_div_zero.
Qed.

Lemma dirichlet_system_negative (N : Z) :
  (N <= -2)%Z -> dirichlet_system f a b u_a u_b N = Raise ValueError.
Proof.
  intros HN. unfold dirichlet_system, Np.linspace.
  destruct (Z.ltb_spec (N + 2) 0) as [H|H]; [reflexivity|].
  assert (N = (-2)%Z) by lia. subst N.
  rewrite bind_Ok. cbv zeta.
  rewrite py_div_ok by (simpl; lra).
  reflexivity.
Qed.

Lemma dirichlet_system_degenerate (n : nat) :
  (1 <= n)%nat -> dirichlet_system f a a u_a u_b (Z.of_nat n) = Raise ZeroDivisionError.
Proof.
  intros Hn. unfold dirichlet_system.
  replace (Z.of_nat n + 2)%Z with (Z.of_nat (n + 2)) by lia.
  rewrite linspace_tabulate, bind_Ok by lia. cbv zeta.
  rewrite IZR_succ_of_nat, py_div_ok, bind_Ok by apply INR_succ_neq_0.
  rewrite dirichlet_matrix_ok by assumption.
  replace (n + 2)%nat with (S (S n)) by lia.
  unfold slice_1_m1. rewrite tl_tabulate, removelast_tabulate, map_tabulate.
  unfold getitem at 1. rewrite tabulate_length.
  rewrite norm_index_first, !bind_Ok by lia.
  replace ((a - a) / INR (n + 1)) with 0
    by (field; apply INR_succ_neq_0).
  replace (0 ^ 2) with 0 by ring.
  now rewrite py_div_zero.
Qed.

(** The system is assembled exactly when there is at least one interior
    point and the interval is not reduced to a point. *)
Lemma dirichlet_system_Ok_inv (N : Z) (r : vec * matrix * vec) :
  dirichlet_system f a b u_a u_b N = Ok r -> (1 <= N)%Z /\ a <> b.
Proof.
  intros H.
  destruct (Z.le_gt_cases N (-2)) as [HN|HN].
  { rewrite dirichlet_system_negative in H by assumption. discriminate. }
  destruct (Z.eq_dec N (-1)) as [->|HN1].
  { rewrite dirichlet_system_minus_one in H. discriminate. }
  destruct (Z.eq_dec N 0) as [->|HN0].
  { rewrite dirichlet_system_no_interior in H. discriminate. }
  split; [lia|]. intros E. rewrite <- E in H.
  replace N with (Z.of_nat (Z.to_nat N)) in H by lia.
  rewrite dirichlet_system_degenerate in H by lia. discriminate.
Qed.

End DirichletErrors.

(** ** Filling the solution vector *)

Lemma update_app_last {A : Type} (l : list A) (k : nat) (x y : A) :
  length l = k -> update (l ++ [x]) k y = l ++ [y].
Proof.
  intros <-. induction l as [|h t IH]; simpl; [reflexivity | now rewrite IH].
Qed.

Lemma app_last_not_nil {A : Type} (l : list A) (x : A) : l ++ [x] <> [].
Proof. destruct l; discriminate. Qed.

Lemma assign_slice_1_m1_exact (u0 ul : R) (l w : vec) :
  length w = length l ->
  assign_slice_1_m1 (u0 :: l ++ [ul]) w = Ok (u0 :: w ++ [ul]).
Proof.
  intros Hw. unfold assign_slice_1_m1.
  rewrite removelast_last, last_last, Hw, Nat.eqb_refl.
  destruct (l ++ [ul]) eqn:E; [|reflexivity].
  now apply app_last_not_nil in E.
Qed.

Lemma assign_slice_1_m1_boundary (u0 ul : R) (l w U : vec) :
  assign_slice_1_m1 (u0 :: l ++ [ul]) w = Ok U ->
  length U = (length l + 2)%nat /\ nth 0 U 0 = u0 /\ last U 0 = ul.
Proof.
  unfold assign_slice_1_m1.
  rewrite removelast_last, last_last.
  destruct (l ++ [ul]) eqn:E; [now apply app_last_not_nil in E|].
  destruct (Nat.eqb_spec (length w) (length l)) as [Hw|Hw].
  - intros H; inversion H; subst U; clear H. repeat split.
    + simpl. rewrite length_app, Hw. simpl. lia.
    + change (u0 :: w ++ [ul]) with ((u0 :: w) ++ [ul]). apply last_last.
  - destruct (Nat.eqb_spec (length w) 1) as [Hw1|Hw1]; [|discriminate].
    intros H; inversion H; subst U; clear H. repeat split.
    + simpl. rewrite length_app, repeat_length. simpl. lia.
    + change (u0 :: repeat (hd 0 w) (length l) ++ [ul])
        with ((u0 :: repeat (hd 0 w) (length l)) ++ [ul]).
      apply last_last.
Qed.

Lemma solution_buffer_ok {B : Type} (junk : nat -> R) (n : nat) (u_a u_b : R)
      (k : vec -> result B) :
  (U <- Np.empty junk (Z.of_nat n + 2) ;;
   U <- setitem U 0 u_a ;;
   U <- setitem U (-1) u_b ;;
   k U)
  = k (u_a :: map junk (seq 1 n) ++ [u_b]).
Proof.
  unfold Np.empty.
  replace (Z.of_nat n + 2 <? 0)%Z with false by (symmetry; apply Z.ltb_ge; lia).
  replace (Z.to_nat (Z.of_nat n + 2)) with (S (S n)) by lia.
  rewrite bind_Ok.
  unfold setitem at 1. rewrite length_map, length_seq.
  rewrite norm_index_first, !bind_Ok by lia.
  unfold setitem. rewrite update_length, length_map, length_seq.
  rewrite norm_index_last, !bind_Ok by lia.
  f_equal.
  change (seq 0 (S (S n))) with (0%nat :: seq 1 (S n)).
  rewrite seq_S, map_cons, map_app.
  replace (S (S n) - 1)%nat with (S n) by lia.
  cbn [update map]. f_equal.
  apply update_app_last. now rewrite length_map, length_seq.
Qed.

Section DirichletCellFacts.

Variable solve : matrix -> vec -> result vec.
Variable junk : nat -> R.
Variable f : R -> R.
Variables a b u_a u_b : R.

(** With at least one interior point and [a <> b] the cell reaches the
    linear solve, and whatever vector of the right length the solve
    returns is framed by the two boundary values. *)
Lemma dirichlet_cell_ok (n : nat) (w : vec) :
  (1 <= n)%nat -> a <> b ->
  solve (tabulate2 n n (stencil_entry (spacing a b n)))
        (tabulate n (dirichlet_rhs_entry f a b u_a u_b n)) = Ok w ->
  length w = n ->
  dirichlet_cell solve junk f a b u_a u_b (Z.of_nat n)
  = Ok (tabulate (n + 2) (grid_point a b n), u_a :: w ++ [u_b]).
Proof.
  intros Hn Hab Hw Hlen. unfold dirichlet_cell.
  rewrite dirichlet_system_ok, bind_Ok by assumption.
  rewrite solution_buffer_ok, Hw, bind_Ok.
  rewrite assign_slice_1_m1_exact, bind_Ok; [reflexivity|].
  now rewrite length_map, length_seq.
Qed.

Lemma dirichlet_cell_Ok_inv (N : Z) (x_bc U : vec) :
  dirichlet_cell solve junk f a b u_a u_b N = Ok (x_bc, U) ->
  (1 <= N)%Z /\ a <> b /\
  length U = Z.to_nat (N + 2) /\ nth 0 U 0 = u_a /\ last U 0 = u_b.
Proof.
  intros H. unfold dirichlet_cell in H.
  destruct (dirichlet_system f a b u_a u_b N) as [r|e] eqn:Es; [|discriminate].
  destruct (dirichlet_system_Ok_inv _ _ _ _ _ _ _ Es) as [HN Hab].
  do 2 (split; [assumption|]).
  rewrite bind_Ok in H. destruct r as [[x0 A] rhs].
  replace N with (Z.of_nat (Z.to_nat N)) in H by lia.
  rewrite solution_buffer_ok in H.
  destruct (solve A rhs) as [w|e]; [|discriminate].
  rewrite bind_Ok in H.
  destruct (assign_slice_1_m1 _ w) as [U'|e] eqn:EU; [|discriminate].
  rewrite bind_Ok in H. inversion H; subst; clear H.
  apply assign_slice_1_m1_boundary in EU.
  rewrite length_map, length_seq in EU.
  destruct EU as (H1 & H2 & H3). repeat split; try assumption. lia.
Qed.

End DirichletCellFacts.

(** * The tridiagonal system and its solutions *)

Lemma rsum_S F n : rsum F (S n) = rsum F n + F n.
Proof.
  unfold rsum. rewrite seq_S, map_app, fold_right_app. simpl.
  generalize (map F (seq 0 n)). intros l.
  induction l as [|h t IH]; simpl; [lra | rewrite IH; lra].
Qed.

Lemma rsum_0 F : rsum F 0 = 0.
Proof. reflexivity. Qed.

Lemma rsum_ext F G n :
  (forall j, (j < n)%nat -> F j = G j) -> rsum F n = rsum G n.
Proof.
  intros H. unfold rsum. f_equal. apply map_ext_in.
  intros j Hj. apply in_seq in Hj. apply H. lia.
Qed.

Lemma rsum_plus F G n : rsum (fun j => F j + G j) n = rsum F n + rsum G n.
Proof.
  induction n as [|n IH]; [rewrite !rsum_0; lra|].
  rewrite !rsum_S, IH. lra.
Qed.

(** A sum with a single non-zero term. *)
Lemma rsum_single (k : nat) (c : R) n :
  rsum (fun j => if (j =? k)%nat then c else 0) n = if (k <? n)%nat then c else 0.
Proof.
  induction n as [|n IH]; [reflexivity|].
  rewrite rsum_S, IH.
  destruct (Nat.ltb_spec k n), (Nat.ltb_spec k (S n)), (Nat.eqb_spec n k);
    try lia; lra.
Qed.

Lemma dot_tabulate (n : nat) (g h : nat -> R) :
  dot (tabulate n g) (tabulate n h) = rsum (fun j => g j * h j) n.
Proof.
  unfold dot, rsum, tabulate. f_equal.
  generalize 0%nat. induction n as [|n IH]; intros s; [reflexivity|].
  simpl. f_equal. apply IH.
Qed.

Lemma vec_as_tabulate (x : vec) : x = tabulate (length x) (fun j => nth j x 0).
Proof. apply list_eq_tabulate; auto. Qed.

(** Row [i] of the second-difference matrix applied to [x]. *)
Lemma stencil_row (dx : R) (n i : nat) (X : nat -> R) :
  (i < n)%nat ->
  dot (tabulate n (stencil_entry dx i)) (tabulate n X)
  = ((if (i =? 0)%nat then 0 else X (i - 1)%nat) - 2 * X i
     + (if (i + 1 <? n)%nat then X (i + 1)%nat else 0)) / dx ^ 2.
Proof.
  intros Hi. rewrite dot_tabulate.
  rewrite (rsum_ext _
    (fun j => (if (j =? i)%nat then -2 / dx ^ 2 * X i else 0)
              + ((if (j =? i - 1)%nat
                  then (if (i =? 0)%nat then 0 else X (i - 1)%nat / dx ^ 2) else 0)
                 + (if (j =? i + 1)%nat then X (i + 1)%nat / dx ^ 2 else 0)))).
  - rewrite !rsum_plus, !rsum_single.
    replace (i <? n)%nat with true by (symmetry; apply Nat.ltb_lt; lia).
    replace (i - 1 <? n)%nat with true by (symmetry; apply Nat.ltb_lt; lia).
    destruct (Nat.eqb_spec i 0), (Nat.ltb_spec (i + 1) n); unfold Rdiv; lra.
  - intros j Hj. unfold stencil_entry.
    destruct (Nat.eqb_spec i j) as [E|E].
    + subst j. rewrite Nat.eqb_refl.
      destruct (Nat.eqb_spec i (i - 1)), (Nat.eqb_spec i (i + 1)),
        (Nat.eqb_spec i 0); try lia; lra.
    + destruct (Nat.eqb_spec j i); [lia|].
      destruct (Nat.eqb_spec i (j + 1)) as [E1|E1].
      * cbn [orb]. destruct (Nat.eqb_spec j (i - 1)); [|lia].
        destruct (Nat.eqb_spec j (i + 1)); [lia|].
        destruct (Nat.eqb_spec i 0); [lia|].
        replace (i - 1)%nat with j by lia. unfold Rdiv; lra.
      * cbn [orb]. destruct (Nat.eqb_spec j (i - 1)) as [E2|E2].
        -- destruct (Nat.eqb_spec i 0) as [E3|E3]; [|lia].
           destruct (Nat.eqb_spec j (i + 1)); [lia|]. lra.
        -- destruct (Nat.eqb_spec j (i + 1)) as [E3|E3].
           ++ subst j. unfold Rdiv; lra.
           ++ lra.
Qed.

Lemma square_stencil (dx : R) (n : nat) : square n (tabulate2 n n (stencil_entry dx)).
Proof.
  split; [apply tabulate2_length|].
  intros r Hr. unfold tabulate2 in Hr. apply in_map_iff in Hr as (i & <- & _).
  apply tabulate_length.
Qed.

Lemma mat_vec_stencil (dx : R) (n : nat) (X : nat -> R) :
  mat_vec (tabulate2 n n (stencil_entry dx)) (tabulate n X)
  = tabulate n (fun i =>
      ((if (i =? 0)%nat then 0 else X (i - 1)%nat) - 2 * X i
       + (if (i + 1 <? n)%nat then X (i + 1)%nat else 0)) / dx ^ 2).
Proof.
  unfold mat_vec, tabulate2. rewrite map_map.
  apply map_ext_in. intros i Hi. apply in_seq in Hi.
  apply stencil_row. lia.
Qed.

(** A grid function with vanishing second differences and vanishing end
    values vanishes: [D i = (i + 1) * D 0] along the recurrence. *)
Lemma second_difference_zero (D : nat -> R) (n : nat) :
  (forall i, (i < n)%nat ->
     (if (i =? 0)%nat then 0 else D (i - 1)%nat) - 2 * D i + D (i + 1)%nat = 0) ->
  D n = 0 ->
  forall i, (i <= n)%nat -> D i = 0.
Proof.
  intros Hrec Hend.
  assert (Hlin : forall i, (i <= n)%nat ->
             D i = INR (i + 1) * D O /\ ((S i <= n)%nat -> D (S i) = INR (i + 2) * D O)).
  { induction i as [|i IH]; intros Hi.
    - split; [simpl; lra|]. intros H1.
      pose proof (Hrec O ltac:(lia)) as E. simpl in E. simpl. lra.
    - destruct (IH ltac:(lia)) as [E0 E1]. specialize (E1 Hi).
      split; [rewrite E1; f_equal; f_equal; lia|].
      intros H2. pose proof (Hrec (S i) ltac:(lia)) as E.
      simpl in E. rewrite Nat.sub_0_r in E.
      replace (S (i + 1)) with (S (S i)) in E by lia.
      rewrite E0, E1 in E.
      replace (S i + 2)%nat with (S (S (S i))) by lia.
      replace (i + 2)%nat with (S (S i)) in E by lia.
      replace (i + 1)%nat with (S i) in E by lia.
      rewrite !S_INR in *. lra. }
  assert (H0 : D O = 0).
  { destruct (Hlin n (le_n n)) as [E _]. rewrite Hend in E.
    pose proof (INR_succ_neq_0 n). nra. }
  intros i Hi. destruct (Hlin i Hi) as [E _]. rewrite E, H0. ring.
Qed.

Section TridiagonalSystem.

Variable dx : R.
Hypothesis Hdx : dx <> 0.
Variable n : nat.

Let A := tabulate2 n n (stencil_entry dx).

Lemma stencil_solution_unique (rhs x y : vec) :
  length rhs = n -> solves A rhs x -> solves A rhs y -> y = x.
Proof.
  intros Hr [Lx Ex] [Ly Ey].
  rewrite Hr in Lx, Ly.
  rewrite (vec_as_tabulate x), Lx in Ex.
  rewrite (vec_as_tabulate y), Ly in Ey.
  unfold A in Ex, Ey. rewrite mat_vec_stencil in Ex, Ey.
  set (D := fun i => nth i y 0 - nth i x 0).
  assert (HD : forall i, (i <= n)%nat -> D i = 0).
  { apply second_difference_zero.
    - intros i Hi.
      assert (E1 := f_equal (fun l => nth i l 0) Ex).
      assert (E2 := f_equal (fun l => nth i l 0) Ey).
      cbv beta in E1, E2. rewrite nth_tabulate in E1, E2 by assumption.
      rewrite <- E1 in E2. clear E1.
      assert (Hdx2 : dx ^ 2 <> 0) by (apply pow_nonzero; exact Hdx).
      apply (Rmult_eq_compat_r (dx ^ 2)) in E2.
      unfold Rdiv in E2. rewrite !Rmult_assoc, Rinv_l, !Rmult_1_r in E2 by exact Hdx2.
      unfold D. revert E2.
      destruct (Nat.ltb_spec (i + 1) n) as [H1|H1].
      + destruct (Nat.eqb_spec i 0); intros E2; lra.
      + rewrite (nth_overflow y (n:=i + 1)), (nth_overflow x (n:=i + 1)) by lia.
        destruct (Nat.eqb_spec i 0); intros E2; lra.
    - unfold D. rewrite (nth_overflow y 0), (nth_overflow x 0) by lia. ring. }
  apply (nth_ext _ _ 0 0); [lia|].
  intros i Hi. specialize (HD i ltac:(lia)). unfold D in HD. lra.
Qed.

End TridiagonalSystem.

Lemma tabulate_frame (n : nat) (V : nat -> R) :
  tabulate (n + 2) V = V O :: tabulate n (fun i => V (S i)) ++ [V (n + 1)%nat].
Proof.
  replace (n + 2)%nat with (S (S n)) by lia.
  replace (n + 1)%nat with (S n) by lia.
  unfold tabulate.
  change (seq 0 (S (S n))) with (O :: seq 1 (S n)).
  rewrite map_cons, seq_S, map_app, <- seq_shift, map_map.
  reflexivity.
Qed.

Section DirichletSolution.

Variable solve : matrix -> vec -> result vec.
Hypothesis solve_exact : exact_solver solve.
Variable junk : nat -> R.
Variable f : R -> R.
Variables a b u_a u_b : R.
Variable n : nat.
Hypothesis Hn : (1 <= n)%nat.
Hypothesis Hab : a <> b.

(** A grid function [V] on the [n + 2] points that takes the boundary
    values and whose second differences match the source term. *)
Variable V : nat -> R.
Hypothesis V_left : V O = u_a.
Hypothesis V_right : V (n + 1)%nat = u_b.
Hypothesis V_interior :
  forall i, (i < n)%nat ->
    (V i - 2 * V (S i) + V (S (S i))) / spacing a b n ^ 2
    = f (grid_point a b n (S i)).

Lemma dirichlet_interior_solves :
  solves (tabulate2 n n (stencil_entry (spacing a b n)))
         (tabulate n (dirichlet_rhs_entry f a b u_a u_b n))
         (tabulate n (fun i => V (S i))).
Proof.
  split; [now rewrite !tabulate_length|].
  rewrite mat_vec_stencil. apply tabulate_ext. intros i Hi.
  unfold dirichlet_rhs_entry. rewrite <- (V_interior i Hi).
  rewrite <- V_left, <- V_right.
  pose proof (spacing_neq_0 a b n Hab) as Hdx.
  destruct (Nat.eqb_spec i 0) as [E0|E0]; destruct (Nat.ltb_spec (i + 1) n) as [E1|E1];
    destruct (Nat.eqb_spec i (n - 1)) as [E2|E2]; try lia.
  - subst i. replace (0 + 1)%nat with 1%nat by lia. field. exact Hdx.
  - subst i. replace (n + 1)%nat with 2%nat by lia. field. exact Hdx.
  - replace (S (i - 1)) with i by lia. replace (i + 1)%nat with (S i) by lia.
    replace (S (i - 1 + 1)) with (S i) by lia.
    replace (i - 1)%nat with (i - 1)%nat by lia.
    replace (S (S (i - 1))) with (S i) by lia.
    field. exact Hdx.
  - replace (n + 1)%nat with (S (S i)) by lia.
    replace (S (i - 1)) with i by lia. field. exact Hdx.
Qed.

Lemma dirichlet_cell_exact :
  dirichlet_cell solve junk f a b u_a u_b (Z.of_nat n)
  = Ok (tabulate (n + 2) (grid_point a b n), tabulate (n + 2) V).
Proof.
  pose proof dirichlet_interior_solves as Hs.
  rewrite (dirichlet_cell_ok solve junk f a b u_a u_b n (tabulate n (fun i => V (S i))));
    try assumption.
  - now rewrite (tabulate_frame n V), V_left, V_right.
  - apply (solve_exact n).
    + apply square_stencil.
    + apply tabulate_length.
    + split; [exact Hs|]. intros y Hy.
      apply (stencil_solution_unique (spacing a b n) (spacing_neq_0 a b n Hab) n
               (tabulate n (dirichlet_rhs_entry f a b u_a u_b n))); try assumption.
      apply tabulate_length.
  - apply tabulate_length.
Qed.

End DirichletSolution.

Lemma ideal_solve_exact : exact_solver ideal_solve.
Proof.
  intros n A rhs x Hsq Hlen Hux. unfold ideal_solve.
  destruct (excluded_middle_informative _) as [H|H].
  - destruct (constructive_indefinite_description _ _) as [y Hy]. simpl.
    f_equal. apply Hux. apply Hy.
  - exfalso. apply H. rewrite Hlen. split; [assumption | now exists x].
Qed.

(** * The claims on the Dirichlet cell *)

(** C1 (amended).  With [n >= 1] interior points on an interval with
    [a <> b] and spacing [dx = (b - a) / (n + 1)], the cell assembles the
    [n] by [n] tridiagonal matrix with [-2 / dx ^ 2] on the diagonal,
    [1 / dx ^ 2] on the sub- and super-diagonal and zero elsewhere, and the
    right-hand side whose entry [i] is the source term at the interior point
    [x_(i+1)], with [u_a / dx ^ 2] subtracted in the first entry and
    [u_b / dx ^ 2] subtracted in the last entry; when [n = 1] the two
    subtractions fall on the same entry. *)
Theorem dirichlet_assembly (f : R -> R) (a b u_a u_b : R) (n : nat) :
  (1 <= n)%nat -> a <> b ->
  let dx := (b - a) / INR (n + 1) in
  exists x_bc A rhs,
    dirichlet_system f a b u_a u_b (Z.of_nat n) = Ok (x_bc, A, rhs) /\
    length x_bc = (n + 2)%nat /\
    (forall i, (i < n + 2)%nat -> nth i x_bc 0 = a + INR i * dx) /\
    square n A /\
    (forall i j, (i < n)%nat -> (j < n)%nat ->
       entry A i j =
       if (i =? j)%nat then -2 / dx ^ 2
       else if ((i =? j + 1) || (j =? i + 1))%nat then 1 / dx ^ 2
       else 0) /\
    length rhs = n /\
    (forall i, (i < n)%nat ->
       nth i rhs 0 =
       f (nth (S i) x_bc 0)
       - (if (i =? 0)%nat then u_a / dx ^ 2 else 0)
       - (if (i =? n - 1)%nat then u_b / dx ^ 2 else 0)).
Proof.
  intros Hn Hab dx.
  exists (tabulate (n + 2) (grid_point a b n)),
         (tabulate2 n n (stencil_entry (spacing a b n))),
         (tabulate n (dirichlet_rhs_entry f a b u_a u_b n)).
  split; [now apply dirichlet_system_ok|].
  split; [apply tabulate_length|].
  split.
  { intros i Hi. rewrite nth_tabulate by assumption.
    unfold grid_point, dx. ring. }
  split; [apply square_stencil|].
  split.
  { intros i j Hi Hj. now rewrite entry_tabulate2. }
  split; [apply tabulate_length|].
  intros i Hi. rewrite !nth_tabulate by lia. reflexivity.
Qed.

Lemma dirichlet_assembly_witness :
  exists x_bc A rhs,
    dirichlet_system exp 0 1 0 3 (Z.of_nat 10) = Ok (x_bc, A, rhs) /\
    length x_bc = 12%nat /\ square 10 A /\ length rhs = 10%nat.
Proof.
  destruct (dirichlet_assembly exp 0 1 0 3 10) as (x_bc & A & rhs & H).
  - lia.
  - lra.
  - exists x_bc, A, rhs. tauto.
Defined.

(** C1 as stated fails with a single interior point: on [[0, 1]] with
    [u_a = 0], [u_b = 3] and [N = 1] the only entry of the right-hand side
    is [f x_1 - 0 - 12], not [f x_1 - u_a / dx ^ 2]. *)
Lemma dirichlet_rhs_single_interior_point :
  exists x_bc A rhs,
    dirichlet_system exp 0 1 0 3 1 = Ok (x_bc, A, rhs) /\
    nth 0 rhs 0 = exp (nth 1 x_bc 0) - 12 /\
    ~ rhs_entrywise exp 0 1 0 3 1 x_bc rhs.
Proof.
  exists (tabulate (1 + 2) (grid_point 0 1 1)),
         (tabulate2 1 1 (stencil_entry (spacing 0 1 1))),
         (tabulate 1 (dirichlet_rhs_entry exp 0 1 0 3 1)).
  assert (Hdx : spacing 0 1 1 ^ 2 = 1 / 4) by (unfold spacing; simpl; field).
  assert (Hdx' : ((1 - 0) / INR (1 + 1)) ^ 2 = 1 / 4) by (simpl; field).
  assert (E : nth 0 (tabulate 1 (dirichlet_rhs_entry exp 0 1 0 3 1)) 0
              = exp (nth 1 (tabulate (1 + 2) (grid_point 0 1 1)) 0) - 12).
  { rewrite !nth_tabulate by lia. unfold dirichlet_rhs_entry.
    rewrite Hdx. cbn [Nat.eqb Nat.sub]. lra. }
  split.
  - apply (dirichlet_system_ok exp 0 1 0 3 1); [lia | lra].
  - split; [exact E|].
    intros [H _]. rewrite E, Hdx' in H. lra.
Qed.

(** C3.  Whenever the cell returns, its vector has [N + 2] entries, the
    first one is [u_a] and the last one is [u_b], whatever the linear solve
    returned; and the cell does return as soon as the system is assembled
    and the solve yields a vector of the length of the right-hand side, that
    vector being copied between the two boundary values. *)
Theorem dirichlet_boundary_values
        (solve : matrix -> vec -> result vec) (junk : nat -> R)
        (f : R -> R) (a b u_a u_b : R) (N : Z) :
  (forall x_bc U,
      dirichlet_cell solve junk f a b u_a u_b N = Ok (x_bc, U) ->
      length U = Z.to_nat (N + 2) /\ nth 0 U 0 = u_a /\ last U 0 = u_b) /\
  (forall x_bc A rhs w,
      dirichlet_system f a b u_a u_b N = Ok (x_bc, A, rhs) ->
      solve A rhs = Ok w -> length w = length rhs ->
      dirichlet_cell solve junk f a b u_a u_b N = Ok (x_bc, u_a :: w ++ [u_b])).
Proof.
  split.
  - intros x_bc U H. apply dirichlet_cell_Ok_inv in H. tauto.
  - intros x_bc A rhs w Hs Hw Hlen.
    destruct (dirichlet_system_Ok_inv _ _ _ _ _ _ _ Hs) as [HN Hab].
    replace N with (Z.of_nat (Z.to_nat N)) in * by lia.
    rewrite dirichlet_system_ok in Hs by (assumption || lia).
    inversion Hs; subst; clear Hs.
    apply dirichlet_cell_ok; try assumption; try lia.
    now rewrite Hlen, tabulate_length.
Qed.

Lemma dirichlet_boundary_values_witness :
  let w := tabulate 2 (dirichlet_rhs_entry exp 0 1 0 3 2) in
  dirichlet_cell (fun _ rhs => Ok rhs) (fun _ => 7) exp 0 1 0 3 2
  = Ok (tabulate 4 (grid_point 0 1 2), 0 :: w ++ [3]) /\
  length (0 :: w ++ [3]) = 4%nat /\ nth 0 (0 :: w ++ [3]) 0 = 0 /\
  last (0 :: w ++ [3]) 0 = 3.
Proof.
  intros w.
  assert (Hs : dirichlet_system exp 0 1 0 3 2
               = Ok (tabulate 4 (grid_point 0 1 2),
                     tabulate2 2 2 (stencil_entry (spacing 0 1 2)), w)).
  { apply (dirichlet_system_ok exp 0 1 0 3 2); [lia | lra]. }
  destruct (dirichlet_boundary_values (fun _ rhs => Ok rhs) (fun _ => 7)
              exp 0 1 0 3 2) as [H1 H2].
  specialize (H2 _ _ _ w Hs eq_refl eq_refl).
  split; [exact H2|].
  exact (H1 _ _ H2).
Defined.

Lemma grid_point_first (a b : R) (n : nat) : grid_point a b n 0 = a.
Proof. unfold grid_point. simpl. ring. Qed.

Lemma grid_point_last (a b : R) (n : nat) : grid_point a b n (n + 1) = b.
Proof. unfold grid_point. field. apply INR_succ_neq_0. Qed.

Lemma grid_point_S (a b : R) (n i : nat) :
  grid_point a b n (S i) = grid_point a b n i + spacing a b n.
Proof. unfold grid_point, spacing. rewrite S_INR. ring. Qed.

(** C2.  For the problem [u_xx = 0] on [[a, b]] with [a < b] and [n >= 1]
    interior points, with an exact linear solve, the cell returns the
    uniform grid [x_i = a + i * (b - a) / (n + 1)], [i = 0 .. n + 1], and at
    every grid point, the two boundaries included, the value of the straight
    line through [(a, u_a)] and [(b, u_b)]; in particular [u_a] at the left
    end and [u_b] at the right end. *)
Theorem dirichlet_reproduces_linear
        (solve : matrix -> vec -> result vec) (junk : nat -> R)
        (a b u_a u_b : R) (n : nat) :
  exact_solver solve -> a < b -> (1 <= n)%nat ->
  exists x_bc U,
    dirichlet_cell solve junk (fun _ => 0) a b u_a u_b (Z.of_nat n) = Ok (x_bc, U) /\
    length x_bc = (n + 2)%nat /\ length U = (n + 2)%nat /\
    (forall i, (i < n + 2)%nat ->
       nth i x_bc 0 = a + INR i * ((b - a) / INR (n + 1))) /\
    nth 0 x_bc 0 = a /\ nth (n + 1) x_bc 0 = b /\
    nth 0 U 0 = u_a /\ nth (n + 1) U 0 = u_b /\
    forall i, (i < n + 2)%nat ->
      nth i U 0 = u_a + (u_b - u_a) * (nth i x_bc 0 - a) / (b - a).
Proof.
  intros Hsolve Hab Hn.
  set (V := fun i => u_a + (u_b - u_a) * (grid_point a b n i - a) / (b - a)).
  exists (tabulate (n + 2) (grid_point a b n)), (tabulate (n + 2) V).
  assert (Hne : a <> b) by lra.
  assert (V0 : V 0%nat = u_a).
  { unfold V. rewrite grid_point_first. field. lra. }
  assert (Vn : V (n + 1)%nat = u_b).
  { unfold V. rewrite grid_point_last. field. lra. }
  split.
  - apply dirichlet_cell_exact; try assumption.
    intros i Hi. unfold V. rewrite !grid_point_S.
    pose proof (spacing_neq_0 a b n Hne). field. split; (assumption || lra).
  - split; [apply tabulate_length|]. split; [apply tabulate_length|].
    split; [|split; [|split; [|split; [|split]]]].
    + intros i Hi. rewrite nth_tabulate by assumption. unfold grid_point. ring.
    + rewrite nth_tabulate by lia. apply grid_point_first.
    + rewrite nth_tabulate by lia. apply grid_point_last.
    + rewrite nth_tabulate by lia. exact V0.
    + rewrite nth_tabulate by lia. exact Vn.
    + intros i Hi. now rewrite !nth_tabulate by assumption.
Qed.

Lemma dirichlet_reproduces_linear_witness :
  exists x_bc U,
    dirichlet_cell ideal_solve (fun _ => 0) (fun _ => 0) 0 1 0 3 (Z.of_nat 10)
    = Ok (x_bc, U) /\
    length x_bc = 12%nat /\ length U = 12%nat /\
    (forall i, (i < 12)%nat -> nth i x_bc 0 = 0 + INR i * ((1 - 0) / INR (10 + 1))) /\
    nth 0 x_bc 0 = 0 /\ nth (10 + 1) x_bc 0 = 1 /\
    nth 0 U 0 = 0 /\ nth (10 + 1) U 0 = 3 /\
    forall i, (i < 12)%nat -> nth i U 0 = 0 + (3 - 0) * (nth i x_bc 0 - 0) / (1 - 0).
Proof.
  apply (dirichlet_reproduces_linear ideal_solve (fun _ => 0) 0 1 0 3 10).
  - exact ideal_solve_exact.
  - lra.
  - lia.
Defined.

(** * The mixed Dirichlet/Neumann system *)

Lemma norm_index_m2 (len : nat) : (2 <= len)%nat -> norm_index len (-2) = Ok (len - 2)%nat.
Proof. intros H. apply (norm_index_neg len 2). lia. Qed.

Lemma norm_index_m3 (len : nat) : (3 <= len)%nat -> norm_index len (-3) = Ok (len - 3)%nat.
Proof. intros H. apply (norm_index_neg len 3). lia. Qed.

Lemma norm_index_one (len : nat) : (2 <= len)%nat -> norm_index len 1 = Ok 1%nat.
Proof. intros H. apply (norm_index_nonneg len 1). lia. Qed.

Lemma update_tabulate (m : nat) (g : nat -> R) (c : nat) (x : R) :
  update (tabulate m g) c x = tabulate m (fun j => if (j =? c)%nat then x else g j).
Proof.
  apply list_eq_tabulate.
  - now rewrite update_length, tabulate_length.
  - intros j Hj. rewrite nth_update, tabulate_length, nth_tabulate by assumption.
    destruct (Nat.eqb_spec j c) as [->|E]; [|reflexivity].
    now replace (c <? m)%nat with true by (symmetry; apply Nat.ltb_lt; lia).
Qed.

Lemma setitem2_tabulate2 (n m : nat) (g : nat -> nat -> R) (i j : Z) (r c : nat) (x : R) :
  norm_index n i = Ok r -> norm_index m j = Ok c ->
  setitem2 (tabulate2 n m g) i j x
  = Ok (tabulate2 n m (fun i' j' => if ((i' =? r) && (j' =? c))%nat then x else g i' j')).
Proof.
  intros Hr Hc. pose proof (norm_index_range _ _ _ Hr) as Hrn.
  unfold setitem2. rewrite tabulate2_length, Hr, bind_Ok.
  rewrite nth_tabulate2, tabulate_length, Hc, bind_Ok by assumption.
  apply f_equal. rewrite update_tabulate.
  apply (nth_ext _ _ [] []).
  - now rewrite update_length, !tabulate2_length.
  - intros k Hk. rewrite update_length, tabulate2_length in Hk.
    rewrite nth_update, tabulate2_length, !nth_tabulate2 by assumption.
    replace (r <? n)%nat with true by (symmetry; apply Nat.ltb_lt; lia).
    rewrite andb_true_r.
    destruct (Nat.eqb_spec k r) as [->|E]; reflexivity.
Qed.

Section MixedSystem.

Variable f : R -> R.
Variables a b u_a u_x_b : R.
Variable n : nat.
Hypothesis Hn : (1 <= n)%nat.
Hypothesis Hab : a <> b.

Lemma mixed_system_ok :
  mixed_system f a b u_a u_x_b (Z.of_nat n)
  = Ok (tabulate (n + 2) (grid_point a b n),
        tabulate2 (n + 2) (n + 2) (mixed_entry (spacing a b n) n),
        tabulate (n + 2) (mixed_rhs_entry f a b u_a u_x_b n)).
Proof.
  unfold mixed_system.
  replace (Z.of_nat n + 2)%Z with (Z.of_nat (n + 2)) by lia.
  rewrite linspace_tabulate, bind_Ok by lia. cbv zeta.
  rewrite IZR_succ_of_nat, py_div_ok, bind_Ok by apply INR_succ_neq_0.
  fold (spacing a b n).
  rewrite dirichlet_matrix_ok by lia.
  replace (n + 2 - 1)%nat with (n + 1)%nat by lia.
  fold (spacing a b n). fold (grid_point a b n).
  pose proof (spacing_neq_0 a b n Hab) as Hdx.
  assert (Hdx2 : 2 * spacing a b n <> 0) by lra.
  rewrite (setitem2_tabulate2 _ _ _ 0 0 0 0), bind_Ok
    by (apply norm_index_first; lia).
  rewrite (setitem2_tabulate2 _ _ _ 0 1 0 1), bind_Ok
    by (apply norm_index_first || apply norm_index_one; lia).
  rewrite py_div_ok, bind_Ok by exact Hdx2.
  rewrite (setitem2_tabulate2 _ _ _ (-1) (-1) (n + 2 - 1) (n + 2 - 1)), bind_Ok
    by (apply norm_index_last; lia).
  rewrite py_div_ok, bind_Ok by exact Hdx2.
  rewrite (setitem2_tabulate2 _ _ _ (-1) (-2) (n + 2 - 1) (n + 2 - 2)), bind_Ok
    by (apply norm_index_last || apply norm_index_m2; lia).
  rewrite py_div_ok, bind_Ok by exact Hdx2.
  rewrite (setitem2_tabulate2 _ _ _ (-1) (-3) (n + 2 - 1) (n + 2 - 3)), bind_Ok
    by (apply norm_index_last || apply norm_index_m3; lia).
  rewrite map_tabulate.
  unfold setitem at 1. rewrite tabulate_length, norm_index_first, !bind_Ok by lia.
  unfold setitem. rewrite update_length, tabulate_length, norm_index_last, !bind_Ok by lia.
  rewrite !update_tabulate.
  apply f_equal. apply f_equal2; [apply f_equal2; [reflexivity|]|].
  - apply tabulate2_ext. intros i j Hi Hj. unfold mixed_entry, stencil_entry.
    repeat (match goal with
            | |- context [Nat.eqb ?x ?y] => destruct (Nat.eqb_spec x y)
            end; try lia; cbn [andb orb]);
      reflexivity.
  - apply tabulate_ext. intros i Hi. unfold mixed_rhs_entry, grid_point, spacing.
    repeat match goal with
           | |- context [Nat.eqb ?x ?y] => destruct (Nat.eqb_spec x y)
           end; try reflexivity; lia.
Qed.

End MixedSystem.

(** C7.  With [n >= 1] interior points and [a <> b], after the boundary
    handling of the mixed cell the system on [n + 2] unknowns has: in row 0
    the entry 1 in column 0 and zero elsewhere, with right-hand side [u_a];
    in the last row the entries [1 / (2 dx)], [-4 / (2 dx)], [3 / (2 dx)] in
    columns [n - 1], [n], [n + 1] and zero elsewhere, with right-hand side
    the derivative value [u_x_b]; in rows [1 .. n] the second-difference
    stencil [[1, -2, 1] / dx ^ 2]. *)
Theorem mixed_boundary_rows (f : R -> R) (a b u_a u_x_b : R) (n : nat) :
  (1 <= n)%nat -> a <> b ->
  let dx := (b - a) / INR (n + 1) in
  exists x_bc A rhs,
    mixed_system f a b u_a u_x_b (Z.of_nat n) = Ok (x_bc, A, rhs) /\
    square (n + 2) A /\ length rhs = (n + 2)%nat /\
    (forall j, (j < n + 2)%nat ->
       entry A 0 j = if (j =? 0)%nat then 1 else 0) /\
    nth 0 rhs 0 = u_a /\
    (forall j, (j < n + 2)%nat ->
       entry A (n + 1) j =
       if (j =? n - 1)%nat then 1 / (2 * dx)
       else if (j =? n)%nat then -4 / (2 * dx)
       else if (j =? n + 1)%nat then 3 / (2 * dx)
       else 0) /\
    nth (n + 1) rhs 0 = u_x_b /\
    (forall i j, (1 <= i <= n)%nat -> (j < n + 2)%nat ->
       entry A i j =
       if (i =? j)%nat then -2 / dx ^ 2
       else if ((i =? j + 1) || (j =? i + 1))%nat then 1 / dx ^ 2
       else 0).
Proof.
  intros Hn Hab dx.
  exists (tabulate (n + 2) (grid_point a b n)),
         (tabulate2 (n + 2) (n + 2) (mixed_entry (spacing a b n) n)),
         (tabulate (n + 2) (mixed_rhs_entry f a b u_a u_x_b n)).
  split; [now apply mixed_system_ok|].
  split.
  { split; [apply tabulate2_length|].
    intros r Hr. unfold tabulate2 in Hr. apply in_map_iff in Hr as (i & <- & _).
    apply tabulate_length. }
  split; [apply tabulate_length|].
  split.
  { intros j Hj. rewrite entry_tabulate2 by lia. reflexivity. }
  split.
  { rewrite nth_tabulate by lia. reflexivity. }
  split.
  { intros j Hj. rewrite entry_tabulate2 by lia. unfold mixed_entry.
    destruct (Nat.eqb_spec (n + 1) 0); [lia|]. now rewrite Nat.eqb_refl. }
  split.
  { rewrite nth_tabulate by lia. unfold mixed_rhs_entry.
    destruct (Nat.eqb_spec (n + 1) 0); [lia|]. now rewrite Nat.eqb_refl. }
  intros i j Hi Hj. rewrite entry_tabulate2 by lia. unfold mixed_entry.
  destruct (Nat.eqb_spec i 0); [lia|].
  destruct (Nat.eqb_spec i (n + 1)); [lia|]. reflexivity.
Qed.

Lemma mixed_boundary_rows_witness :
  exists x_bc A rhs,
    mixed_system exp (-1) 1 3 (-5) (Z.of_nat 10) = Ok (x_bc, A, rhs) /\
    square 12 A /\ length rhs = 12%nat /\
    nth 0 rhs 0 = 3 /\ nth 11 rhs 0 = -5.
Proof.
  destruct (mixed_boundary_rows exp (-1) 1 3 (-5) 10) as (x_bc & A & rhs & H).
  - lia.
  - lra.
  - exists x_bc, A, rhs. tauto.
Defined.

(** * The shooting loop *)

Lemma update_app_mid {A : Type} (p q : list A) (k : nat) (h v : A) :
  length p = k -> update (p ++ h :: q) k v = p ++ v :: q.
Proof.
  intros <-. induction p as [|c t IH]; simpl; [reflexivity | now rewrite IH].
Qed.

Lemma set_column_rows (p0 p1 q0 q1 : vec) (h0 h1 : R) (i : nat) (v : R * R) :
  length p0 = S i -> length p1 = S i ->
  set_column [p0 ++ h0 :: q0; p1 ++ h1 :: q1] (Z.of_nat i + 1) v
  = Ok [(p0 ++ [fst v]) ++ q0; (p1 ++ [snd v]) ++ q1].
Proof.
  intros H0 H1. unfold set_column, setitem2.
  replace (Z.of_nat i + 1)%Z with (Z.of_nat (S i)) by lia.
  cbn [length]. rewrite norm_index_first, bind_Ok by lia. cbn [nth].
  rewrite norm_index_nonneg, !bind_Ok by (rewrite length_app; simpl; lia).
  cbn [length update]. rewrite norm_index_one, bind_Ok by lia. cbn [nth].
  rewrite norm_index_nonneg, !bind_Ok by (rewrite length_app; simpl; lia).
  cbn [update].
  rewrite !update_app_mid by assumption.
  now rewrite <- !app_assoc.
Qed.

Lemma setitem2_first_row (c0 : R) (q0 r1 : vec) (v : R) :
  setitem2 [c0 :: q0; r1] 0 0 v = Ok [v :: q0; r1].
Proof.
  unfold setitem2. cbn [length]. rewrite norm_index_first, bind_Ok by lia.
  cbn [nth length]. now rewrite norm_index_first, bind_Ok by lia.
Qed.

Lemma setitem2_second_row (r0 : vec) (c1 : R) (q1 : vec) (v : R) :
  setitem2 [r0; c1 :: q1] 1 0 v = Ok [r0; v :: q1].
Proof.
  unfold setitem2. cbn [length]. rewrite norm_index_one, bind_Ok by lia.
  cbn [nth length]. now rewrite norm_index_first, bind_Ok by lia.
Qed.

Lemma get_column_first (c0 c1 : R) (q0 q1 : vec) :
  get_column [c0 :: q0; c1 :: q1] 0 = Ok (c0, c1).
Proof.
  unfold get_column, getitem2. cbn [length].
  rewrite norm_index_first, bind_Ok by lia.
  cbn [nth length]. rewrite norm_index_first, !bind_Ok by lia.
  rewrite norm_index_one, bind_Ok by lia.
  cbn [nth length]. now rewrite norm_index_first, !bind_Ok by lia.
Qed.

Lemma nth_last (l : vec) : nth (length l - 1) l 0 = last l 0.
Proof.
  induction l as [|h [|h' l'] IH]; try reflexivity.
  change (last (h :: h' :: l') 0) with (last (h' :: l') 0). rewrite <- IH.
  simpl. now rewrite Nat.sub_0_r.
Qed.

Lemma getitem2_value_at_b (c0 : R) (q0 r1 : vec) :
  getitem2 [c0 :: q0; r1] 0 (-1) = Ok (value_at_b [c0 :: q0; r1]).
Proof.
  unfold getitem2, value_at_b. cbn [length].
  rewrite norm_index_first, bind_Ok by lia. cbn [nth].
  rewrite norm_index_last, bind_Ok by (simpl; lia).
  unfold entry. cbn [nth]. apply f_equal. apply (nth_last (c0 :: q0)).
Qed.

Section ShootingFacts.

Variable ode : ode_solver.
Variable f : R -> R * R -> R * R.
Variables u_a u_b : R.
Variable tolerance : R.
Variable x : vec.

Lemma integrate_outputs_rows (outputs : list R) :
  forall (integrator : ode_state ode) (p0 p1 q0 q1 : vec) (i : nat),
    length p0 = S i -> length p1 = S i ->
    length q0 = length outputs -> length q1 = length outputs ->
    integrate_outputs ode integrator [p0 ++ q0; p1 ++ q1] i outputs
    = (t <- trajectory ode integrator outputs ;;
       Ok [p0 ++ map fst t; p1 ++ map snd t]).
Proof.
  induction outputs as [|x_output rest IH]; intros integrator p0 p1 q0 q1 i H0 H1 L0 L1.
  - destruct q0; [|discriminate]. destruct q1; [|discriminate]. reflexivity.
  - destruct q0 as [|h0 q0]; [discriminate|].
    destruct q1 as [|h1 q1]; [discriminate|].
    cbn [integrate_outputs trajectory].
    destruct (negb (successful ode (integrate ode integrator x_output)));
      [reflexivity|].
    rewrite set_column_rows, bind_Ok by assumption.
    rewrite IH.
    + destruct (trajectory ode (integrate ode integrator x_output) rest) as [t|e];
        [|reflexivity].
      rewrite !bind_Ok. cbn [map]. now rewrite <- !app_assoc.
    + rewrite length_app; simpl; lia.
    + rewrite length_app; simpl; lia.
    + simpl in L0; lia.
    + simpl in L1; lia.
Qed.

Lemma shot_table_shape (s : R) (table : matrix) :
  (1 <= length x)%nat ->
  shot_table ode f x u_a s = Ok table -> table_shape x table.
Proof.
  intros Hx H. unfold shot_table in H.
  destruct (trajectory _ _ _) as [t|e] eqn:Et; [|discriminate].
  rewrite bind_Ok in H. inversion H; subst; clear H.
  assert (Lt : length t = length (slice_1 x)).
  { clear - Et. revert t Et. generalize (set_initial_value ode f (u_a, s) 0).
    induction (slice_1 x) as [|xo rest IH]; intros st t Et; simpl in Et.
    - now inversion Et.
    - destruct (negb _); [discriminate|].
      destruct (trajectory _ _ rest) as [t'|e] eqn:Et'; [|discriminate].
      rewrite bind_Ok in Et. inversion Et; subst. simpl. f_equal.
      exact (IH _ _ Et'). }
  exists (u_a :: map fst t), (s :: map snd t).
  split; [reflexivity|]. simpl. rewrite !length_map, Lt.
  unfold slice_1. destruct x; simpl in *; lia.
Qed.

(** The body of the loop, with the inner loop summarised by the table
    it leaves in [u]. *)
Lemma shooting_iteration_table (n : nat) (s : shoot_state) :
  (1 <= length x)%nat -> table_shape x (u s) ->
  shooting_iteration ode f u_a u_b tolerance x n s
  = (table <- shot_table ode f x u_a (u_prime_rhs s) ;;
     let ub := value_at_b table in
     convergence <- setitem (convergence s) (Z.of_nat n) (Rabs (ub - u_b)) ;;
     if Rlt_dec (Rabs (ub - u_b)) tolerance then
       Ok ({| u_prime_rhs := u_prime_rhs s; du_prime := du_prime s;
              success := true; u := table; convergence := convergence |}, true)
     else if Rlt_dec ub u_b then
       Ok ({| u_prime_rhs := u_prime_rhs s + du_prime s; du_prime := du_prime s;
              success := success s; u := table; convergence := convergence |}, false)
     else
       Ok ({| u_prime_rhs := u_prime_rhs s - du_prime s;
              du_prime := du_prime s * (1 / 2);
              success := success s; u := table; convergence := convergence |}, false)).
Proof.
  intros Hx (r0 & r1 & Eu & L0 & L1).
  unfold shooting_iteration. rewrite Eu.
  destruct r0 as [|c0 q0]; [simpl in L0; lia|].
  destruct r1 as [|c1 q1]; [simpl in L1; lia|].
  rewrite setitem2_first_row, bind_Ok, setitem2_second_row, bind_Ok.
  rewrite get_column_first, bind_Ok. cbv zeta.
  change (u_a :: q0) with ([u_a] ++ q0).
  change (u_prime_rhs s :: q1) with ([u_prime_rhs s] ++ q1).
  assert (Lq0 : length q0 = length (slice_1 x))
    by (unfold slice_1; destruct x; simpl in *; lia).
  assert (Lq1 : length q1 = length (slice_1 x))
    by (unfold slice_1; destruct x; simpl in *; lia).
  rewrite integrate_outputs_rows by (reflexivity || assumption).
  unfold shot_table.
  destruct (trajectory _ _ _) as [t|e]; [|reflexivity].
  rewrite !bind_Ok. cbn [app].
  now rewrite getitem2_value_at_b, bind_Ok.
Qed.

End ShootingFacts.

Lemma norm_index_zero_inv (len : nat) (r : nat) : norm_index len 0 = Ok r -> r = 0%nat.
Proof.
  unfold norm_index. cbn [Z.leb Z.compare Z.ltb andb].
  destruct (0 <? Z.of_nat len)%Z; [|discriminate].
  intros H. now inversion H.
Qed.

Lemma norm_index_last_inv (len : nat) (c : nat) :
  norm_index len (-1) = Ok c -> c = (len - 1)%nat.
Proof.
  unfold norm_index. cbn [Z.leb Z.compare Z.ltb andb].
  destruct (- Z.of_nat len <=? -1)%Z; [|discriminate].
  intros H. inversion H. lia.
Qed.

Lemma getitem2_last_inv (A : matrix) (v : R) :
  getitem2 A 0 (-1) = Ok v -> v = value_at_b A.
Proof.
  unfold getitem2. intros H.
  apply bind_inv in H as (r & Hr & H).
  apply bind_inv in H as (c & Hc & H).
  apply norm_index_zero_inv in Hr. subst r.
  apply norm_index_last_inv in Hc. subst c.
  inversion H. unfold entry, value_at_b. apply nth_last.
Qed.

Lemma setitem_inv (v : vec) (i : Z) (x : R) (v' : vec) :
  setitem v i x = Ok v' ->
  exists k, norm_index (length v) i = Ok k /\ v' = update v k x.
Proof.
  unfold setitem. intros H. apply bind_inv in H as (k & Hk & H).
  exists k. split; [assumption | now inversion H].
Qed.

Section ShootingIteration.

Variable ode : ode_solver.
Variable f : R -> R * R -> R * R.
Variables u_a u_b : R.
Variable tolerance : R.
Variable x : vec.

Let iteration := shooting_iteration ode f u_a u_b tolerance x.

(** What one pass of the loop body does to the loop variables. *)
Lemma shooting_iteration_inv (n : nat) (s s' : shoot_state) (brk : bool) :
  iteration n s = Ok (s', brk) ->
  let ub := value_at_b (u s') in
  (n < length (convergence s))%nat /\
  convergence s' = update (convergence s) n (Rabs (ub - u_b)) /\
  ((brk = true /\ Rabs (ub - u_b) < tolerance /\ success s' = true /\
    u_prime_rhs s' = u_prime_rhs s /\ du_prime s' = du_prime s)
   \/
   (brk = false /\ ~ Rabs (ub - u_b) < tolerance /\ success s' = success s /\
    ((ub < u_b /\
      u_prime_rhs s' = u_prime_rhs s + du_prime s /\ du_prime s' = du_prime s)
     \/
     (~ ub < u_b /\
      u_prime_rhs s' = u_prime_rhs s - du_prime s /\
      du_prime s' = du_prime s * (1 / 2))))).
Proof.
  unfold iteration, shooting_iteration. intros H.
  apply bind_inv in H as (u1 & _ & H).
  apply bind_inv in H as (u2 & _ & H).
  apply bind_inv in H as (y0 & _ & H). cbv zeta in H.
  apply bind_inv in H as (u3 & _ & H).
  apply bind_inv in H as (ub & Hub & H).
  apply bind_inv in H as (conv & Hconv & H).
  apply getitem2_last_inv in Hub. subst ub.
  apply setitem_inv in Hconv as (k & Hk & Hconv).
  pose proof (norm_index_range _ _ _ Hk) as Hrange.
  rewrite norm_index_nonneg in Hk by
    (destruct (Nat.lt_ge_cases n (length (convergence s))) as [L|L]; [exact L|];
     exfalso; unfold norm_index in Hk;
     replace ((0 <=? Z.of_nat n) && (Z.of_nat n <? Z.of_nat (length (convergence s))))%Z
       with false in Hk by (symmetry; apply andb_false_iff; right; apply Z.ltb_ge; lia);
     replace (Z.of_nat n <? 0)%Z with false in Hk by (symmetry; apply Z.ltb_ge; lia);
     discriminate).
  inversion Hk; subst k; clear Hk.
  destruct (Rlt_dec (Rabs (value_at_b u3 - u_b)) tolerance) as [Ht|Ht].
  - inversion H; subst; clear H. cbn [u convergence success u_prime_rhs du_prime].
    split; [assumption|]. split; [reflexivity|]. left. tauto.
  - destruct (Rlt_dec (value_at_b u3) u_b) as [Hlt|Hge];
      inversion H; subst; clear H; cbn [u convergence success u_prime_rhs du_prime];
      (split; [assumption|]); (split; [reflexivity|]); right; tauto.
Qed.

End ShootingIteration.

Section ShootingLoop.

Variable ode : ode_solver.
Variable f : R -> R * R -> R * R.
Variables u_a u_b : R.
Variable tolerance : R.
Variable x : vec.

Let iteration := shooting_iteration ode f u_a u_b tolerance x.
Let loop := shooting_loop ode f u_a u_b tolerance x.

Lemma shooting_loop_step (n : nat) (rest : list nat) (s s' : shoot_state) :
  iteration n s = Ok (s', false) -> loop (n :: rest) s = loop rest s'.
Proof.
  intros H. unfold loop. cbn [shooting_loop]. fold iteration. now rewrite H.
Qed.

Lemma shooting_loop_break (n : nat) (rest : list nat) (s s' : shoot_state) :
  iteration n s = Ok (s', true) -> loop (n :: rest) s = Ok s'.
Proof.
  intros H. unfold loop. cbn [shooting_loop]. fold iteration. now rewrite H.
Qed.

Lemma shooting_loop_raise (n : nat) (rest : list nat) (s : shoot_state) (e : exn) :
  iteration n s = Raise e -> loop (n :: rest) s = Raise e.
Proof.
  intros H. unfold loop. cbn [shooting_loop]. fold iteration. now rewrite H.
Qed.

Variable init : shoot_state.

Let run := iterates ode f u_a u_b tolerance x init.

(** After passes that did not stop the loop, the loop goes on from the
    state they reached. *)
Lemma iterates_loop (trace : list R) (j : nat) (s : shoot_state) :
  run trace j s ->
  forall m, loop (seq 0 (length trace + m)) init = loop (seq (length trace) m) s.
Proof.
  induction 1 as [|trace j s s' Hrun IH Hit Hlt|trace j s s' Hrun IH Hit Hge]; intros m.
  - reflexivity.
  - rewrite length_app. cbn [length]. rewrite <- Nat.add_assoc.
    rewrite (IH (1 + m)%nat). cbn [Nat.add seq].
    rewrite (shooting_loop_step _ _ _ _ Hit). f_equal. f_equal. lia.
  - rewrite length_app. cbn [length]. rewrite <- Nat.add_assoc.
    rewrite (IH (1 + m)%nat). cbn [Nat.add seq].
    rewrite (shooting_loop_step _ _ _ _ Hit). f_equal. f_equal. lia.
Qed.

(** The trace is what the loop has written into [convergence]; the flag
    is untouched, and every recorded residual missed the tolerance. *)
Lemma iterates_convergence (trace : list R) (j : nat) (s : shoot_state) :
  run trace j s ->
  success s = success init /\
  (length trace <= length (convergence init))%nat /\
  length (convergence s) = length (convergence init) /\
  (forall k, (k < length trace)%nat -> nth k (convergence s) 0 = nth k trace 0) /\
  (forall k, (length trace <= k)%nat ->
     nth k (convergence s) 0 = nth k (convergence init) 0) /\
  Forall (fun r => ~ r < tolerance) trace /\
  (j <= length trace)%nat.
Proof.
  induction 1 as [|trace j s s' Hrun IH Hit Hlt|trace j s s' Hrun IH Hit Hge].
  - cbn [length]. repeat split; auto; try lia; try (intros k Hk; lia).
  - destruct IH as (I1 & I2 & I3 & I4 & I5 & I6 & I7).
    apply shooting_iteration_inv in Hit. cbv zeta in Hit.
    destruct Hit as (Hn & Hc & [(Hb & _)|(_ & Ht & Hs & _)]); [discriminate|].
    rewrite length_app. cbn [length].
    split; [congruence|]. split; [lia|].
    split; [rewrite Hc, update_length; exact I3|].
    split; [|split; [|split]].
    + intros k Hk. rewrite Hc, nth_update.
      replace (length trace <? length (convergence s))%nat with true
        by (symmetry; apply Nat.ltb_lt; lia).
      rewrite andb_true_r.
      destruct (Nat.eqb_spec k (length trace)) as [->|E].
      * now rewrite nth_middle.
      * rewrite app_nth1 by lia. apply I4. lia.
    + intros k Hk. rewrite Hc, nth_update.
      destruct (Nat.eqb_spec k (length trace)); [lia|]. cbn [andb].
      apply I5. lia.
    + apply Forall_app. split; [assumption|]. constructor; [assumption | constructor].
    + lia.
  - destruct IH as (I1 & I2 & I3 & I4 & I5 & I6 & I7).
    apply shooting_iteration_inv in Hit. cbv zeta in Hit.
    destruct Hit as (Hn & Hc & [(Hb & _)|(_ & Ht & Hs & _)]); [discriminate|].
    rewrite length_app. cbn [length].
    split; [congruence|]. split; [lia|].
    split; [rewrite Hc, update_length; exact I3|].
    split; [|split; [|split]].
    + intros k Hk. rewrite Hc, nth_update.
      replace (length trace <? length (convergence s))%nat with true
        by (symmetry; apply Nat.ltb_lt; lia).
      rewrite andb_true_r.
      destruct (Nat.eqb_spec k (length trace)) as [->|E].
      * now rewrite nth_middle.
      * rewrite app_nth1 by lia. apply I4. lia.
    + intros k Hk. rewrite Hc, nth_update.
      destruct (Nat.eqb_spec k (length trace)); [lia|]. cbn [andb].
      apply I5. lia.
    + apply Forall_app. split; [assumption|]. constructor; [assumption | constructor].
    + lia.
Qed.

(** The step is halved by each pass that reached or exceeded the target
    and by no other. *)
Lemma iterates_du_prime (trace : list R) (j : nat) (s : shoot_state) :
  run trace j s -> du_prime s = du_prime init / 2 ^ j.
Proof.
  induction 1 as [|trace j s s' Hrun IH Hit Hlt|trace j s s' Hrun IH Hit Hge].
  - simpl. field.
  - apply shooting_iteration_inv in Hit. cbv zeta in Hit.
    destruct Hit as (_ & _ & [(Hb & _)|(_ & _ & _ & [(_ & _ & Hd)|(Hge & _)])]);
      [discriminate | congruence | contradiction].
  - apply shooting_iteration_inv in Hit. cbv zeta in Hit.
    destruct Hit as (_ & _ & [(Hb & _)|(_ & _ & _ & [(Hlt & _)|(_ & _ & Hd)])]);
      [discriminate | contradiction |].
    rewrite Hd, IH. simpl. field. apply pow_nonzero. lra.
Qed.

End ShootingLoop.

Lemma linspace_length (a b : R) (N : Z) (x : vec) :
  Np.linspace a b N = Ok x -> (0 <= N)%Z /\ length x = Z.to_nat N.
Proof.
  unfold Np.linspace. destruct (Z.ltb_spec N 0) as [H|H]; [discriminate|].
  intros E. inversion E; subst; clear E. split; [assumption|].
  destruct (Nat.ltb_spec 1 (Z.to_nat N)) as [H1|H1].
  - rewrite length_app. cbn [length].
    destruct (Z.to_nat N) as [|k]; [lia|].
    fold (tabulate (S k) (fun i => INR i * ((b - a) / INR (S k - 1)) + a)).
    rewrite removelast_tabulate, tabulate_length. lia.
  - now rewrite length_map, length_seq.
Qed.

Lemma linspace_negative (a b : R) (N : Z) :
  (N < 0)%Z -> Np.linspace a b N = Raise ValueError.
Proof.
  intros H. unfold Np.linspace.
  now replace (N <? 0)%Z with true by (symmetry; apply Z.ltb_lt; lia).
Qed.

Lemma empty2_two_rows (junk : nat -> nat -> R) (N : Z) :
  (0 <= N)%Z ->
  Np.empty2 junk 2 N
  = Ok [map (junk 0%nat) (seq 0 (Z.to_nat N)); map (junk 1%nat) (seq 0 (Z.to_nat N))].
Proof.
  intros H. unfold Np.empty2.
  replace ((2 <? 0) || (N <? 0))%Z with false; [reflexivity|].
  symmetry. apply orb_false_iff. split; apply Z.ltb_ge; lia.
Qed.

Lemma zeros_of_nat (m : nat) : Np.zeros (Z.of_nat m) = Ok (repeat 0 m).
Proof.
  unfold Np.zeros. replace (Z.of_nat m <? 0)%Z with false.
  - now rewrite Nat2Z.id.
  - symmetry. apply Z.ltb_ge. lia.
Qed.

Section ShootingRun.

Variable ode : ode_solver.
Variable junk : nat -> nat -> R.
Variable f : R -> R * R -> R * R.
Variables a b : R.
Variable N : Z.
Variables u_a u_b : R.
Variable tolerance : R.
Variable max_iterations : nat.
Variables u_prime_rhs0 du_prime0 : R.

Variable x : vec.
Hypothesis Hx : Np.linspace a b N = Ok x.

Let init := entry_state junk N max_iterations u_prime_rhs0 du_prime0.

Lemma shooting_run_loop :
  shooting_run ode junk f a b N u_a u_b tolerance (Z.of_nat max_iterations)
               u_prime_rhs0 du_prime0
  = shooting_loop ode f u_a u_b tolerance x (seq 0 max_iterations) init.
Proof.
  unfold shooting_run. rewrite Hx, bind_Ok.
  destruct (linspace_length _ _ _ _ Hx) as [HN _].
  rewrite empty2_two_rows, bind_Ok by assumption.
  now rewrite zeros_of_nat, bind_Ok, Nat2Z.id.
Qed.

Lemma entry_state_shape : table_shape x (u init).
Proof.
  destruct (linspace_length _ _ _ _ Hx) as [_ HL].
  eexists _, _. split; [reflexivity|].
  now rewrite !length_map, !length_seq.
Qed.

End ShootingRun.

Section ShootingFailure.

Variable ode : ode_solver.
Variable f : R -> R * R -> R * R.
Variables u_a u_b : R.
Variable tolerance : R.
Variable x : vec.
Hypothesis Hx : (1 <= length x)%nat.

Let iteration := shooting_iteration ode f u_a u_b tolerance x.
Let loop := shooting_loop ode f u_a u_b tolerance x.

Lemma trajectory_fails (outputs : list R) :
  forall integrator,
    fails_within ode integrator outputs ->
    trajectory ode integrator outputs = Raise (Exception "Integration Failed!").
Proof.
  induction outputs as [|xo rest IH]; intros integrator H; [contradiction|].
  cbn [trajectory]. cbn [fails_within] in H.
  destruct H as [H|[H1 H2]].
  - now rewrite H.
  - rewrite H1. cbn [negb]. now rewrite (IH _ H2).
Qed.

Lemma trajectory_raise_inv (outputs : list R) :
  forall integrator e,
    trajectory ode integrator outputs = Raise e ->
    e = Exception "Integration Failed!" /\ fails_within ode integrator outputs.
Proof.
  induction outputs as [|xo rest IH]; intros integrator e H; [discriminate|].
  cbn [trajectory] in H. cbn [fails_within].
  destruct (successful ode (integrate ode integrator xo)) eqn:Es; cbn [negb] in H.
  - destruct (trajectory ode (integrate ode integrator xo) rest) as [t|e'] eqn:Et;
      [discriminate|].
    cbn [bind] in H. inversion H; subst e'.
    destruct (IH _ _ Et) as [He Hf]. split; [assumption|]. right. now split.
  - inversion H. split; [reflexivity|]. now left.
Qed.

Lemma shooting_iteration_fails (n : nat) (s : shoot_state) :
  table_shape x (u s) ->
  fails_within ode (set_initial_value ode f (u_a, u_prime_rhs s) 0) (slice_1 x) ->
  iteration n s = Raise (Exception "Integration Failed!").
Proof.
  intros Hs Hf. unfold iteration.
  rewrite shooting_iteration_table by assumption.
  unfold shot_table. now rewrite (trajectory_fails _ _ Hf).
Qed.

Lemma shooting_iteration_shape (n : nat) (s s' : shoot_state) (brk : bool) :
  table_shape x (u s) -> iteration n s = Ok (s', brk) -> table_shape x (u s').
Proof.
  intros Hs H. unfold iteration in H.
  rewrite shooting_iteration_table in H by assumption.
  apply bind_inv in H as (table & Ht & H). cbv zeta in H.
  apply bind_inv in H as (conv & _ & H).
  apply shot_table_shape in Ht; [|assumption].
  destruct (Rlt_dec _ _); [|destruct (Rlt_dec _ _)]; inversion H; subst; exact Ht.
Qed.

(** With [u] in shape and the loop index inside [convergence], a pass
    raises only when the integrator fails. *)
Lemma shooting_iteration_raise_inv (n : nat) (s : shoot_state) (e : exn) :
  table_shape x (u s) -> (n < length (convergence s))%nat ->
  iteration n s = Raise e -> e = Exception "Integration Failed!".
Proof.
  intros Hs Hn H. unfold iteration in H.
  rewrite shooting_iteration_table in H by assumption.
  unfold shot_table in H.
  destruct (trajectory _ _ _) as [t|e'] eqn:Et.
  - exfalso. rewrite !bind_Ok in H. cbv zeta in H.
    unfold setitem in H. rewrite norm_index_nonneg, !bind_Ok in H by assumption.
    destruct (Rlt_dec _ _); [|destruct (Rlt_dec _ _)]; discriminate.
  - cbn [bind] in H. inversion H; subst e'.
    now apply trajectory_raise_inv in Et.
Qed.

Lemma shooting_loop_raise_inv (indices : list nat) :
  forall s e,
    table_shape x (u s) ->
    (forall n, In n indices -> (n < length (convergence s))%nat) ->
    loop indices s = Raise e -> e = Exception "Integration Failed!".
Proof.
  induction indices as [|n rest IH]; intros s e Hs Hin H; [discriminate|].
  unfold loop in H. cbn [shooting_loop] in H. fold iteration in H.
  destruct (iteration n s) as [[s' brk]|e'] eqn:Ei.
  - rewrite bind_Ok in H. cbn [fst snd] in H.
    destruct brk; [discriminate|].
    apply (IH s' e); [eapply shooting_iteration_shape; eassumption | | exact H].
    intros k Hk. unfold iteration in Ei. apply shooting_iteration_inv in Ei.
    destruct Ei as (_ & Hc & _). rewrite Hc, update_length.
    apply Hin. now right.
  - cbn [bind] in H. inversion H; subst e'.
    apply (shooting_iteration_raise_inv n s); [assumption | | assumption].
    apply Hin. now left.
Qed.

(** The flag tells whether the last pass met the tolerance. *)
Lemma shooting_loop_success (indices : list nat) :
  forall s s',
    indices <> [] -> success s = false -> loop indices s = Ok s' ->
    (success s' = true <-> Rabs (value_at_b (u s') - u_b) < tolerance).
Proof.
  induction indices as [|n rest IH]; intros s s' Hne Hs H; [contradiction|].
  unfold loop in H. cbn [shooting_loop] in H. fold iteration in H.
  destruct (iteration n s) as [[s1 brk]|e] eqn:Ei; [|discriminate].
  rewrite bind_Ok in H. cbn [fst snd] in H.
  unfold iteration in Ei. apply shooting_iteration_inv in Ei. cbv zeta in Ei.
  destruct Ei as (_ & _ & [(Hb & Ht & Hs1 & _)|(Hb & Ht & Hs1 & _)]); subst brk.
  - inversion H; subst s1. tauto.
  - destruct rest as [|n' rest'].
    + cbn [shooting_loop] in H. inversion H; subst s1.
      rewrite Hs1, Hs. split; [discriminate | contradiction].
    + apply (IH s1 s'); [discriminate | congruence | exact H].
Qed.

Variable init : shoot_state.
Hypothesis Hinit : table_shape x (u init).

Lemma iterates_shape (trace : list R) (j : nat) (s : shoot_state) :
  iterates ode f u_a u_b tolerance x init trace j s -> table_shape x (u s).
Proof.
  induction 1 as [|trace j s s' Hrun IH Hit Hlt|trace j s s' Hrun IH Hit Hge].
  - exact Hinit.
  - exact (shooting_iteration_shape _ _ _ _ IH Hit).
  - exact (shooting_iteration_shape _ _ _ _ IH Hit).
Qed.

End ShootingFailure.

(** * A worked run of the shooting loop *)

Lemma demo_linspace : Np.linspace 0 2 2 = Ok demo_grid.
Proof. reflexivity. Qed.

Lemma demo_shot (s : R) :
  shot_table euler_ode pendulum demo_grid 0 s = Ok (demo_table s).
Proof. reflexivity. Qed.

Lemma demo_value (s : R) : value_at_b (demo_table s) = 2 * s.
Proof. unfold value_at_b, demo_table, pendulum. cbn [nth last fst snd]. ring. Qed.

Lemma demo_table_shape (s : R) : table_shape demo_grid (demo_table s).
Proof. exists [0; 0 + (2 - 0) * fst (pendulum 0 (0, s))],
         [s; s + (2 - 0) * snd (pendulum 0 (0, s))]. repeat split. Qed.

Section DemoPass.

Variables u_b tolerance : R.
Variable n : nat.
Variable st : shoot_state.
Hypothesis Hshape : table_shape demo_grid (u st).
Hypothesis Hn : (n < length (convergence st))%nat.

Let residual := Rabs (value_at_b (demo_table (u_prime_rhs st)) - u_b).

Lemma demo_pass :
  shooting_iteration euler_ode pendulum 0 u_b tolerance demo_grid n st
  = if Rlt_dec residual tolerance then
      Ok ({| u_prime_rhs := u_prime_rhs st; du_prime := du_prime st;
             success := true; u := demo_table (u_prime_rhs st);
             convergence := update (convergence st) n residual |}, true)
    else if Rlt_dec (value_at_b (demo_table (u_prime_rhs st))) u_b then
      Ok ({| u_prime_rhs := u_prime_rhs st + du_prime st; du_prime := du_prime st;
             success := success st; u := demo_table (u_prime_rhs st);
             convergence := update (convergence st) n residual |}, false)
    else
      Ok ({| u_prime_rhs := u_prime_rhs st - du_prime st;
             du_prime := du_prime st * (1 / 2);
             success := success st; u := demo_table (u_prime_rhs st);
             convergence := update (convergence st) n residual |}, false).
Proof.
  rewrite shooting_iteration_table by (assumption || (simpl; lia)).
  rewrite demo_shot, bind_Ok. cbv zeta.
  unfold setitem. rewrite norm_index_nonneg, !bind_Ok by assumption.
  reflexivity.
Qed.

Lemma demo_pass_break :
  Rabs (2 * u_prime_rhs st - u_b) < tolerance ->
  shooting_iteration euler_ode pendulum 0 u_b tolerance demo_grid n st
  = Ok ({| u_prime_rhs := u_prime_rhs st; du_prime := du_prime st;
           success := true; u := demo_table (u_prime_rhs st);
           convergence := update (convergence st) n residual |}, true).
Proof.
  intros H. rewrite demo_pass. unfold residual. rewrite demo_value.
  destruct (Rlt_dec _ _); [reflexivity | contradiction].
Qed.

Lemma demo_pass_below :
  ~ Rabs (2 * u_prime_rhs st - u_b) < tolerance -> 2 * u_prime_rhs st < u_b ->
  shooting_iteration euler_ode pendulum 0 u_b tolerance demo_grid n st
  = Ok ({| u_prime_rhs := u_prime_rhs st + du_prime st; du_prime := du_prime st;
           success := success st; u := demo_table (u_prime_rhs st);
           convergence := update (convergence st) n residual |}, false).
Proof.
  intros H1 H2. rewrite demo_pass. unfold residual. rewrite demo_value.
  destruct (Rlt_dec _ _); [contradiction|].
  destruct (Rlt_dec _ _); [reflexivity | contradiction].
Qed.

Lemma demo_pass_above :
  ~ Rabs (2 * u_prime_rhs st - u_b) < tolerance -> ~ 2 * u_prime_rhs st < u_b ->
  shooting_iteration euler_ode pendulum 0 u_b tolerance demo_grid n st
  = Ok ({| u_prime_rhs := u_prime_rhs st - du_prime st;
           du_prime := du_prime st * (1 / 2);
           success := success st; u := demo_table (u_prime_rhs st);
           convergence := update (convergence st) n residual |}, false).
Proof.
  intros H1 H2. rewrite demo_pass. unfold residual. rewrite demo_value.
  destruct (Rlt_dec _ _); [contradiction|].
  destruct (Rlt_dec _ _); [contradiction | reflexivity].
Qed.

End DemoPass.

Lemma TOLERANCE_pos : 0 < TOLERANCE.
Proof.
  unfold TOLERANCE. apply Rdiv_lt_0_compat; [lra|]. apply pow_lt. lra.
Qed.

Lemma TOLERANCE_small : TOLERANCE < 1 / 4.
Proof.
  unfold TOLERANCE.
  apply (Rmult_lt_reg_r (10 ^ 8)); [apply pow_lt; lra|].
  unfold Rdiv. rewrite Rmult_assoc, Rinv_l by (apply pow_nonzero; lra).
  simpl. lra.
Qed.

Ltac demo_arith :=
  cbn [u_prime_rhs du_prime entry_state demo_state1 demo_state2];
  unfold Rabs; try destruct (Rcase_abs _);
  pose proof TOLERANCE_small; pose proof TOLERANCE_pos; lra.

Section DemoRun.

Variable junk : nat -> nat -> R.
Variable m : nat.
Hypothesis Hm : (2 <= m)%nat.

Let init := entry_state junk 2 m 1 (1 / 2).
Let pass := shooting_iteration euler_ode pendulum 0 (3 / 2) TOLERANCE demo_grid.

Lemma demo_first_pass : pass 0%nat init = Ok (demo_state1 m, false).
Proof.
  unfold pass. rewrite demo_pass_above.
  - reflexivity.
  - apply (entry_state_shape junk 0 2 2 m 1 (1 / 2) demo_grid demo_linspace).
  - unfold init. cbn [entry_state convergence]. rewrite repeat_length. lia.
  - unfold init. demo_arith.
  - unfold init. demo_arith.
Qed.

Lemma demo_second_pass : pass 1%nat (demo_state1 m) = Ok (demo_state2 m, false).
Proof.
  unfold pass. rewrite demo_pass_below.
  - reflexivity.
  - apply demo_table_shape.
  - cbn [demo_state1 convergence]. rewrite update_length, repeat_length. lia.
  - demo_arith.
  - demo_arith.
Qed.

Lemma demo_iterates_one :
  iterates euler_ode pendulum 0 (3 / 2) TOLERANCE demo_grid init
           [Rabs (value_at_b (demo_table 1) - 3 / 2)] 1 (demo_state1 m).
Proof.
  apply (iterates_above euler_ode pendulum 0 (3 / 2) TOLERANCE demo_grid init
           [] 0 init (demo_state1 m)).
  - apply iterates_start.
  - exact demo_first_pass.
  - cbn [demo_state1 u]. rewrite demo_value. lra.
Qed.

Lemma demo_iterates_two :
  iterates euler_ode pendulum 0 (3 / 2) TOLERANCE demo_grid init
           [Rabs (value_at_b (demo_table 1) - 3 / 2);
            Rabs (value_at_b (demo_table (1 - 1 / 2)) - 3 / 2)] 1 (demo_state2 m).
Proof.
  apply (iterates_below euler_ode pendulum 0 (3 / 2) TOLERANCE demo_grid init
           [Rabs (value_at_b (demo_table 1) - 3 / 2)] 1
           (demo_state1 m) (demo_state2 m)).
  - exact demo_iterates_one.
  - exact demo_second_pass.
  - cbn [demo_state2 u]. rewrite demo_value. lra.
Qed.

End DemoRun.

Lemma demo_converged_pass (junk : nat -> nat -> R) (ds : R) :
  shooting_cell euler_ode junk pendulum 0 2 2 0 (3 / 2) (3 / 4) ds
  = Ok {| u_prime_rhs := 3 / 4; du_prime := ds; success := true;
          u := demo_table (3 / 4);
          convergence :=
            update (repeat 0 100) 0 (Rabs (value_at_b (demo_table (3 / 4)) - 3 / 2)) |}.
Proof.
  unfold shooting_cell. change MAX_ITERATIONS with (Z.of_nat 100).
  rewrite (shooting_run_loop _ _ _ _ _ _ _ _ _ _ _ _ demo_grid demo_linspace).
  change (seq 0 100) with (0%nat :: seq 1 99).
  apply shooting_loop_break.
  rewrite demo_pass_break.
  - reflexivity.
  - apply (entry_state_shape junk 0 2 2 100 (3 / 4) ds demo_grid demo_linspace).
  - cbn [entry_state convergence]. rewrite repeat_length. lia.
  - cbn [entry_state u_prime_rhs].
    replace (2 * (3 / 4) - 3 / 2) with 0 by field.
    rewrite Rabs_R0. apply TOLERANCE_pos.
Qed.

(** * The claims on the shooting loop *)



(** C5.  Let the loop be entered on a grid of [N >= 1] points.  If, after
    any number of passes that did not stop the loop and before the
    iteration budget is spent, the integrator reports a failure at one of
    the requested locations, the run raises the exception
    ["Integration Failed!"] and returns nothing.  If instead all the
    passes of the budget go by without meeting the tolerance, the run
    returns the loop variables, with the flag still false and the
    convergence trace holding the residual of every pass. *)
Theorem shooting_failure_modes
        (ode : ode_solver) (junk : nat -> nat -> R) (f : R -> R * R -> R * R)
        (a b : R) (N : Z) (u_a u_b tolerance : R) (max_iterations : nat)
        (u_prime_rhs0 du_prime0 : R) (x : vec) :
  (1 <= N)%Z -> Np.linspace a b N = Ok x ->
  let init := entry_state junk N max_iterations u_prime_rhs0 du_prime0 in
  let run :=
    shooting_run ode junk f a b N u_a u_b tolerance (Z.of_nat max_iterations)
                 u_prime_rhs0 du_prime0 in
  (forall trace j s,
      iterates ode f u_a u_b tolerance x init trace j s ->
      (length trace < max_iterations)%nat ->
      fails_within ode (set_initial_value ode f (u_a, u_prime_rhs s) 0) (slice_1 x) ->
      run = Raise (Exception "Integration Failed!")) /\
  (forall trace j s,
      iterates ode f u_a u_b tolerance x init trace j s ->
      length trace = max_iterations ->
      run = Ok s /\ success s = false /\ convergence s = trace /\
      Forall (fun r => ~ r < tolerance) trace).
Proof.
  intros HN Hx init run.
  destruct (linspace_length _ _ _ _ Hx) as [_ HL].
  assert (Hlen : (1 <= length x)%nat) by lia.
  assert (Hshape : table_shape x (u init))
    by (apply (entry_state_shape junk a b N max_iterations u_prime_rhs0 du_prime0 x Hx)).
  assert (Hrun : run = shooting_loop ode f u_a u_b tolerance x (seq 0 max_iterations) init)
    by (apply shooting_run_loop; exact Hx).
  split.
  - intros trace j s Hit Hlt Hfail. rewrite Hrun.
    replace max_iterations with (length trace + S (max_iterations - S (length trace)))%nat
      at 1 by lia.
    rewrite (iterates_loop _ _ _ _ _ _ _ _ _ _ Hit). cbn [seq].
    apply shooting_loop_raise. apply shooting_iteration_fails; try assumption.
    exact (iterates_shape _ _ _ _ _ _ Hlen _ Hshape _ _ _ Hit).
  - intros trace j s Hit Hmax. rewrite Hrun.
    replace max_iterations with (length trace + 0)%nat at 1 by lia.
    rewrite (iterates_loop _ _ _ _ _ _ _ _ _ _ Hit). cbn [seq shooting_loop].
    destruct (iterates_convergence _ _ _ _ _ _ _ _ _ _ Hit)
      as (I1 & I2 & I3 & I4 & I5 & I6 & I7).
    split; [reflexivity|]. split; [exact I1|]. split; [|exact I6].
    apply (nth_ext _ _ 0 0).
    + rewrite I3. unfold init. cbn [entry_state convergence].
      rewrite repeat_length. lia.
    + intros k Hk. apply I4. rewrite I3 in Hk. unfold init in Hk.
      cbn [entry_state convergence] in Hk. rewrite repeat_length in Hk. lia.
Qed.

Lemma shooting_failure_modes_witness :
  shooting_run failing_ode (fun _ _ => 0) pendulum 0 2 2 0 (3 / 2) TOLERANCE
               (Z.of_nat 2) 1 (1 / 2)
  = Raise (Exception "Integration Failed!") /\
  shooting_run euler_ode (fun _ _ => 0) pendulum 0 2 2 0 (3 / 2) TOLERANCE
               (Z.of_nat 2) 1 (1 / 2)
  = Ok (demo_state2 2) /\
  success (demo_state2 2) = false /\
  convergence (demo_state2 2)
  = [Rabs (value_at_b (demo_table 1) - 3 / 2);
     Rabs (value_at_b (demo_table (1 - 1 / 2)) - 3 / 2)].
Proof.
  split.
  - destruct (shooting_failure_modes failing_ode (fun _ _ => 0) pendulum 0 2 2 0 (3 / 2)
                TOLERANCE 2 1 (1 / 2) demo_grid ltac:(lia) demo_linspace) as [H _].
    apply (H [] 0%nat _ (iterates_start _ _ _ _ _ _ _)).
    + simpl. lia.
    + left. reflexivity.
  - destruct (shooting_failure_modes euler_ode (fun _ _ => 0) pendulum 0 2 2 0 (3 / 2)
                TOLERANCE 2 1 (1 / 2) demo_grid ltac:(lia) demo_linspace) as [_ H].
    destruct (H _ _ _ (demo_iterates_two (fun _ _ => 0) 2 ltac:(lia)) eq_refl)
      as (H1 & H2 & H3 & _).
    repeat split; assumption.
Defined.

(** ** Rounding in the update of the guess

    In binary64, from the guess [1.0] and the step [0.25], with every pass
    reaching or exceeding the target: after 53 passes the guess is [0.5] and
    the step is still positive, yet the next pass leaves the guess where it
    is, the subtraction being rounded back to [0.5]. *)
Lemma overshoot_run64_stalls :
  fst (overshoot_run64 53 (1%float, 0.25%float)) = 0.5%float /\
  PrimFloat.ltb 0%float (snd (overshoot_run64 53 (1%float, 0.25%float))) = true /\
  fst (guess_update64 false (overshoot_run64 53 (1%float, 0.25%float)))
  = fst (overshoot_run64 53 (1%float, 0.25%float)).
Proof. repeat split; vm_compute; reflexivity. Qed.




(** * Determinism *)

Lemma assign_slice_1_m1_middle (u0 ul : R) (l l' w : vec) :
  length l = length l' ->
  assign_slice_1_m1 (u0 :: l ++ [ul]) w = assign_slice_1_m1 (u0 :: l' ++ [ul]) w.
Proof.
  intros Hl. unfold assign_slice_1_m1.
  rewrite !removelast_last, !last_last, Hl.
  destruct (l ++ [ul]) eqn:E; [now apply app_last_not_nil in E|].
  destruct (l' ++ [ul]) eqn:E'; [now apply app_last_not_nil in E'|].
  reflexivity.
Qed.

Lemma dirichlet_cell_junk (solve : matrix -> vec -> result vec)
      (junk1 junk2 : nat -> R) (f : R -> R) (a b u_a u_b : R) (N : Z) :
  dirichlet_cell solve junk1 f a b u_a u_b N
  = dirichlet_cell solve junk2 f a b u_a u_b N.
Proof.
  unfold dirichlet_cell.
  destruct (dirichlet_system f a b u_a u_b N) as [[[x_bc A] rhs]|e] eqn:Es;
    [|reflexivity].
  destruct (dirichlet_system_Ok_inv _ _ _ _ _ _ _ Es) as [HN _].
  rewrite !bind_Ok.
  replace N with (Z.of_nat (Z.to_nat N)) by lia.
  rewrite !solution_buffer_ok.
  destruct (solve A rhs) as [w|e]; [|reflexivity].
  rewrite !bind_Ok.
  rewrite (assign_slice_1_m1_middle u_a u_b (map junk1 (seq 1 (Z.to_nat N)))
             (map junk2 (seq 1 (Z.to_nat N)))); [reflexivity|].
  now rewrite !length_map.
Qed.

Lemma mixed_cell_junk (solve : matrix -> vec -> result vec)
      (junk1 junk2 : nat -> R) (f : R -> R) (a b u_a u_x_b : R) (N : Z) :
  mixed_cell solve junk1 f a b u_a u_x_b N
  = mixed_cell solve junk2 f a b u_a u_x_b N.
Proof.
  unfold mixed_cell.
  destruct (mixed_system f a b u_a u_x_b N) as [[[x_bc A] rhs]|e]; [|reflexivity].
  rewrite !bind_Ok. unfold Np.empty.
  destruct (N + 2 <? 0)%Z; reflexivity.
Qed.

Section ShootingJunk.

Variable ode : ode_solver.
Variables junk1 junk2 : nat -> nat -> R.
Variable f : R -> R * R -> R * R.
Variables a b : R.
Variable N : Z.
Variables u_a u_b : R.
Variable tolerance : R.
Variables u_prime_rhs0 du_prime0 : R.
Variable x : vec.
Hypothesis Hx : Np.linspace a b N = Ok x.

Lemma shooting_iteration_junk (m n : nat) :
  shooting_iteration ode f u_a u_b tolerance x n
                     (entry_state junk1 N m u_prime_rhs0 du_prime0)
  = shooting_iteration ode f u_a u_b tolerance x n
                       (entry_state junk2 N m u_prime_rhs0 du_prime0).
Proof.
  destruct (linspace_length _ _ _ _ Hx) as [HN HL].
  destruct (Z.to_nat N) as [|k] eqn:Ek.
  - unfold shooting_iteration, entry_state. cbn [u]. rewrite Ek. cbn [seq map].
    unfold setitem2. cbn [length]. rewrite norm_index_first, !bind_Ok by lia.
    cbn [nth length]. now rewrite norm_index_empty.
  - rewrite !shooting_iteration_table; try lia.
    + reflexivity.
    + apply (entry_state_shape junk2 a b N m u_prime_rhs0 du_prime0 x Hx).
    + apply (entry_state_shape junk1 a b N m u_prime_rhs0 du_prime0 x Hx).
Qed.

Lemma shooting_run_junk (m : nat) :
  (1 <= m)%nat ->
  shooting_run ode junk1 f a b N u_a u_b tolerance (Z.of_nat m) u_prime_rhs0 du_prime0
  = shooting_run ode junk2 f a b N u_a u_b tolerance (Z.of_nat m) u_prime_rhs0 du_prime0.
Proof.
  intros Hm.
  rewrite !(shooting_run_loop _ _ _ _ _ _ _ _ _ _ _ _ x Hx).
  destruct m as [|m']; [lia|].
  cbn [seq shooting_loop]. now rewrite shooting_iteration_junk.
Qed.

End ShootingJunk.

Lemma shooting_run_budget_junk
      (ode : ode_solver) (junk1 junk2 : nat -> nat -> R) (f : R -> R * R -> R * R)
      (a b : R) (N : Z) (u_a u_b tolerance : R) (max_iterations : Z)
      (u_prime_rhs0 du_prime0 : R) :
  max_iterations <> 0%Z ->
  shooting_run ode junk1 f a b N u_a u_b tolerance max_iterations u_prime_rhs0 du_prime0
  = shooting_run ode junk2 f a b N u_a u_b tolerance max_iterations u_prime_rhs0 du_prime0.
Proof.
  intros Hm.
  destruct (Np.linspace a b N) as [x|e] eqn:Ex.
  - destruct (Z.lt_ge_cases max_iterations 0) as [Hneg|Hpos].
    + unfold shooting_run. rewrite Ex, !bind_Ok.
      destruct (linspace_length _ _ _ _ Ex) as [HN _].
      rewrite !empty2_two_rows, !bind_Ok by assumption.
      unfold Np.zeros.
      now replace (max_iterations <? 0)%Z with true by (symmetry; apply Z.ltb_lt; lia).
    + replace max_iterations with (Z.of_nat (Z.to_nat max_iterations)) by lia.
      apply (shooting_run_junk ode junk1 junk2 f a b N u_a u_b tolerance
               u_prime_rhs0 du_prime0 x Ex).
      lia.
  - unfold shooting_run. now rewrite Ex.
Qed.

Lemma shooting_run_zero_budget
      (ode : ode_solver) (junk : nat -> nat -> R) (f : R -> R * R -> R * R)
      (a b : R) (N : Z) (u_a u_b tolerance u_prime_rhs0 du_prime0 : R) (x : vec) :
  Np.linspace a b N = Ok x ->
  shooting_run ode junk f a b N u_a u_b tolerance 0 u_prime_rhs0 du_prime0
  = Ok (entry_state junk N 0 u_prime_rhs0 du_prime0).
Proof.
  intros Hx. change 0%Z with (Z.of_nat 0).
  now rewrite (shooting_run_loop _ _ _ _ _ _ _ _ _ _ _ _ x Hx).
Qed.

(** C8 as stated fails for the shooting loop: with a budget of zero passes
    the loop body never runs, and the array [u] the run ends with is the
    one [numpy.empty] made, whose content is not fixed by the inputs.  Two
    runs on the same input, over memory that held zeros and over memory
    that held ones, end with different arrays. *)
Lemma shooting_zero_budget_junk :
  shooting_run euler_ode (fun _ _ => 0) pendulum 0 2 2 0 (3 / 2) TOLERANCE 0 1 (1 / 2)
  = Ok (entry_state (fun _ _ => 0) 2 0 1 (1 / 2)) /\
  shooting_run euler_ode (fun _ _ => 1) pendulum 0 2 2 0 (3 / 2) TOLERANCE 0 1 (1 / 2)
  = Ok (entry_state (fun _ _ => 1) 2 0 1 (1 / 2)) /\
  u (entry_state (fun _ _ => 0) 2 0 1 (1 / 2)) = [[0; 0]; [0; 0]] /\
  u (entry_state (fun _ _ => 1) 2 0 1 (1 / 2)) = [[1; 1]; [1; 1]] /\
  shooting_run euler_ode (fun _ _ => 0) pendulum 0 2 2 0 (3 / 2) TOLERANCE 0 1 (1 / 2)
  <> shooting_run euler_ode (fun _ _ => 1) pendulum 0 2 2 0 (3 / 2) TOLERANCE 0 1 (1 / 2).
Proof.
  pose proof (shooting_run_zero_budget euler_ode (fun _ _ => 0) pendulum 0 2 2 0 (3 / 2)
                TOLERANCE 1 (1 / 2) demo_grid demo_linspace) as H0.
  pose proof (shooting_run_zero_budget euler_ode (fun _ _ => 1) pendulum 0 2 2 0 (3 / 2)
                TOLERANCE 1 (1 / 2) demo_grid demo_linspace) as H1.
  split; [exact H0|]. split; [exact H1|].
  split; [reflexivity|]. split; [reflexivity|].
  rewrite H0, H1. intros E.
  assert (E' : u (entry_state (fun _ _ => 0) 2 0 1 (1 / 2))
               = u (entry_state (fun _ _ => 1) 2 0 1 (1 / 2)))
    by (inversion E; reflexivity).
  cbn in E'. inversion E'. lra.
Qed.

(** C8, amended.  The only part of a run that is not fixed by the inputs is
    the content of the arrays made by [numpy.empty]; the external linear
    solve and the integrator are functions of their arguments.  Whatever
    these arrays hold, the Dirichlet cell and the mixed cell return the same
    result, be it a value or an exception, for every input, and so does the
    shooting loop for every input, tolerance, initial guess and step and
    every budget of passes other than zero; with a budget of zero it
    returns the loop variables as they were initialised, the array of
    [numpy.empty] among them. *)
Theorem solvers_deterministic :
  (forall solve junk1 junk2 f a b u_a u_b N,
      dirichlet_cell solve junk1 f a b u_a u_b N
      = dirichlet_cell solve junk2 f a b u_a u_b N) /\
  (forall solve junk1 junk2 f a b u_a u_x_b N,
      mixed_cell solve junk1 f a b u_a u_x_b N
      = mixed_cell solve junk2 f a b u_a u_x_b N) /\
  (forall ode junk1 junk2 f a b N u_a u_b tolerance max_iterations
          u_prime_rhs0 du_prime0,
      max_iterations <> 0%Z ->
      shooting_run ode junk1 f a b N u_a u_b tolerance max_iterations
        u_prime_rhs0 du_prime0
      = shooting_run ode junk2 f a b N u_a u_b tolerance max_iterations
          u_prime_rhs0 du_prime0) /\
  (forall ode junk1 junk2 f a b N u_a u_b u_prime_rhs0 du_prime0,
      shooting_cell ode junk1 f a b N u_a u_b u_prime_rhs0 du_prime0
      = shooting_cell ode junk2 f a b N u_a u_b u_prime_rhs0 du_prime0) /\
  (forall ode junk f a b N u_a u_b tolerance u_prime_rhs0 du_prime0 x,
      Np.linspace a b N = Ok x ->
      shooting_run ode junk f a b N u_a u_b tolerance 0 u_prime_rhs0 du_prime0
      = Ok (entry_state junk N 0 u_prime_rhs0 du_prime0)).
Proof.
  split; [exact dirichlet_cell_junk|]. split; [exact mixed_cell_junk|].
  split; [exact shooting_run_budget_junk|].
  split; [|exact shooting_run_zero_budget].
  intros ode junk1 junk2 f a b N u_a u_b s0 ds0.
  unfold shooting_cell. apply shooting_run_budget_junk.
  unfold MAX_ITERATIONS. lia.
Qed.

Lemma solvers_deterministic_witness :
  shooting_run euler_ode (fun _ _ => 0) pendulum 0 2 2 0 (3 / 2) TOLERANCE 2 1 (1 / 2)
  = shooting_run euler_ode (fun _ _ => 1) pendulum 0 2 2 0 (3 / 2) TOLERANCE 2 1 (1 / 2) /\
  shooting_run euler_ode (fun _ _ => 1) pendulum 0 2 2 0 (3 / 2) TOLERANCE 0 1 (1 / 2)
  = Ok (entry_state (fun _ _ => 1) 2 0 1 (1 / 2)).
Proof.
  destruct solvers_deterministic as (_ & _ & H3 & _ & H5).
  split.
  - apply (H3 euler_ode (fun _ _ => 0) (fun _ _ => 1) pendulum 0 2 2%Z 0 (3 / 2)
             TOLERANCE 2%Z 1 (1 / 2)).
    lia.
  - exact (H5 euler_ode (fun _ _ => 1) pendulum 0 2 2%Z 0 (3 / 2) TOLERANCE 1 (1 / 2)
             demo_grid demo_linspace).
Defined.

(** * Invalid inputs *)

Lemma linspace_nonneg_Ok (a b : R) (N : Z) :
  (0 <= N)%Z -> exists x, Np.linspace a b N = Ok x.
Proof.
  intros H. unfold Np.linspace.
  replace (N <? 0)%Z with false by (symmetry; apply Z.ltb_ge; lia).
  eexists. reflexivity.
Qed.

(** C6 as stated fails: started with the steps [0] and [-1/2], which are
    not positive, the shooting cell raises nothing; it integrates, meets
    the tolerance in its first pass and returns with the flag set. *)
Lemma shooting_accepts_nonpositive_step :
  (exists s,
      shooting_cell euler_ode (fun _ _ => 0) pendulum 0 2 2 0 (3 / 2) (3 / 4) 0 = Ok s /\
      success s = true /\ du_prime s = 0) /\
  (exists s,
      shooting_cell euler_ode (fun _ _ => 0) pendulum 0 2 2 0 (3 / 2) (3 / 4) (-1 / 2)
      = Ok s /\
      success s = true /\ du_prime s = -1 / 2) /\
  ~ rejects_nonpositive_step.
Proof.
  split; [|split].
  - eexists. split; [apply demo_converged_pass|]. split; reflexivity.
  - eexists. split; [apply demo_converged_pass|]. split; reflexivity.
  - intros H.
    destruct (H euler_ode (fun _ _ => 0) pendulum 0 2 2%Z 0 (3 / 2) (3 / 4) 0
                ltac:(lra)) as [e He].
    rewrite demo_converged_pass in He. discriminate.
Qed.

Lemma shooting_cell_no_point (ode : ode_solver) (junk : nat -> nat -> R)
      (f : R -> R * R -> R * R) (a b u_a u_b s0 ds0 : R) :
  shooting_cell ode junk f a b 0 u_a u_b s0 ds0 = Raise IndexError.
Proof. reflexivity. Qed.

Lemma shooting_cell_negative (ode : ode_solver) (junk : nat -> nat -> R)
      (f : R -> R * R -> R * R) (a b : R) (N : Z) (u_a u_b s0 ds0 : R) :
  (N < 0)%Z -> shooting_cell ode junk f a b N u_a u_b s0 ds0 = Raise ValueError.
Proof.
  intros H. unfold shooting_cell, shooting_run. now rewrite linspace_negative.
Qed.

Lemma shooting_cell_raise_inv (ode : ode_solver) (junk : nat -> nat -> R)
      (f : R -> R * R -> R * R) (a b : R) (N : Z) (u_a u_b s0 ds0 : R) (e : exn) :
  (1 <= N)%Z ->
  shooting_cell ode junk f a b N u_a u_b s0 ds0 = Raise e ->
  e = Exception "Integration Failed!".
Proof.
  intros HN H. unfold shooting_cell in H.
  destruct (linspace_nonneg_Ok a b N ltac:(lia)) as [x Hx].
  destruct (linspace_length _ _ _ _ Hx) as [_ HL].
  change MAX_ITERATIONS with (Z.of_nat 100) in H.
  rewrite (shooting_run_loop _ _ _ _ _ _ _ _ _ _ _ _ x Hx) in H.
  apply shooting_loop_raise_inv in H; [exact H | lia | |].
  - apply (entry_state_shape junk a b N 100 s0 ds0 x Hx).
  - intros n Hn. apply in_seq in Hn.
    cbn [entry_state convergence]. rewrite repeat_length. lia.
Qed.

(** C6 (amended).  No cell checks its inputs.  A resolution [N <= 0] makes
    each cell raise an ordinary exception before any integration step and
    before the linear solve: the Dirichlet cell raises [IndexError] for
    [N = 0], at the first adjustment of the right-hand side, after the empty
    matrix was assembled, [ZeroDivisionError] for [N = -1] and [ValueError]
    for [N <= -2]; the shooting cell raises [IndexError] for [N = 0] and
    [ValueError] for [N < 0].  The initial step is never looked at: for
    [N >= 1] and every step, positive or not, the only exception the
    shooting cell can raise is the integrator's ["Integration Failed!"]. *)
Theorem no_input_validation :
  (forall solve junk f a b u_a u_b N,
      (N <= 0)%Z ->
      dirichlet_cell solve junk f a b u_a u_b N
      = Raise (if (N =? 0)%Z then IndexError
               else if (N =? -1)%Z then ZeroDivisionError
               else ValueError)) /\
  (forall ode junk f a b N u_a u_b u_prime_rhs0 du_prime0,
      (N <= 0)%Z ->
      shooting_cell ode junk f a b N u_a u_b u_prime_rhs0 du_prime0
      = Raise (if (N =? 0)%Z then IndexError else ValueError)) /\
  (forall ode junk f a b N u_a u_b u_prime_rhs0 du_prime0 e,
      (1 <= N)%Z ->
      shooting_cell ode junk f a b N u_a u_b u_prime_rhs0 du_prime0 = Raise e ->
      e = Exception "Integration Failed!").
Proof.
  split; [|split].
  - intros solve junk f a b u_a u_b N HN. unfold dirichlet_cell.
    destruct (Z.eqb_spec N 0) as [->|H0].
    { now rewrite dirichlet_system_no_interior. }
    destruct (Z.eqb_spec N (-1)) as [->|H1].
    { now rewrite dirichlet_system_minus_one. }
    now rewrite dirichlet_system_negative by lia.
  - intros ode junk f a b N u_a u_b s0 ds0 HN.
    destruct (Z.eqb_spec N 0) as [->|H0].
    + apply shooting_cell_no_point.
    + apply shooting_cell_negative. lia.
  - intros ode junk f a b N u_a u_b s0 ds0 e HN H.
    exact (shooting_cell_raise_inv ode junk f a b N u_a u_b s0 ds0 e HN H).
Qed.

Lemma no_input_validation_witness :
  dirichlet_cell ideal_solve (fun _ => 0) exp 0 1 0 3 0 = Raise IndexError /\
  shooting_cell euler_ode (fun _ _ => 0) pendulum 0 2 (-3) 0 (3 / 2) 1 (1 / 2)
  = Raise ValueError /\
  shooting_cell failing_ode (fun _ _ => 0) pendulum 0 2 2 0 (3 / 2) 1 (-1 / 2)
  = Raise (Exception "Integration Failed!").
Proof.
  destruct no_input_validation as (H1 & H2 & H3).
  split; [|split].
  - exact (H1 ideal_solve (fun _ => 0) exp 0 1 0 3 0%Z ltac:(lia)).
  - exact (H2 euler_ode (fun _ _ => 0) pendulum 0 2 (-3)%Z 0 (3 / 2) 1 (1 / 2) ltac:(lia)).
  - destruct (shooting_cell failing_ode (fun _ _ => 0) pendulum 0 2 2 0 (3 / 2) 1 (-1 / 2))
      as [s|e] eqn:E.
    + exfalso. revert E. unfold shooting_cell.
      change MAX_ITERATIONS with (Z.of_nat 100).
      rewrite (shooting_run_loop _ _ _ _ _ _ _ _ _ _ _ _ demo_grid demo_linspace).
      change (seq 0 100) with (0%nat :: seq 1 99).
      rewrite (shooting_loop_raise failing_ode pendulum 0 (3 / 2) TOLERANCE demo_grid
                 0 (seq 1 99) _ (Exception "Integration Failed!")); [discriminate|].
      apply shooting_iteration_fails.
      * simpl. lia.
      * apply (entry_state_shape (fun _ _ => 0) 0 2 2 100 1 (-1 / 2) demo_grid demo_linspace).
      * left. reflexivity.
    + f_equal.
      exact (H3 failing_ode (fun _ _ => 0) pendulum 0 2 2%Z 0 (3 / 2) 1 (-1 / 2) e
               ltac:(lia) E).
Defined.

(** * Second-order convergence on [u_xx = e^x] *)


Lemma peval_padd p q h : peval (padd p q) h = peval p h + peval q h.
Proof.
  revert q; induction p as [|c p IH]; intros [|d q]; simpl; try lra.
  rewrite IH. ring.
Qed.

Lemma derivable_pt_lim_peval l t : derivable_pt_lim (peval l) t (peval (pderiv l) t).
Proof.
  induction l as [|c r IH].
  - simpl. apply (derivable_pt_lim_const 0).
  - cbn [pderiv]. rewrite peval_padd. cbn [peval].
    replace (peval r t + (0 + t * peval (pderiv r) t))
      with (0 + (1 * peval r t + t * peval (pderiv r) t)) by ring.
    apply (derivable_pt_lim_plus (fct_cte c) (id * peval r)%F).
    + apply derivable_pt_lim_const.
    + apply derivable_pt_lim_mult; [apply derivable_pt_lim_id | exact IH].
Qed.

Lemma derivable_pt_lim_exp_opp t : derivable_pt_lim (fun h => exp (- h)) t (- exp (- t)).
Proof.
  replace (- exp (- t)) with (exp (- t) * -1) by ring.
  apply (derivable_pt_lim_comp (fun h => - h) exp).
  - apply (derivable_pt_lim_opp id t 1). apply derivable_pt_lim_id.
  - apply derivable_pt_lim_exp.
Qed.

Lemma derivable_pt_lim_expoly A B l t :
  derivable_pt_lim (expoly A B l) t (expoly A (- B) (pderiv l) t).
Proof.
  unfold expoly.
  replace (A * exp t + - B * exp (- t) + peval (pderiv l) t)
    with (A * exp t + B * - exp (- t) + peval (pderiv l) t) by ring.
  apply (derivable_pt_lim_plus (fun h => A * exp h + B * exp (- h)) (peval l)).
  - apply (derivable_pt_lim_plus (mult_real_fct A exp) (mult_real_fct B (fun h => exp (- h)))).
    + apply derivable_pt_lim_scal, derivable_pt_lim_exp.
    + apply derivable_pt_lim_scal, derivable_pt_lim_exp_opp.
  - apply derivable_pt_lim_peval.
Qed.

Lemma nonneg_by_derivative (F G : R -> R) (b : R) :
  (forall t, derivable_pt_lim F t (G t)) -> F 0 = 0 ->
  (forall t, 0 <= t <= b -> 0 <= G t) ->
  forall t, 0 <= t <= b -> 0 <= F t.
Proof.
  intros HD H0 HG t [Ht0 Htb].
  destruct (Req_dec t 0) as [->|Hne]; [lra|].
  destruct (MVT_cor2 F G 0 t) as (c & Hc & Hc0); [lra | intros; apply HD |].
  assert (0 <= G c) by (apply HG; lra).
  rewrite H0 in Hc. nra.
Qed.

Lemma expoly_nonneg_step (A B : R) (l : list R) (b : R) :
  expoly A B l 0 = 0 ->
  (forall t, 0 <= t <= b -> 0 <= expoly A (- B) (pderiv l) t) ->
  forall t, 0 <= t <= b -> 0 <= expoly A B l t.
Proof.
  intros H0 HG. apply (nonneg_by_derivative _ (expoly A (- B) (pderiv l))); try assumption.
  intros t. apply derivable_pt_lim_expoly.
Qed.

Lemma expoly_nonneg_chain (A B : R) (l : list R) (A' B' : R) (l' : list R) (b : R) :
  expoly A B l 0 = 0 ->
  (forall t, expoly A (- B) (pderiv l) t = expoly A' B' l' t) ->
  (forall t, 0 <= t <= b -> 0 <= expoly A' B' l' t) ->
  forall t, 0 <= t <= b -> 0 <= expoly A B l t.
Proof.
  intros H0 HE HG. apply expoly_nonneg_step; [assumption|].
  intros t Ht. rewrite HE. now apply HG.
Qed.

Ltac expoly_chain H :=
  refine (expoly_nonneg_chain _ _ _ _ _ _ _ _ _ H);
  [ unfold expoly; cbn [peval]; rewrite Ropp_0, exp_0; field
  | intros; unfold expoly; cbn [pderiv padd peval]; field ].

Lemma cosh2_lower (h : R) : 0 <= h <= 1 -> 0 <= expoly 1 1 [-2; 0; -1; 0; -1/12] h.
Proof.
  revert h.
  assert (L4 : forall t, 0 <= t <= 1 -> 0 <= expoly 1 1 [-2] t).
  { intros t _. unfold expoly. cbn [peval].
    pose proof (exp_ineq1_le t). pose proof (exp_ineq1_le (- t)). lra. }
  assert (L3 : forall t, 0 <= t <= 1 -> 0 <= expoly 1 (-1) [0; -2] t)
    by expoly_chain L4.
  assert (L2 : forall t, 0 <= t <= 1 -> 0 <= expoly 1 1 [-2; 0; -1] t)
    by expoly_chain L3.
  assert (L1 : forall t, 0 <= t <= 1 -> 0 <= expoly 1 (-1) [0; -2; 0; -1/3] t)
    by expoly_chain L2.
  expoly_chain L1.
Qed.

Lemma cosh2_upper (h : R) :
  0 <= h <= 1 -> 0 <= expoly (-1) (-1) [2; 0; 1; 0; 1/12; 0; 1/180] h.
Proof.
  revert h.
  assert (U6 : forall t, 0 <= t <= 1 -> 0 <= expoly (-1) (-1) [4] t).
  { intros t [Ht0 Ht1]. unfold expoly. cbn [peval].
    assert (exp t <= 3).
    { destruct (Req_dec t 1) as [->|]; [apply exp_le_3|].
      apply Rlt_le, Rlt_le_trans with (exp 1); [apply exp_increasing; lra | apply exp_le_3]. }
    assert (exp (- t) <= 1).
    { destruct (Req_dec t 0) as [->|]; [rewrite Ropp_0, exp_0; lra|].
      rewrite <- exp_0. apply Rlt_le, exp_increasing. lra. }
    lra. }
  assert (U5 : forall t, 0 <= t <= 1 -> 0 <= expoly (-1) 1 [0; 4] t)
    by expoly_chain U6.
  assert (U4 : forall t, 0 <= t <= 1 -> 0 <= expoly (-1) (-1) [2; 0; 2] t)
    by expoly_chain U5.
  assert (U3 : forall t, 0 <= t <= 1 -> 0 <= expoly (-1) 1 [0; 2; 0; 2/3] t)
    by expoly_chain U4.
  assert (U2 : forall t, 0 <= t <= 1 -> 0 <= expoly (-1) (-1) [2; 0; 1; 0; 1/6] t)
    by expoly_chain U3.
  assert (U1 : forall t, 0 <= t <= 1 -> 0 <= expoly (-1) 1 [0; 2; 0; 1/3; 0; 1/30] t)
    by expoly_chain U2.
  expoly_chain U1.
Qed.



Lemma kappa_bounds (h : R) :
  0 < h <= 1 -> 1 + h ^ 2 / 12 <= kappa h <= 1 + h ^ 2 / 12 + h ^ 4 / 180.
Proof.
  intros [Hh0 Hh1].
  pose proof (cosh2_lower h ltac:(lra)) as HL.
  pose proof (cosh2_upper h ltac:(lra)) as HU.
  unfold expoly in HL, HU. cbn [peval] in HL, HU.
  unfold kappa.
  assert (Hh2 : 0 < h ^ 2) by (apply pow_lt; lra).
  split.
  - apply (Rmult_le_reg_r (h ^ 2)); [assumption|].
    unfold Rdiv at 2. rewrite Rmult_assoc, Rinv_l, Rmult_1_r by lra. nra.
  - apply (Rmult_le_reg_r (h ^ 2)); [assumption|].
    unfold Rdiv at 1. rewrite Rmult_assoc, Rinv_l, Rmult_1_r by lra. nra.
Qed.

Lemma spacing_unit (n : nat) : spacing 0 1 n = / INR (n + 1).
Proof. unfold spacing. field. apply INR_succ_neq_0. Qed.

Lemma spacing_unit_range (n : nat) : (1 <= n)%nat -> 0 < spacing 0 1 n <= 1 / 2.
Proof.
  intros Hn. rewrite spacing_unit.
  assert (H2 : 2 <= INR (n + 1)).
  { replace 2 with (INR 2) by (simpl; lra). apply le_INR. lia. }
  split.
  - apply Rinv_0_lt_compat. lra.
  - apply (Rmult_le_reg_r (INR (n + 1))); [lra|].
    rewrite Rinv_l by lra. lra.
Qed.

Lemma kappa_pos (h : R) : 0 < h <= 1 -> 1 <= kappa h.
Proof.
  intros Hh. destruct (kappa_bounds h Hh) as [H _].
  assert (0 <= h ^ 2) by (apply pow2_ge_0). lra.
Qed.

Section ExpProblem.

Variable solve : matrix -> vec -> result vec.
Hypothesis solve_exact : exact_solver solve.
Variable junk : nat -> R.
Variable n : nat.
Hypothesis Hn : (1 <= n)%nat.

Let h := spacing 0 1 n.

Lemma exp_cell_closed_form :
  dirichlet_cell solve junk exp 0 1 0 3 (Z.of_nat n)
  = Ok (tabulate (n + 2) (grid_point 0 1 n), tabulate (n + 2) (discrete_solution n)).
Proof.
  pose proof (spacing_unit_range n Hn) as Hh. fold h in Hh.
  pose proof (kappa_pos h ltac:(lra)) as Hk.
  apply dirichlet_cell_exact; try assumption; try lra.
  - unfold discrete_solution. cbv zeta. fold h. rewrite grid_point_first, exp_0. field. lra.
  - unfold discrete_solution. cbv zeta. fold h. rewrite grid_point_last. field. lra.
  - intros i Hi. unfold discrete_solution. cbv zeta. fold h.
    rewrite (grid_point_S 0 1 n (S i)). fold h.
    replace (grid_point 0 1 n i) with (grid_point 0 1 n (S i) - h)
      by (rewrite grid_point_S; fold h; ring).
    set (x := grid_point 0 1 n (S i)).
    replace (exp (x - h)) with (exp x * exp (- h))
      by (rewrite <- exp_plus; f_equal; ring).
    rewrite exp_plus.
    assert (Hq : exp h + exp (- h) - 2 = kappa h * h ^ 2).
    { unfold kappa. field. lra. }
    assert (Hh2 : h ^ 2 <> 0) by (apply pow_nonzero; lra).
    assert (Hk0 : kappa h <> 0) by lra.
    transitivity (exp x * (exp h + exp (- h) - 2) / (kappa h * h ^ 2)).
    + field. split; lra.
    + rewrite Hq. field. split; lra.
Qed.

Lemma exp_cell_error (i : nat) :
  discrete_solution n i - u_true (grid_point 0 1 n i)
  = (/ kappa h - 1) * bump (grid_point 0 1 n i).
Proof.
  pose proof (spacing_unit_range n Hn) as Hh. fold h in Hh.
  pose proof (kappa_pos h ltac:(lra)) as Hk.
  unfold discrete_solution, u_true, bump. cbv zeta. fold h. field. lra.
Qed.

End ExpProblem.



Lemma maxl_nonneg (l : list R) : 0 <= maxl l.
Proof.
  induction l as [|x l IH]; simpl; [lra|].
  apply Rle_trans with (maxl l); [exact IH | apply Rmax_r].
Qed.

Lemma maxl_ge (l : list R) (x : R) : In x l -> x <= maxl l.
Proof.
  induction l as [|y l IH]; intros H; [contradiction|].
  simpl. destruct H as [->|H].
  - apply Rmax_l.
  - apply Rle_trans with (maxl l); [now apply IH | apply Rmax_r].
Qed.

Lemma maxl_le (l : list R) (B : R) :
  0 <= B -> (forall x, In x l -> x <= B) -> maxl l <= B.
Proof.
  intros HB. induction l as [|y l IH]; intros H; simpl; [exact HB|].
  apply Rmax_lub; [apply H; now left | apply IH; intros x Hx; apply H; now right].
Qed.

Lemma maxl_tabulate_ge (m : nat) (F : nat -> R) (i : nat) :
  (i < m)%nat -> F i <= maxl (tabulate m F).
Proof.
  intros Hi. apply maxl_ge. unfold tabulate. apply in_map_iff.
  exists i. split; [reflexivity | apply in_seq; lia].
Qed.

Lemma maxl_tabulate_le (m : nat) (F : nat -> R) (B : R) :
  0 <= B -> (forall i, (i < m)%nat -> F i <= B) -> maxl (tabulate m F) <= B.
Proof.
  intros HB H. apply maxl_le; [exact HB|].
  intros x Hx. unfold tabulate in Hx. apply in_map_iff in Hx as (i & <- & Hi).
  apply in_seq in Hi. apply H. lia.
Qed.

Lemma grid_error_tabulate (m : nat) (X V : nat -> R) :
  grid_error (tabulate m X) (tabulate m V)
  = maxl (tabulate m (fun i => Rabs (V i - u_true (X i)))).
Proof.
  unfold grid_error, tabulate. f_equal.
  generalize 0%nat. induction m as [|m IH]; intros s; [reflexivity|].
  simpl. f_equal. apply IH.
Qed.

Lemma cfac_range (h : R) : 0 < h <= 1 -> 0 <= cfac h <= kappa h - 1.
Proof.
  intros Hh. pose proof (kappa_pos h Hh) as Hk. unfold cfac.
  assert (Hi : 0 < / kappa h) by (apply Rinv_0_lt_compat; lra).
  assert (E : kappa h * / kappa h = 1) by (apply Rinv_r; lra).
  split; nra.
Qed.

Lemma exp_max_error (solve : matrix -> vec -> result vec) (junk : nat -> R) (n : nat) :
  exact_solver solve -> (1 <= n)%nat ->
  dirichlet_max_error solve junk n
  = maxl (tabulate (n + 2)
            (fun i => cfac (spacing 0 1 n) * Rabs (bump (grid_point 0 1 n i)))).
Proof.
  intros Hs Hn. unfold dirichlet_max_error.
  rewrite exp_cell_closed_form by assumption.
  rewrite grid_error_tabulate. f_equal. apply tabulate_ext. intros i Hi.
  rewrite exp_cell_error by assumption.
  pose proof (spacing_unit_range n Hn) as Hh.
  destruct (cfac_range (spacing 0 1 n) ltac:(lra)) as [Hc _].
  rewrite Rabs_mult. f_equal. unfold cfac in *.
  rewrite Rabs_left1 by lra. ring.
Qed.

Lemma exp_diff_bounds (x y : R) :
  (x - y) * exp y <= exp x - exp y <= (x - y) * exp x.
Proof.
  pose proof (exp_pos x) as Hx. pose proof (exp_pos y) as Hy.
  pose proof (exp_ineq1_le (x - y)) as H1.
  pose proof (exp_ineq1_le (y - x)) as H2.
  assert (E1 : exp x = exp y * exp (x - y)) by (rewrite <- exp_plus; f_equal; ring).
  assert (E2 : exp y = exp x * exp (y - x)) by (rewrite <- exp_plus; f_equal; ring).
  split; nra.
Qed.

Lemma exp_unit_range (x : R) : 0 <= x <= 1 -> 1 <= exp x <= exp 1.
Proof.
  intros [H0 H1]. split.
  - pose proof (exp_ineq1_le x). lra.
  - destruct (Req_dec x 1) as [->|Hne]; [lra|].
    apply Rlt_le, exp_increasing. lra.
Qed.

Lemma exp_1_range : 2 <= exp 1 <= 3.
Proof. split; [pose proof (exp_ineq1_le 1); lra | apply exp_le_3]. Qed.

Lemma bump_lipschitz (x y : R) :
  0 <= x <= 1 -> 0 <= y <= 1 -> Rabs (bump x - bump y) <= Rabs (x - y).
Proof.
  assert (Hord : forall u v, 0 <= v <= 1 -> 0 <= u <= 1 -> v <= u ->
                             Rabs (bump u - bump v) <= u - v).
  { intros u v Hv Hu Hvu.
    pose proof (exp_diff_bounds u v) as [D1 D2].
    pose proof (exp_unit_range u Hu) as [U1 U2].
    pose proof (exp_unit_range v Hv) as [V1 V2].
    pose proof exp_1_range as [E1 E2].
    unfold bump. apply Rabs_le. split; nra. }
  intros Hx Hy. destruct (Rle_dec y x) as [H|H].
  - rewrite (Rabs_right (x - y)) by lra. now apply Hord.
  - rewrite (Rabs_minus_sym (bump x)), (Rabs_minus_sym x).
    rewrite (Rabs_right (y - x)) by lra. apply Hord; lra.
Qed.

Lemma bump_0 : bump 0 = 0.
Proof. unfold bump. rewrite exp_0. ring. Qed.

Lemma bump_bound (x : R) : 0 <= x <= 1 -> Rabs (bump x) <= 1.
Proof.
  intros Hx. pose proof (bump_lipschitz x 0 Hx ltac:(lra)) as H.
  rewrite bump_0, !Rminus_0_r in H. rewrite (Rabs_right x) in H by lra. lra.
Qed.

Lemma bump_half : 1 / 8 <= Rabs (bump (1 / 2)).
Proof.
  assert (E : exp 1 = exp (1 / 2) * exp (1 / 2)).
  { rewrite <- exp_plus. f_equal. field. }
  pose proof (exp_ineq1_le (1 / 2)) as H.
  unfold bump. rewrite E. rewrite Rabs_left1; nra.
Qed.

Lemma cfac_bounds (h : R) :
  0 < h <= 1 ->
  h ^ 2 / 12 * (1 - h ^ 2 / 12) <= cfac h <= h ^ 2 / 12 + h ^ 4 / 180.
Proof.
  intros Hh. destruct (kappa_bounds h Hh) as [K1 K2].
  destruct (cfac_range h Hh) as [C1 C2].
  split; [|lra].
  unfold cfac. set (a := h ^ 2 / 12) in *.
  assert (Ha : 0 <= a) by (unfold a; pose proof (pow2_ge_0 h); lra).
  assert (Hk : 0 < kappa h) by lra.
  assert (Hi : / kappa h <= / (1 + a)) by (apply Rinv_le_contravar; lra).
  assert (E : (1 + a) * / (1 + a) = 1) by (apply Rinv_r; lra).
  assert (Hp : 0 < / (1 + a)) by (apply Rinv_0_lt_compat; lra).
  nra.
Qed.

Lemma ratio_core (h c c' e e' : R) :
  0 < h <= 1 / 2 ->
  h ^ 2 / 12 * (1 - h ^ 2 / 12) <= c <= h ^ 2 / 12 + h ^ 4 / 180 ->
  h ^ 2 / 48 * (1 - h ^ 2 / 48) <= c' <= h ^ 2 / 48 + h ^ 4 / 2880 ->
  0 <= e -> 0 < e' ->
  e * c' <= c * e' ->
  c * e' <= c' * e + c * c' * (h / 2) ->
  c' <= 8 * e' ->
  (4 - 17 * h) * e' <= e <= (4 + h) * e'.
Proof.
  intros [Hh0 Hh1] [Hc1 Hc2] [Hc1' Hc2'] He He' HA HB HC.
  assert (Hh2 : 0 < h ^ 2) by (apply pow_lt; lra).
  assert (Hh2' : h ^ 2 <= 1 / 4) by nra.
  assert (Hcpos' : 0 < c') by nra.
  assert (Hcpos : 0 < c) by nra.
  split.
  - destruct (Rle_dec (4 - 17 * h) 0) as [Hneg|Hpos]; [nra|].
    assert (P2 : (4 - 17 * h) * c' <= c * (1 - 4 * h)).
    { apply Rle_trans with ((4 - 17 * h) * (h ^ 2 / 48 + h ^ 4 / 2880)); [nra|].
      apply Rle_trans with (h ^ 2 / 12 * (1 - h ^ 2 / 12) * (1 - 4 * h)); [|nra].
      replace (h ^ 4) with (h ^ 2 * h ^ 2) by ring.
      assert (0 <= h ^ 2 * (h - h ^ 2 / 3 - h ^ 2 / 15)) by nra.
      nra. }
    assert (H1 : c * (1 - 4 * h) * e' <= c' * e) by nra.
    apply (Rmult_le_reg_r c'); [assumption|]. nra.
  - assert (P1 : c <= (4 + h) * c').
    { apply Rle_trans with (h ^ 2 / 12 + h ^ 4 / 180); [lra|].
      apply Rle_trans with ((4 + h) * (h ^ 2 / 48 * (1 - h ^ 2 / 48))); [|nra].
      replace (h ^ 4) with (h ^ 2 * h ^ 2) by ring.
      assert (0 <= h ^ 2 * (h / 48 - (4 + h) * h ^ 2 / 2304 - h ^ 2 / 180)) by nra.
      nra. }
    apply (Rmult_le_reg_r c'); [assumption|]. nra.
Qed.

Lemma grid_point_unit (n i : nat) : grid_point 0 1 n i = INR i * spacing 0 1 n.
Proof. unfold grid_point, spacing. ring. Qed.

Lemma spacing_half (n : nat) : spacing 0 1 (2 * n + 1) = spacing 0 1 n / 2.
Proof.
  rewrite !spacing_unit.
  replace (2 * n + 1 + 1)%nat with (2 * (n + 1))%nat by lia.
  rewrite mult_INR. simpl (INR 2). field. apply INR_succ_neq_0.
Qed.

Lemma grid_point_range (n i : nat) :
  (i <= n + 1)%nat -> 0 <= grid_point 0 1 n i <= 1.
Proof.
  intros Hi. rewrite grid_point_unit, spacing_unit.
  assert (Hn : 0 < INR (n + 1)) by (apply lt_0_INR; lia).
  assert (Hle : INR i <= INR (n + 1)) by (apply le_INR; lia).
  assert (H0 : 0 <= INR i) by apply pos_INR.
  assert (Hinv : 0 < / INR (n + 1)) by (apply Rinv_0_lt_compat; lra).
  split; [nra|].
  apply (Rmult_le_reg_r (INR (n + 1))); [lra|].
  rewrite Rmult_assoc, Rinv_l by lra. lra.
Qed.

Lemma grid_point_even (n i : nat) :
  grid_point 0 1 (2 * n + 1) (2 * i) = grid_point 0 1 n i.
Proof.
  rewrite !grid_point_unit, spacing_half, mult_INR. simpl (INR 2). field.
Qed.

Lemma grid_point_odd (n i : nat) :
  grid_point 0 1 (2 * n + 1) (2 * i + 1)
  = grid_point 0 1 n i + spacing 0 1 n / 2.
Proof.
  rewrite !grid_point_unit, spacing_half, plus_INR, mult_INR. simpl. field.
Qed.

Lemma grid_point_middle (n : nat) : grid_point 0 1 (2 * n + 1) (n + 1) = 1 / 2.
Proof.
  rewrite grid_point_unit, spacing_half, spacing_unit. field. apply INR_succ_neq_0.
Qed.

Section Refinement.

Variable n : nat.
Hypothesis Hn : (1 <= n)%nat.

Let h := spacing 0 1 n.
Let coarse := maxl (tabulate (n + 2)
                      (fun i => cfac h * Rabs (bump (grid_point 0 1 n i)))).
Let fine := maxl (tabulate (2 * n + 1 + 2)
                    (fun i => cfac (h / 2) * Rabs (bump (grid_point 0 1 (2 * n + 1) i)))).

Lemma refinement_h : 0 < h <= 1 / 2.
Proof. apply spacing_unit_range; assumption. Qed.

Lemma coarse_le_fine : coarse * cfac (h / 2) <= cfac h * fine.
Proof.
  pose proof refinement_h as Hh.
  destruct (cfac_range h ltac:(lra)) as [Hc _].
  destruct (cfac_range (h / 2) ltac:(lra)) as [Hc' _].
  assert (Hf : 0 <= fine) by apply maxl_nonneg.
  replace (coarse * cfac (h / 2)) with (cfac (h / 2) * coarse) by ring.
  assert (Hcoarse : coarse <= maxl (tabulate (n + 2)
              (fun i => cfac h * Rabs (bump (grid_point 0 1 n i))))) by (unfold coarse; lra).
  destruct (Req_dec (cfac (h / 2)) 0) as [E|E]; [rewrite E; nra|].
  apply (Rmult_le_reg_r (/ cfac (h / 2))); [apply Rinv_0_lt_compat; lra|].
  replace (cfac (h / 2) * coarse * / cfac (h / 2)) with coarse by (field; assumption).
  unfold coarse. apply maxl_tabulate_le.
  - apply Rmult_le_pos; [nra | apply Rlt_le, Rinv_0_lt_compat; lra].
  - intros i Hi.
    assert (Hterm : cfac (h / 2) * Rabs (bump (grid_point 0 1 (2 * n + 1) (2 * i))) <= fine).
    { unfold fine. apply (maxl_tabulate_ge (2 * n + 1 + 2)
        (fun k => cfac (h / 2) * Rabs (bump (grid_point 0 1 (2 * n + 1) k)))). lia. }
    rewrite grid_point_even in Hterm.
    pose proof (Rabs_pos (bump (grid_point 0 1 n i))) as Hb.
    apply (Rmult_le_reg_r (cfac (h / 2))); [lra|].
    replace (cfac h * fine * / cfac (h / 2) * cfac (h / 2)) with (cfac h * fine)
      by (field; assumption).
    nra.
Qed.

Lemma fine_le_coarse :
  cfac h * fine <= cfac (h / 2) * coarse + cfac h * cfac (h / 2) * (h / 2).
Proof.
  pose proof refinement_h as Hh.
  destruct (cfac_range h ltac:(lra)) as [Hc _].
  destruct (cfac_range (h / 2) ltac:(lra)) as [Hc' _].
  assert (Hco : 0 <= coarse) by apply maxl_nonneg.
  destruct (Req_dec (cfac h) 0) as [E|E]; [rewrite E; nra|].
  apply (Rmult_le_reg_r (/ cfac h)); [apply Rinv_0_lt_compat; lra|].
  replace (cfac h * fine * / cfac h) with fine by (field; assumption).
  unfold fine. apply maxl_tabulate_le.
  - apply Rmult_le_pos; [|apply Rlt_le, Rinv_0_lt_compat; lra].
    apply Rplus_le_le_0_compat; [apply Rmult_le_pos; lra|].
    apply Rmult_le_pos; [apply Rmult_le_pos; lra | lra].
  - intros k Hk.
    assert (Hnear : exists i, (i < n + 2)%nat /\
              Rabs (bump (grid_point 0 1 (2 * n + 1) k))
              <= Rabs (bump (grid_point 0 1 n i)) + h / 2).
    { destruct (Nat.Even_or_Odd k) as [[i Hi]|[i Hi]]; exists i; subst k.
      - split; [lia|]. rewrite grid_point_even. lra.
      - split; [lia|].
        pose proof (bump_lipschitz (grid_point 0 1 (2 * n + 1) (2 * i + 1))
                      (grid_point 0 1 n i)
                      (grid_point_range (2 * n + 1) (2 * i + 1) ltac:(lia))
                      (grid_point_range n i ltac:(lia))) as HL.
        rewrite grid_point_odd in HL |- *. fold h in HL |- *.
        replace (grid_point 0 1 n i + h / 2 - grid_point 0 1 n i) with (h / 2) in HL by ring.
        rewrite (Rabs_right (h / 2)) in HL by lra.
        pose proof (Rabs_triang_inv (bump (grid_point 0 1 n i + h / 2))
                      (bump (grid_point 0 1 n i))). lra. }
    destruct Hnear as (i & Hi & Hle).
    assert (Hterm : cfac h * Rabs (bump (grid_point 0 1 n i)) <= coarse).
    { unfold coarse. apply (maxl_tabulate_ge (n + 2)
        (fun j => cfac h * Rabs (bump (grid_point 0 1 n j)))). exact Hi. }
    apply (Rmult_le_reg_r (cfac h)); [lra|].
    replace ((cfac (h / 2) * coarse + cfac h * cfac (h / 2) * (h / 2)) * / cfac h * cfac h)
      with (cfac (h / 2) * coarse + cfac h * cfac (h / 2) * (h / 2))
      by (field; assumption).
    assert (H1 : cfac h * Rabs (bump (grid_point 0 1 (2 * n + 1) k))
                 <= coarse + cfac h * (h / 2)) by nra.
    apply (Rmult_le_compat_l (cfac (h / 2))) in H1; [|assumption]. nra.
Qed.

Lemma fine_lower : cfac (h / 2) <= 8 * fine.
Proof.
  pose proof refinement_h as Hh.
  destruct (cfac_range (h / 2) ltac:(lra)) as [Hc' _].
  assert (Hterm : cfac (h / 2) * Rabs (bump (grid_point 0 1 (2 * n + 1) (n + 1))) <= fine).
  { unfold fine. apply (maxl_tabulate_ge (2 * n + 1 + 2)
      (fun k => cfac (h / 2) * Rabs (bump (grid_point 0 1 (2 * n + 1) k)))). lia. }
  rewrite grid_point_middle in Hterm. pose proof bump_half. nra.
Qed.

Lemma coarse_bound : coarse <= 1 / 5 * h ^ 2.
Proof.
  pose proof refinement_h as Hh.
  destruct (cfac_bounds h ltac:(lra)) as [_ Hc].
  destruct (cfac_range h ltac:(lra)) as [Hc0 _].
  assert (Hh2 : 0 <= h ^ 2) by apply pow2_ge_0.
  assert (Hh1 : h ^ 2 <= 1) by nra.
  assert (Hh4 : h ^ 4 <= h ^ 2).
  { replace (h ^ 4) with (h ^ 2 * h ^ 2) by ring.
    rewrite <- (Rmult_1_r (h ^ 2)) at 3. apply Rmult_le_compat_l; assumption. }
  unfold coarse. apply maxl_tabulate_le; [lra|].
  intros i Hi.
  pose proof (bump_bound (grid_point 0 1 n i) (grid_point_range n i ltac:(lia))) as Hb.
  apply Rle_trans with (cfac h * 1); [apply Rmult_le_compat_l; lra | lra].
Qed.

Lemma refinement_ratio :
  0 < fine /\ (4 - 17 * h) * fine <= coarse <= (4 + h) * fine.
Proof.
  pose proof refinement_h as Hh.
  pose proof (cfac_bounds h ltac:(lra)) as Hc.
  pose proof (cfac_bounds (h / 2) ltac:(lra)) as Hc'.
  replace ((h / 2) ^ 2 / 12) with (h ^ 2 / 48) in Hc' by field.
  replace ((h / 2) ^ 4 / 180) with (h ^ 4 / 2880) in Hc' by field.
  assert (Hh2 : 0 < h ^ 2) by (apply pow_lt; lra).
  assert (Hh1 : h ^ 2 <= 1) by nra.
  assert (Hcpos' : 0 < cfac (h / 2)).
  { apply Rlt_le_trans with (h ^ 2 / 48 * (1 - h ^ 2 / 48)); [|lra].
    apply Rmult_lt_0_compat; lra. }
  pose proof fine_lower as HC.
  assert (Hfine : 0 < fine) by lra.
  split; [exact Hfine|].
  apply (ratio_core h (cfac h) (cfac (h / 2)) coarse fine); try assumption.
  - apply maxl_nonneg.
  - apply coarse_le_fine.
  - apply fine_le_coarse.
Qed.

End Refinement.

Lemma spacing_small (eps : R) :
  0 < eps -> exists n0, (1 <= n0)%nat /\ forall n, (n0 <= n)%nat -> 17 * spacing 0 1 n < eps.
Proof.
  intros Heps.
  assert (Hr : 0 < 17 / eps) by (apply Rdiv_lt_0_compat; lra).
  destruct (archimed (17 / eps)) as [Hup _].
  assert (Hz : (0 < up (17 / eps))%Z) by (apply lt_IZR; lra).
  exists (Z.to_nat (up (17 / eps))). split; [lia|].
  intros n Hn. rewrite spacing_unit.
  assert (Hle : IZR (up (17 / eps)) <= INR n).
  { rewrite INR_IZR_INZ. apply IZR_le. lia. }
  assert (Hn1 : 17 / eps < INR (n + 1)) by (rewrite plus_INR; simpl; lra).
  assert (Hpos : 0 < INR (n + 1)) by lra.
  apply (Rmult_lt_reg_r (INR (n + 1))); [assumption|].
  rewrite Rmult_assoc, Rinv_l, Rmult_1_r by lra.
  apply (Rmult_lt_compat_l eps) in Hn1; [|assumption].
  replace (eps * (17 / eps)) with 17 in Hn1 by (field; lra). lra.
Qed.

(** C9.  For [u_xx = e^x] on [[0, 1]] with [u(0) = 0], [u(1) = 3], in exact
    arithmetic and with an exact linear solve: for every [n >= 1] the cell
    returns; its largest grid error against [u_true] is at most
    [dx ^ 2 / 5] with [dx = 1 / (n + 1)]; and the ratio of the error with
    [n] interior points to the error with [2 n + 1] interior points, whose
    spacing is [dx / 2], tends to 4 as [n] grows. *)
Theorem dirichlet_second_order
        (solve : matrix -> vec -> result vec) (junk : nat -> R) :
  exact_solver solve ->
  (forall n, (1 <= n)%nat ->
     exists x_bc U,
       dirichlet_cell solve junk exp 0 1 0 3 (Z.of_nat n) = Ok (x_bc, U) /\
       dirichlet_max_error solve junk n = grid_error x_bc U) /\
  (forall n, (1 <= n)%nat ->
     dirichlet_max_error solve junk n <= 1 / 5 * ((1 - 0) / INR (n + 1)) ^ 2) /\
  (forall n, (1 - 0) / INR (2 * n + 1 + 1) = (1 - 0) / INR (n + 1) / 2) /\
  (forall eps, 0 < eps ->
     exists n0, forall n, (n0 <= n)%nat ->
       0 < dirichlet_max_error solve junk (2 * n + 1) /\
       Rabs (dirichlet_max_error solve junk n
             / dirichlet_max_error solve junk (2 * n + 1) - 4) < eps).
Proof.
  intros Hs. split; [|split; [|split; [exact spacing_half|]]].
  - intros n Hn. eexists _, _. split.
    + apply exp_cell_closed_form; assumption.
    + unfold dirichlet_max_error. now rewrite exp_cell_closed_form by assumption.
  - intros n Hn. rewrite exp_max_error by assumption.
    apply (coarse_bound n Hn).
  - intros eps Heps.
    destruct (spacing_small eps Heps) as (n0 & Hn0 & Hsmall).
    exists n0. intros n Hn.
    rewrite (exp_max_error solve junk n) by (assumption || lia).
    rewrite (exp_max_error solve junk (2 * n + 1)) by (assumption || lia).
    rewrite spacing_half.
    destruct (refinement_ratio n ltac:(lia)) as (Hfine & Hlo & Hhi).
    pose proof (refinement_h n ltac:(lia)) as Hh.
    specialize (Hsmall n Hn).
    set (e := maxl (tabulate (n + 2) _)) in *.
    set (e' := maxl (tabulate (2 * n + 1 + 2) _)) in *.
    split; [exact Hfine|].
    assert (E : e / e' - 4 = (e - 4 * e') / e') by (field; lra).
    rewrite E. apply Rabs_def1.
    + apply (Rmult_lt_reg_r e'); [assumption|].
      unfold Rdiv. rewrite Rmult_assoc, Rinv_l, Rmult_1_r by lra. nra.
    + apply (Rmult_lt_reg_r e'); [assumption|].
      unfold Rdiv. rewrite Rmult_assoc, Rinv_l, Rmult_1_r by lra. nra.
Qed.

Lemma dirichlet_second_order_witness :
  (exists x_bc U,
      dirichlet_cell ideal_solve (fun _ => 0) exp 0 1 0 3 (Z.of_nat 10) = Ok (x_bc, U)) /\
  dirichlet_max_error ideal_solve (fun _ => 0) 10
  <= 1 / 5 * ((1 - 0) / INR (10 + 1)) ^ 2 /\
  (exists n0, forall n, (n0 <= n)%nat ->
     Rabs (dirichlet_max_error ideal_solve (fun _ => 0) n
           / dirichlet_max_error ideal_solve (fun _ => 0) (2 * n + 1) - 4) < 1 / 100).
Proof.
  destruct (dirichlet_second_order ideal_solve (fun _ => 0) ideal_solve_exact)
    as (H1 & H2 & _ & H3).
  split; [|split].
  - destruct (H1 10%nat ltac:(lia)) as (x_bc & U & H & _). now exists x_bc, U.
  - apply H2. lia.
  - destruct (H3 (1 / 100) ltac:(lra)) as [n0 H]. exists n0.
    intros n Hn. now apply H.
Defined.

Section March.

Variable f : R -> R.
Variables a b u_a : R.
Variable n : nat.

Let W (t : R) (i : nat) : R := fst (march f a b n u_a t i).

Lemma march_snd (t : R) (i : nat) : snd (march f a b n u_a t i) = W t (S i).
Proof.
  unfold W. cbn [march]. destruct (march f a b n u_a t i) as [p q]. reflexivity.
Qed.

Lemma march_step (t : R) (i : nat) :
  W t (S (S i)) = 2 * W t (S i) - W t i + spacing a b n ^ 2 * f (grid_point a b n (S i)).
Proof.
  unfold W. cbn [march].
  destruct (march f a b n u_a t i) as [p q]. cbn [fst snd]. reflexivity.
Qed.

Lemma march_0 (t : R) : W t 0 = u_a.
Proof. reflexivity. Qed.

Lemma march_1 (t : R) : W t 1 = u_a + t.
Proof. reflexivity. Qed.

(** The grid function depends on the first increment [t] through the term
    [i * t] only. *)
Lemma march_affine (t : R) (i : nat) :
  W t i = W 0 i + INR i * t /\ W t (S i) = W 0 (S i) + INR (S i) * t.
Proof.
  induction i as [|i [IH0 IH1]].
  - rewrite !march_0, !march_1. simpl. split; ring.
  - split; [exact IH1|].
    rewrite (march_step t), (march_step 0), IH0, IH1, !S_INR. ring.
Qed.

End March.

Lemma difference_solution_left (f : R -> R) (a b u_a u_b : R) (n : nat) :
  difference_solution f a b u_a u_b n 0 = u_a.
Proof. reflexivity. Qed.

Lemma difference_solution_right (f : R -> R) (a b u_a u_b : R) (n : nat) :
  difference_solution f a b u_a u_b n (n + 1) = u_b.
Proof.
  unfold difference_solution. cbv zeta.
  destruct (march_affine f a b u_a n
              ((u_b - fst (march f a b n u_a 0 (n + 1))) / INR (n + 1)) (n + 1))
    as [-> _].
  field. apply INR_succ_neq_0.
Qed.

Lemma difference_solution_interior (f : R -> R) (a b u_a u_b : R) (n i : nat) :
  a <> b ->
  (difference_solution f a b u_a u_b n i
   - 2 * difference_solution f a b u_a u_b n (S i)
   + difference_solution f a b u_a u_b n (S (S i))) / spacing a b n ^ 2
  = f (grid_point a b n (S i)).
Proof.
  intros Hab. unfold difference_solution. cbv zeta.
  rewrite march_step. field. apply spacing_neq_0. exact Hab.
Qed.

(** X1. With an exact linear solve the Dirichlet cell returns for every source
    term as soon as there is an interior point and the interval is not
    degenerate; the vector it returns carries the two boundary values, solves
    the difference equations at every interior point, and is the only grid
    function that does. *)
Theorem dirichlet_cell_solves
  (solve : matrix -> vec -> result vec) (junk : nat -> R) (f : R -> R)
  (a b u_a u_b : R) (n : nat) :
  exact_solver solve -> (1 <= n)%nat -> a <> b ->
  exists U,
    dirichlet_cell solve junk f a b u_a u_b (Z.of_nat n)
    = Ok (tabulate (n + 2) (grid_point a b n), U) /\
    length U = (n + 2)%nat /\
    nth 0 U 0 = u_a /\ nth (n + 1) U 0 = u_b /\
    (forall i, (i < n)%nat ->
       (nth i U 0 - 2 * nth (S i) U 0 + nth (S (S i)) U 0) / spacing a b n ^ 2
       = f (grid_point a b n (S i))) /\
    (forall V : nat -> R,
       V 0%nat = u_a -> V (n + 1)%nat = u_b ->
       (forall i, (i < n)%nat ->
          (V i - 2 * V (S i) + V (S (S i))) / spacing a b n ^ 2
          = f (grid_point a b n (S i))) ->
       U = tabulate (n + 2) V).
Proof.
  intros Hsolve Hn Hab.
  pose proof (dirichlet_cell_exact solve Hsolve junk f a b u_a u_b n Hn Hab) as Hex.
  pose proof (Hex (difference_solution f a b u_a u_b n)
                (difference_solution_left f a b u_a u_b n)
                (difference_solution_right f a b u_a u_b n)
                (fun i _ => difference_solution_interior f a b u_a u_b n i Hab)) as HU.
  exists (tabulate (n + 2) (difference_solution f a b u_a u_b n)).
  split; [exact HU|]. split; [apply tabulate_length|].
  split; [rewrite nth_tabulate by lia; apply difference_solution_left|].
  split; [rewrite nth_tabulate by lia; apply difference_solution_right|].
  split.
  - intros i Hi. rewrite !nth_tabulate by lia.
    apply difference_solution_interior. exact Hab.
  - intros V V0 Vn Vi.
    pose proof (Hex V V0 Vn Vi) as HV. rewrite HU in HV.
    now inversion HV.
Qed.

Lemma dirichlet_cell_solves_witness :
  exists U,
    dirichlet_cell ideal_solve (fun _ => 0) exp 0 1 0 3 (Z.of_nat 3)
    = Ok (tabulate (3 + 2) (grid_point 0 1 3), U) /\
    length U = (3 + 2)%nat /\
    nth 0 U 0 = 0 /\ nth (3 + 1) U 0 = 3 /\
    (forall i, (i < 3)%nat ->
       (nth i U 0 - 2 * nth (S i) U 0 + nth (S (S i)) U 0) / spacing 0 1 3 ^ 2
       = exp (grid_point 0 1 3 (S i))) /\
    (forall V : nat -> R,
       V 0%nat = 0 -> V (3 + 1)%nat = 3 ->
       (forall i, (i < 3)%nat ->
          (V i - 2 * V (S i) + V (S (S i))) / spacing 0 1 3 ^ 2
          = exp (grid_point 0 1 3 (S i))) ->
       U = tabulate (3 + 2) V).
Proof.
  apply (dirichlet_cell_solves ideal_solve (fun _ => 0) exp 0 1 0 3 3).
  - exact ideal_solve_exact.
  - lia.
  - lra.
Defined.

(** X2. The Dirichlet cell returns exactly when there is at least one interior
    point and the interval is not degenerate (the linear solve being exact);
    on a degenerate interval [a = b] it raises [ZeroDivisionError] at
    [u_a / delta_x**2], whatever the solve routine. *)
Theorem dirichlet_cell_returns_iff
  (solve : matrix -> vec -> result vec) (junk : nat -> R) (f : R -> R)
  (a b u_a u_b : R) (N : Z) :
  exact_solver solve ->
  ((exists r, dirichlet_cell solve junk f a b u_a u_b N = Ok r)
   <-> (1 <= N)%Z /\ a <> b) /\
  ((1 <= N)%Z -> a = b ->
   forall solve', dirichlet_cell solve' junk f a b u_a u_b N = Raise ZeroDivisionError).
Proof.
  intros Hsolve. split; [split|].
  - intros [[x_bc U] H].
    destruct (dirichlet_cell_Ok_inv _ _ _ _ _ _ _ _ _ _ H) as (HN & Hab & _).
    split; assumption.
  - intros [HN Hab].
    pose proof (dirichlet_cell_exact solve Hsolve junk f a b u_a u_b (Z.to_nat N)
                  ltac:(lia) Hab (difference_solution f a b u_a u_b (Z.to_nat N))
                  (difference_solution_left f a b u_a u_b _)
                  (difference_solution_right f a b u_a u_b _)
                  (fun i _ => difference_solution_interior f a b u_a u_b _ i Hab))
      as H.
    rewrite Z2Nat.id in H by lia. eexists. exact H.
  - intros HN E solve'. rewrite <- E. unfold dirichlet_cell.
    replace N with (Z.of_nat (Z.to_nat N)) by lia.
    rewrite dirichlet_system_degenerate by lia. reflexivity.
Qed.

Lemma dirichlet_cell_returns_iff_witness :
  ((exists r, dirichlet_cell ideal_solve (fun _ => 0) exp 2 2 0 3 4 = Ok r)
   <-> (1 <= 4)%Z /\ 2 <> 2) /\
  ((1 <= 4)%Z -> 2 = 2 ->
   forall solve', dirichlet_cell solve' (fun _ => 0) exp 2 2 0 3 4
                  = Raise ZeroDivisionError).
Proof.
  apply (dirichlet_cell_returns_iff ideal_solve (fun _ => 0) exp 2 2 0 3 4).
  exact ideal_solve_exact.
Defined.

(** X3. The centred scheme has no discretisation error on cubics: when the
    source term is [u''] for a cubic polynomial [u] and the boundary values
    are those of [u], the Dirichlet cell (with an exact solve) returns the
    values of [u] at all grid points. *)
Theorem dirichlet_exact_for_cubics
  (solve : matrix -> vec -> result vec) (junk : nat -> R)
  (a b c0 c1 c2 c3 : R) (n : nat) :
  exact_solver solve -> (1 <= n)%nat -> a <> b ->
  dirichlet_cell solve junk (fun x => 2 * c2 + 6 * c3 * x) a b
    (c0 + c1 * a + c2 * a ^ 2 + c3 * a ^ 3)
    (c0 + c1 * b + c2 * b ^ 2 + c3 * b ^ 3) (Z.of_nat n)
  = Ok (tabulate (n + 2) (grid_point a b n),
        tabulate (n + 2)
          (fun i => c0 + c1 * grid_point a b n i + c2 * grid_point a b n i ^ 2
                    + c3 * grid_point a b n i ^ 3)).
Proof.
  intros Hsolve Hn Hab.
  apply dirichlet_cell_exact; try assumption.
  - now rewrite grid_point_first.
  - now rewrite grid_point_last.
  - intros i Hi. rewrite !grid_point_S.
    pose proof (spacing_neq_0 a b n Hab). field. assumption.
Qed.

Lemma dirichlet_exact_for_cubics_witness :
  dirichlet_cell ideal_solve (fun _ => 0) (fun x => 2 * 1 + 6 * (-1) * x) 0 1
    (2 + 0 * 0 + 1 * 0 ^ 2 + (-1) * 0 ^ 3)
    (2 + 0 * 1 + 1 * 1 ^ 2 + (-1) * 1 ^ 3) (Z.of_nat 7)
  = Ok (tabulate (7 + 2) (grid_point 0 1 7),
        tabulate (7 + 2)
          (fun i => 2 + 0 * grid_point 0 1 7 i + 1 * grid_point 0 1 7 i ^ 2
                    + (-1) * grid_point 0 1 7 i ^ 3)).
Proof.
  apply (dirichlet_exact_for_cubics ideal_solve (fun _ => 0) 0 1 2 0 1 (-1) 7).
  - exact ideal_solve_exact.
  - lia.
  - lra.
Defined.

(** ** Discrete convexity *)

Section Convex.

Variable D : nat -> R.
Variable n : nat.
Hypothesis D_convex : forall i, (i < n)%nat -> 0 <= D i - 2 * D (S i) + D (S (S i)).

Lemma increments_monotone (i m : nat) :
  (i + m <= n)%nat -> D (S i) - D i <= D (S (i + m)) - D (i + m)%nat.
Proof.
  induction m as [|m IH]; intros H.
  - rewrite Nat.add_0_r. lra.
  - specialize (IH ltac:(lia)).
    pose proof (D_convex (i + m)%nat ltac:(lia)) as Hc.
    replace (i + S m)%nat with (S (i + m)) by lia. lra.
Qed.

Lemma convex_growth_from (k m : nat) :
  (k + m <= n + 1)%nat -> INR m * (D (S k) - D k) <= D (k + m)%nat - D k.
Proof.
  induction m as [|m IH]; intros H.
  - rewrite Nat.add_0_r. simpl. lra.
  - specialize (IH ltac:(lia)).
    pose proof (increments_monotone k m ltac:(lia)) as Hm.
    replace (k + S m)%nat with (S (k + m)) by lia. rewrite S_INR. lra.
Qed.

Lemma convex_growth_to (k : nat) :
  (k <= n)%nat -> D (S k) - D 0%nat <= INR (S k) * (D (S k) - D k).
Proof.
  induction k as [|k IH]; intros H.
  - simpl. lra.
  - specialize (IH ltac:(lia)).
    pose proof (D_convex k ltac:(lia)) as Hc.
    rewrite (S_INR (S k)).
    pose proof (pos_INR (S k)) as Hp.
    assert (INR (S k) * (D (S k) - D k) <= INR (S k) * (D (S (S k)) - D (S k)))
      by (apply Rmult_le_compat_l; lra).
    lra.
Qed.

(** A convex grid function that vanishes at both ends is nowhere positive. *)
Lemma convex_below_zero :
  D 0%nat = 0 -> D (n + 1)%nat = 0 -> forall i, (i <= n + 1)%nat -> D i <= 0.
Proof.
  intros D0 Dn i Hi.
  destruct i as [|k]; [lra|].
  destruct (Nat.eq_dec k n) as [->|Hk].
  { replace (S n) with (n + 1)%nat by lia. lra. }
  pose proof (convex_growth_to k ltac:(lia)) as Hto.
  pose proof (convex_growth_from (S k) (n - k) ltac:(lia)) as Hfrom.
  replace (S k + (n - k))%nat with (n + 1)%nat in Hfrom by lia.
  pose proof (D_convex k ltac:(lia)) as Hc.
  pose proof (pos_INR (S k)) as Hp1. pose proof (pos_INR (n - k)) as Hp2.
  destruct (Rle_or_lt 0 (D (S k) - D k)) as [Hpos|Hneg].
  - assert (0 <= INR (n - k) * (D (S (S k)) - D (S k)))
      by (apply Rmult_le_pos; lra).
    lra.
  - assert (INR (S k) * (D (S k) - D k) <= 0).
    { rewrite <- (Rmult_0_r (INR (S k))). apply Rmult_le_compat_l; lra. }
    lra.
Qed.

End Convex.

Lemma chord_grid (a b u_a u_b : R) (n i : nat) :
  a <> b ->
  u_a + (u_b - u_a) * (grid_point a b n i - a) / (b - a)
  = u_a + (u_b - u_a) * (INR i / INR (n + 1)).
Proof.
  intros Hab. unfold grid_point. field.
  split; [apply INR_succ_neq_0 | lra].
Qed.

Lemma chord_between (u_a u_b : R) (n i : nat) :
  (i <= n + 1)%nat ->
  Rmin u_a u_b <= u_a + (u_b - u_a) * (INR i / INR (n + 1)) <= Rmax u_a u_b.
Proof.
  intros Hi.
  assert (Hn : 0 < INR (n + 1)) by (apply lt_0_INR; lia).
  assert (H0 : 0 <= INR i / INR (n + 1)).
  { apply Rmult_le_pos; [apply pos_INR | left; now apply Rinv_0_lt_compat]. }
  assert (H1 : INR i / INR (n + 1) <= 1).
  { apply (Rmult_le_reg_r (INR (n + 1))); [exact Hn|].
    unfold Rdiv. rewrite Rmult_assoc, Rinv_l, Rmult_1_r, Rmult_1_l by lra.
    now apply le_INR. }
  set (t := INR i / INR (n + 1)) in *.
  unfold Rmin, Rmax. destruct (Rle_dec u_a u_b); split; nra.
Qed.

Lemma difference_solution_below (f : R -> R) (a b u_a u_b : R) (n : nat) :
  a <> b ->
  (forall i, (1 <= i <= n)%nat -> 0 <= f (grid_point a b n i)) ->
  forall i, (i <= n + 1)%nat ->
    difference_solution f a b u_a u_b n i
    <= u_a + (u_b - u_a) * (INR i / INR (n + 1)).
Proof.
  intros Hab Hf i Hi.
  set (D := fun i => difference_solution f a b u_a u_b n i
                     - (u_a + (u_b - u_a) * (INR i / INR (n + 1)))).
  assert (HD : D i <= 0); [|unfold D in HD; lra].
  assert (Hn : INR (n + 1) <> 0) by apply INR_succ_neq_0.
  apply (convex_below_zero D n); try assumption.
  - intros k Hk. unfold D.
    pose proof (difference_solution_interior f a b u_a u_b n k Hab) as E.
    pose proof (Hf (S k) ltac:(lia)) as Hpos. rewrite <- E in Hpos.
    pose proof (spacing_neq_0 a b n Hab) as Hdx.
    assert (Hsq : 0 < spacing a b n ^ 2).
    { destruct (Rtotal_order (spacing a b n) 0) as [H|[H|H]]; [nra|contradiction|nra]. }
    assert (Hnum : 0 <= difference_solution f a b u_a u_b n k
                        - 2 * difference_solution f a b u_a u_b n (S k)
                        + difference_solution f a b u_a u_b n (S (S k))).
    { apply (Rmult_le_reg_r (/ spacing a b n ^ 2)).
      - now apply Rinv_0_lt_compat.
      - rewrite Rmult_0_l. exact Hpos. }
    rewrite !S_INR.
    replace (difference_solution f a b u_a u_b n k -
             (u_a + (u_b - u_a) * (INR k / INR (n + 1))) -
             2 * (difference_solution f a b u_a u_b n (S k) -
                  (u_a + (u_b - u_a) * ((INR k + 1) / INR (n + 1)))) +
             (difference_solution f a b u_a u_b n (S (S k)) -
              (u_a + (u_b - u_a) * ((INR k + 1 + 1) / INR (n + 1)))))
      with (difference_solution f a b u_a u_b n k
            - 2 * difference_solution f a b u_a u_b n (S k)
            + difference_solution f a b u_a u_b n (S (S k)))
      by (field; exact Hn).
    exact Hnum.
  - unfold D. rewrite difference_solution_left. simpl INR. unfold Rdiv. ring.
  - unfold D. rewrite difference_solution_right. field. exact Hn.
Qed.

Lemma difference_solution_opp (f : R -> R) (a b u_a u_b : R) (n i : nat) :
  difference_solution (fun x => - f x) a b (- u_a) (- u_b) n i
  = - difference_solution f a b u_a u_b n i.
Proof.
  unfold difference_solution. cbv zeta.
  assert (H : forall t k,
             march (fun x => - f x) a b n (- u_a) (- t) k
             = (- fst (march f a b n u_a t k), - snd (march f a b n u_a t k))).
  { intros t k. induction k as [|k IH].
    - cbn [march fst snd]. f_equal. ring.
    - cbn [march]. rewrite IH. destruct (march f a b n u_a t k) as [p q].
      cbn [fst snd]. f_equal. ring. }
  replace ((- u_b - fst (march (fun x => - f x) a b n (- u_a) 0 (n + 1))) / INR (n + 1))
    with (- ((u_b - fst (march f a b n u_a 0 (n + 1))) / INR (n + 1))).
  - now rewrite H.
  - replace 0 with (- 0) at 2 by ring. rewrite H. cbn [fst].
    field. apply INR_succ_neq_0.
Qed.

Lemma difference_solution_above (f : R -> R) (a b u_a u_b : R) (n : nat) :
  a <> b ->
  (forall i, (1 <= i <= n)%nat -> f (grid_point a b n i) <= 0) ->
  forall i, (i <= n + 1)%nat ->
    u_a + (u_b - u_a) * (INR i / INR (n + 1))
    <= difference_solution f a b u_a u_b n i.
Proof.
  intros Hab Hf i Hi.
  pose proof (difference_solution_below (fun x => - f x) a b (- u_a) (- u_b) n Hab) as H.
  specialize (H (fun k Hk => ltac:(specialize (Hf k Hk); lra)) i Hi).
  rewrite difference_solution_opp in H. lra.
Qed.

(** X4. Discrete maximum principle for the Dirichlet cell (exact solve): the
    cell returns the uniform grid and a vector of [n + 2] values; when the
    source term is non-negative at the interior grid points these values lie
    on or below the straight line through the two boundary values, hence
    never exceed the larger boundary value; when it is non-positive they lie
    on or above the line, hence never fall below the smaller one. *)
Theorem dirichlet_maximum_principle
  (solve : matrix -> vec -> result vec) (junk : nat -> R) (f : R -> R)
  (a b u_a u_b : R) (n : nat) :
  exact_solver solve -> (1 <= n)%nat -> a <> b ->
  exists U,
    dirichlet_cell solve junk f a b u_a u_b (Z.of_nat n)
    = Ok (tabulate (n + 2) (grid_point a b n), U) /\
    length U = (n + 2)%nat /\
    nth 0 U 0 = u_a /\ nth (n + 1) U 0 = u_b /\
    ((forall i, (1 <= i <= n)%nat -> 0 <= f (grid_point a b n i)) ->
     forall i, (i < n + 2)%nat ->
       nth i U 0 <= u_a + (u_b - u_a) * (grid_point a b n i - a) / (b - a) /\
       nth i U 0 <= Rmax u_a u_b) /\
    ((forall i, (1 <= i <= n)%nat -> f (grid_point a b n i) <= 0) ->
     forall i, (i < n + 2)%nat ->
       u_a + (u_b - u_a) * (grid_point a b n i - a) / (b - a) <= nth i U 0 /\
       Rmin u_a u_b <= nth i U 0).
Proof.
  intros Hsolve Hn Hab.
  exists (tabulate (n + 2) (difference_solution f a b u_a u_b n)).
  split.
  { apply dirichlet_cell_exact; try assumption.
    - apply difference_solution_left.
    - apply difference_solution_right.
    - intros i _. now apply difference_solution_interior. }
  split; [apply tabulate_length|].
  split; [rewrite nth_tabulate by lia; apply difference_solution_left|].
  split; [rewrite nth_tabulate by lia; apply difference_solution_right|].
  split.
  - intros Hf i Hi. rewrite !nth_tabulate by assumption.
    rewrite chord_grid by assumption.
    assert (Hb : difference_solution f a b u_a u_b n i
                 <= u_a + (u_b - u_a) * (INR i / INR (n + 1)))
      by (apply difference_solution_below; [assumption|assumption|lia]).
    split; [exact Hb|].
    pose proof (chord_between u_a u_b n i ltac:(lia)). lra.
  - intros Hf i Hi. rewrite !nth_tabulate by assumption.
    rewrite chord_grid by assumption.
    assert (Hb : u_a + (u_b - u_a) * (INR i / INR (n + 1))
                 <= difference_solution f a b u_a u_b n i)
      by (apply difference_solution_above; [assumption|assumption|lia]).
    split; [exact Hb|].
    pose proof (chord_between u_a u_b n i ltac:(lia)). lra.
Qed.

Lemma dirichlet_maximum_principle_witness :
  exists U,
    dirichlet_cell ideal_solve (fun _ => 0) exp 0 1 0 3 (Z.of_nat 100)
    = Ok (tabulate (100 + 2) (grid_point 0 1 100), U) /\
    length U = (100 + 2)%nat /\
    nth 0 U 0 = 0 /\ nth (100 + 1) U 0 = 3 /\
    ((forall i, (1 <= i <= 100)%nat -> 0 <= exp (grid_point 0 1 100 i)) ->
     forall i, (i < 100 + 2)%nat ->
       nth i U 0 <= 0 + (3 - 0) * (grid_point 0 1 100 i - 0) / (1 - 0) /\
       nth i U 0 <= Rmax 0 3) /\
    ((forall i, (1 <= i <= 100)%nat -> exp (grid_point 0 1 100 i) <= 0) ->
     forall i, (i < 100 + 2)%nat ->
       0 + (3 - 0) * (grid_point 0 1 100 i - 0) / (1 - 0) <= nth i U 0 /\
       Rmin 0 3 <= nth i U 0).
Proof.
  apply (dirichlet_maximum_principle ideal_solve (fun _ => 0) exp 0 1 0 3 100).
  - exact ideal_solve_exact.
  - lia.
  - lra.
Defined.

(** * The mixed cell: solutions and failures *)

(** Row [i] of the mixed system applied to a grid function. *)
Lemma mixed_row (dx : R) (n i : nat) (X : nat -> R) :
  (1 <= n)%nat -> (i < n + 2)%nat ->
  dot (tabulate (n + 2) (mixed_entry dx n i)) (tabulate (n + 2) X)
  = if (i =? 0)%nat then X 0%nat
    else if (i =? n + 1)%nat
         then (X (n - 1)%nat - 4 * X n + 3 * X (n + 1)%nat) / (2 * dx)
         else (X (i - 1)%nat - 2 * X i + X (i + 1)%nat) / dx ^ 2.
Proof.
  intros Hn Hi.
  destruct (Nat.eqb_spec i 0) as [E0|E0].
  - rewrite dot_tabulate.
    rewrite (rsum_ext _ (fun j => if (j =? 0)%nat then X 0%nat else 0)).
    + rewrite rsum_single.
      now replace (0 <? n + 2)%nat with true by (symmetry; apply Nat.ltb_lt; lia).
    + intros j Hj. unfold mixed_entry. subst i. cbn [Nat.eqb].
      destruct (Nat.eqb_spec j 0) as [->|E]; lra.
  - destruct (Nat.eqb_spec i (n + 1)) as [E1|E1].
    + rewrite dot_tabulate.
      rewrite (rsum_ext _
        (fun j => (if (j =? n - 1)%nat then 1 / (2 * dx) * X (n - 1)%nat else 0)
                  + ((if (j =? n)%nat then -4 / (2 * dx) * X n else 0)
                     + (if (j =? n + 1)%nat then 3 / (2 * dx) * X (n + 1)%nat else 0)))).
      * rewrite !rsum_plus, !rsum_single.
        replace (n - 1 <? n + 2)%nat with true by (symmetry; apply Nat.ltb_lt; lia).
        replace (n <? n + 2)%nat with true by (symmetry; apply Nat.ltb_lt; lia).
        replace (n + 1 <? n + 2)%nat with true by (symmetry; apply Nat.ltb_lt; lia).
        unfold Rdiv. ring.
      * intros j Hj. unfold mixed_entry.
        destruct (Nat.eqb_spec i 0); [lia|]. destruct (Nat.eqb_spec i (n + 1)); [|lia].
        destruct (Nat.eqb_spec j (n - 1)) as [->|F1].
        { destruct (Nat.eqb_spec (n - 1) n); [lia|].
          destruct (Nat.eqb_spec (n - 1) (n + 1)); [lia|]. lra. }
        destruct (Nat.eqb_spec j n) as [->|F2].
        { destruct (Nat.eqb_spec n (n + 1)); [lia|]. lra. }
        destruct (Nat.eqb_spec j (n + 1)) as [->|F3]; lra.
    + transitivity (dot (tabulate (n + 2) (stencil_entry dx i)) (tabulate (n + 2) X)).
      * f_equal. apply tabulate_ext. intros j Hj. unfold mixed_entry.
        destruct (Nat.eqb_spec i 0); [lia|]. destruct (Nat.eqb_spec i (n + 1)); [lia|].
        reflexivity.
      * rewrite (stencil_row dx (n + 2) i X Hi).
        destruct (Nat.eqb_spec i 0); [lia|].
        now replace (i + 1 <? n + 2)%nat with true by (symmetry; apply Nat.ltb_lt; lia).
Qed.

Lemma square_mixed (dx : R) (n : nat) :
  square (n + 2) (tabulate2 (n + 2) (n + 2) (mixed_entry dx n)).
Proof.
  split; [apply tabulate2_length|].
  intros r Hr. unfold tabulate2 in Hr. apply in_map_iff in Hr as (i & <- & _).
  apply tabulate_length.
Qed.

Lemma mat_vec_mixed (dx : R) (n : nat) (X : nat -> R) :
  (1 <= n)%nat ->
  mat_vec (tabulate2 (n + 2) (n + 2) (mixed_entry dx n)) (tabulate (n + 2) X)
  = tabulate (n + 2) (fun i =>
      if (i =? 0)%nat then X 0%nat
      else if (i =? n + 1)%nat
           then (X (n - 1)%nat - 4 * X n + 3 * X (n + 1)%nat) / (2 * dx)
           else (X (i - 1)%nat - 2 * X i + X (i + 1)%nat) / dx ^ 2).
Proof.
  intros Hn. unfold mat_vec, tabulate2. rewrite map_map.
  apply map_ext_in. intros i Hi. apply in_seq in Hi.
  apply mixed_row; lia.
Qed.

(** A grid function that vanishes at the left end, has vanishing second
    differences and a vanishing one-sided difference at the right end
    vanishes: [D i = i * D 1] and the last row reads [2 * D 1 = 0]. *)
Lemma mixed_homogeneous (D : nat -> R) (n : nat) :
  (1 <= n)%nat ->
  D 0%nat = 0 ->
  (forall i, (1 <= i <= n)%nat -> D (i - 1)%nat - 2 * D i + D (i + 1)%nat = 0) ->
  D (n - 1)%nat - 4 * D n + 3 * D (n + 1)%nat = 0 ->
  forall i, (i <= n + 1)%nat -> D i = 0.
Proof.
  intros Hn D0 Hrec Hlast.
  assert (Hlin : forall i, (i <= n)%nat ->
             D i = INR i * D 1%nat /\ D (S i) = INR (S i) * D 1%nat).
  { induction i as [|i IH]; intros Hi.
    - simpl. split; lra.
    - destruct (IH ltac:(lia)) as [E0 E1]. split; [exact E1|].
      pose proof (Hrec (S i) ltac:(lia)) as E.
      replace (S i - 1)%nat with i in E by lia.
      replace (S i + 1)%nat with (S (S i)) in E by lia.
      rewrite E0, E1 in E. rewrite !S_INR in *. lra. }
  assert (H1 : D 1%nat = 0).
  { destruct (Hlin (n - 1)%nat ltac:(lia)) as [Ea Eb].
    destruct (Hlin n (le_n n)) as [_ Ec].
    replace (S (n - 1)) with n in Eb by lia.
    replace (n + 1)%nat with (S n) in Hlast by lia.
    rewrite Ea, Eb, Ec in Hlast.
    rewrite S_INR, minus_INR in Hlast by lia. simpl INR in Hlast. lra. }
  intros i Hi. destruct i as [|i]; [exact D0|].
  destruct (Hlin i ltac:(lia)) as [_ E]. rewrite E, H1. ring.
Qed.

Lemma mixed_solution_unique (dx : R) (n : nat) (rhs x y : vec) :
  dx <> 0 -> (1 <= n)%nat -> length rhs = (n + 2)%nat ->
  solves (tabulate2 (n + 2) (n + 2) (mixed_entry dx n)) rhs x ->
  solves (tabulate2 (n + 2) (n + 2) (mixed_entry dx n)) rhs y -> y = x.
Proof.
  intros Hdx Hn Hr [Lx Ex] [Ly Ey].
  rewrite Hr in Lx, Ly.
  rewrite (vec_as_tabulate x), Lx in Ex.
  rewrite (vec_as_tabulate y), Ly in Ey.
  rewrite mat_vec_mixed in Ex, Ey by assumption.
  set (D := fun i => nth i y 0 - nth i x 0).
  assert (Hrow : forall i, (i < n + 2)%nat ->
            (if (i =? 0)%nat then nth 0 y 0
             else if (i =? n + 1)%nat
                  then (nth (n - 1) y 0 - 4 * nth n y 0 + 3 * nth (n + 1) y 0) / (2 * dx)
                  else (nth (i - 1) y 0 - 2 * nth i y 0 + nth (i + 1) y 0) / dx ^ 2)
            = (if (i =? 0)%nat then nth 0 x 0
               else if (i =? n + 1)%nat
                    then (nth (n - 1) x 0 - 4 * nth n x 0 + 3 * nth (n + 1) x 0) / (2 * dx)
                    else (nth (i - 1) x 0 - 2 * nth i x 0 + nth (i + 1) x 0) / dx ^ 2)).
  { intros i Hi.
    assert (E1 := f_equal (fun l => nth i l 0) Ex).
    assert (E2 := f_equal (fun l => nth i l 0) Ey).
    cbv beta in E1, E2. rewrite nth_tabulate in E1, E2 by assumption.
    now rewrite E1, E2. }
  assert (Hdx2 : dx ^ 2 <> 0) by (apply pow_nonzero; exact Hdx).
  assert (HD : forall i, (i <= n + 1)%nat -> D i = 0).
  { apply mixed_homogeneous; [assumption| | |].
    - pose proof (Hrow 0%nat ltac:(lia)) as E. cbn [Nat.eqb] in E. unfold D. lra.
    - intros i Hi. pose proof (Hrow i ltac:(lia)) as E.
      destruct (Nat.eqb_spec i 0); [lia|]. destruct (Nat.eqb_spec i (n + 1)); [lia|].
      apply (Rmult_eq_compat_r (dx ^ 2)) in E.
      unfold Rdiv in E. rewrite !Rmult_assoc, Rinv_l, !Rmult_1_r in E by exact Hdx2.
      unfold D. lra.
    - pose proof (Hrow (n + 1)%nat ltac:(lia)) as E.
      destruct (Nat.eqb_spec (n + 1) 0); [lia|]. rewrite Nat.eqb_refl in E.
      apply (Rmult_eq_compat_r (2 * dx)) in E.
      unfold Rdiv in E. rewrite !Rmult_assoc, Rinv_l, !Rmult_1_r in E by lra.
      unfold D. lra. }
  apply (nth_ext _ _ 0 0); [lia|].
  intros i Hi. specialize (HD i ltac:(lia)). unfold D in HD. lra.
Qed.

Section MixedSolution.

Variable solve : matrix -> vec -> result vec.
Hypothesis solve_exact : exact_solver solve.
Variable junk : nat -> R.
Variable f : R -> R.
Variables a b u_a u_x_b : R.
Variable n : nat.
Hypothesis Hn : (1 <= n)%nat.
Hypothesis Hab : a <> b.

(** A grid function that satisfies every row of the mixed system. *)
Variable V : nat -> R.
Hypothesis V_left : V O = u_a.
Hypothesis V_interior :
  forall i, (i < n)%nat ->
    (V i - 2 * V (S i) + V (S (S i))) / spacing a b n ^ 2
    = f (grid_point a b n (S i)).
Hypothesis V_right :
  (V (n - 1)%nat - 4 * V n + 3 * V (n + 1)%nat) / (2 * spacing a b n) = u_x_b.

Lemma mixed_rows_solve :
  solves (tabulate2 (n + 2) (n + 2) (mixed_entry (spacing a b n) n))
         (tabulate (n + 2) (mixed_rhs_entry f a b u_a u_x_b n))
         (tabulate (n + 2) V).
Proof.
  split; [now rewrite !tabulate_length|].
  rewrite mat_vec_mixed by assumption. apply tabulate_ext. intros i Hi.
  unfold mixed_rhs_entry.
  destruct (Nat.eqb_spec i 0) as [E0|E0]; [exact V_left|].
  destruct (Nat.eqb_spec i (n + 1)) as [E1|E1]; [exact V_right|].
  pose proof (V_interior (i - 1)%nat ltac:(lia)) as E.
  replace (S (i - 1)) with i in E by lia. replace (i + 1)%nat with (S i) by lia.
  exact E.
Qed.

Lemma mixed_cell_exact :
  mixed_cell solve junk f a b u_a u_x_b (Z.of_nat n)
  = Ok (tabulate (n + 2) (grid_point a b n), tabulate (n + 2) V).
Proof.
  unfold mixed_cell. rewrite mixed_system_ok, bind_Ok by assumption.
  unfold Np.empty.
  replace (Z.of_nat n + 2 <? 0)%Z with false by (symmetry; apply Z.ltb_ge; lia).
  rewrite bind_Ok.
  rewrite (solve_exact (n + 2)%nat _ _ (tabulate (n + 2) V)).
  - now rewrite bind_Ok.
  - apply square_mixed.
  - apply tabulate_length.
  - split; [exact mixed_rows_solve|]. intros y Hy.
    apply (mixed_solution_unique (spacing a b n) n
             (tabulate (n + 2) (mixed_rhs_entry f a b u_a u_x_b n))); try assumption.
    + now apply spacing_neq_0.
    + apply tabulate_length.
    + exact mixed_rows_solve.
Qed.

End MixedSolution.

Lemma mixed_solution_left (f : R -> R) (a b u_a u_x_b : R) (n : nat) :
  mixed_solution f a b u_a u_x_b n 0 = u_a.
Proof. reflexivity. Qed.

Lemma mixed_solution_interior (f : R -> R) (a b u_a u_x_b : R) (n i : nat) :
  a <> b ->
  (mixed_solution f a b u_a u_x_b n i
   - 2 * mixed_solution f a b u_a u_x_b n (S i)
   + mixed_solution f a b u_a u_x_b n (S (S i))) / spacing a b n ^ 2
  = f (grid_point a b n (S i)).
Proof.
  intros Hab. unfold mixed_solution. cbv zeta.
  rewrite march_step. field. apply spacing_neq_0. exact Hab.
Qed.

Lemma mixed_solution_right (f : R -> R) (a b u_a u_x_b : R) (n : nat) :
  (1 <= n)%nat -> a <> b ->
  (mixed_solution f a b u_a u_x_b n (n - 1)
   - 4 * mixed_solution f a b u_a u_x_b n n
   + 3 * mixed_solution f a b u_a u_x_b n (n + 1)) / (2 * spacing a b n)
  = u_x_b.
Proof.
  intros Hn Hab. unfold mixed_solution. cbv zeta.
  set (t := (2 * spacing a b n * u_x_b
             - (fst (march f a b n u_a 0 (n - 1))
                - 4 * fst (march f a b n u_a 0 n)
                + 3 * fst (march f a b n u_a 0 (n + 1)))) / 2).
  destruct (march_affine f a b u_a n t (n - 1)) as [-> _].
  destruct (march_affine f a b u_a n t n) as [-> _].
  destruct (march_affine f a b u_a n t (n + 1)) as [-> _].
  rewrite minus_INR, plus_INR by lia. simpl INR.
  pose proof (spacing_neq_0 a b n Hab) as Hdx.
  unfold t. field. exact Hdx.
Qed.

(** X5. With an exact linear solve the mixed cell returns for every source
    term as soon as [n >= 1] and [a <> b]; the vector it returns takes the
    value [u_a] at the left end, solves the centred difference equations at
    the interior points and the one-sided difference condition
    [(U_(n-1) - 4 U_n + 3 U_(n+1)) / (2 dx) = u_x_b] at the right end, and is
    the only grid function that does. *)
Theorem mixed_cell_solves
  (solve : matrix -> vec -> result vec) (junk : nat -> R) (f : R -> R)
  (a b u_a u_x_b : R) (n : nat) :
  exact_solver solve -> (1 <= n)%nat -> a <> b ->
  exists U,
    mixed_cell solve junk f a b u_a u_x_b (Z.of_nat n)
    = Ok (tabulate (n + 2) (grid_point a b n), U) /\
    length U = (n + 2)%nat /\
    nth 0 U 0 = u_a /\
    (forall i, (i < n)%nat ->
       (nth i U 0 - 2 * nth (S i) U 0 + nth (S (S i)) U 0) / spacing a b n ^ 2
       = f (grid_point a b n (S i))) /\
    (nth (n - 1) U 0 - 4 * nth n U 0 + 3 * nth (n + 1) U 0) / (2 * spacing a b n)
    = u_x_b /\
    (forall V : nat -> R,
       V 0%nat = u_a ->
       (forall i, (i < n)%nat ->
          (V i - 2 * V (S i) + V (S (S i))) / spacing a b n ^ 2
          = f (grid_point a b n (S i))) ->
       (V (n - 1)%nat - 4 * V n + 3 * V (n + 1)%nat) / (2 * spacing a b n) = u_x_b ->
       U = tabulate (n + 2) V).
Proof.
  intros Hsolve Hn Hab.
  pose proof (mixed_cell_exact solve Hsolve junk f a b u_a u_x_b n Hn Hab) as Hex.
  pose proof (Hex (mixed_solution f a b u_a u_x_b n)
                (mixed_solution_left f a b u_a u_x_b n)
                (fun i _ => mixed_solution_interior f a b u_a u_x_b n i Hab)
                (mixed_solution_right f a b u_a u_x_b n Hn Hab)) as HU.
  exists (tabulate (n + 2) (mixed_solution f a b u_a u_x_b n)).
  split; [exact HU|]. split; [apply tabulate_length|].
  split; [rewrite nth_tabulate by lia; apply mixed_solution_left|].
  split; [|split].
  - intros i Hi. rewrite !nth_tabulate by lia.
    apply mixed_solution_interior. exact Hab.
  - rewrite !nth_tabulate by lia. now apply mixed_solution_right.
  - intros V V0 Vi Vn.
    pose proof (Hex V V0 Vi Vn) as HV. rewrite HU in HV.
    now inversion HV.
Qed.

Lemma mixed_cell_solves_witness :
  exists U,
    mixed_cell ideal_solve (fun _ => 0) exp (-1) 1 3 (-5) (Z.of_nat 3)
    = Ok (tabulate (3 + 2) (grid_point (-1) 1 3), U) /\
    length U = (3 + 2)%nat /\
    nth 0 U 0 = 3 /\
    (forall i, (i < 3)%nat ->
       (nth i U 0 - 2 * nth (S i) U 0 + nth (S (S i)) U 0) / spacing (-1) 1 3 ^ 2
       = exp (grid_point (-1) 1 3 (S i))) /\
    (nth (3 - 1) U 0 - 4 * nth 3 U 0 + 3 * nth (3 + 1) U 0) / (2 * spacing (-1) 1 3)
    = -5 /\
    (forall V : nat -> R,
       V 0%nat = 3 ->
       (forall i, (i < 3)%nat ->
          (V i - 2 * V (S i) + V (S (S i))) / spacing (-1) 1 3 ^ 2
          = exp (grid_point (-1) 1 3 (S i))) ->
       (V (3 - 1)%nat - 4 * V 3%nat + 3 * V (3 + 1)%nat) / (2 * spacing (-1) 1 3) = -5 ->
       U = tabulate (3 + 2) V).
Proof.
  apply (mixed_cell_solves ideal_solve (fun _ => 0) exp (-1) 1 3 (-5) 3).
  - exact ideal_solve_exact.
  - lia.
  - lra.
Defined.

(** X6. The one-sided boundary stencil and the centred interior stencil are
    both exact on quadratics: when the source term is the constant [u''] of a
    quadratic [u], the left value is [u a] and the prescribed slope is
    [u' b], the mixed cell (with an exact solve) returns the values of [u]
    at all grid points. *)
Theorem mixed_exact_for_quadratics
  (solve : matrix -> vec -> result vec) (junk : nat -> R)
  (a b c0 c1 c2 : R) (n : nat) :
  exact_solver solve -> (1 <= n)%nat -> a <> b ->
  mixed_cell solve junk (fun _ => 2 * c2) a b
    (c0 + c1 * a + c2 * a ^ 2) (c1 + 2 * c2 * b) (Z.of_nat n)
  = Ok (tabulate (n + 2) (grid_point a b n),
        tabulate (n + 2)
          (fun i => c0 + c1 * grid_point a b n i + c2 * grid_point a b n i ^ 2)).
Proof.
  intros Hsolve Hn Hab.
  pose proof (spacing_neq_0 a b n Hab) as Hdx.
  apply mixed_cell_exact; try assumption.
  - now rewrite grid_point_first.
  - intros i Hi. rewrite !grid_point_S. field. assumption.
  - replace (grid_point a b n (n + 1)) with b by (symmetry; apply grid_point_last).
    replace (grid_point a b n n) with (b - spacing a b n).
    2:{ rewrite <- (grid_point_last a b n) at 1.
        replace (n + 1)%nat with (S n) by lia. rewrite grid_point_S. ring. }
    replace (grid_point a b n (n - 1)) with (b - 2 * spacing a b n).
    2:{ rewrite <- (grid_point_last a b n) at 1.
        replace (n + 1)%nat with (S (S (n - 1))) by lia. rewrite !grid_point_S. ring. }
    field. assumption.
Qed.

Lemma mixed_exact_for_quadratics_witness :
  mixed_cell ideal_solve (fun _ => 0) (fun _ => 2 * 3) (-1) 1
    (1 + 2 * (-1) + 3 * (-1) ^ 2) (2 + 2 * 3 * 1) (Z.of_nat 5)
  = Ok (tabulate (5 + 2) (grid_point (-1) 1 5),
        tabulate (5 + 2)
          (fun i => 1 + 2 * grid_point (-1) 1 5 i + 3 * grid_point (-1) 1 5 i ^ 2)).
Proof.
  apply (mixed_exact_for_quadratics ideal_solve (fun _ => 0) (-1) 1 1 2 3 5).
  - exact ideal_solve_exact.
  - lia.
  - lra.
Defined.

Section MixedFailures.

Variable f : R -> R.
Variables a b u_a u_x_b : R.

Lemma mixed_system_negative (N : Z) :
  (N <= -3)%Z -> mixed_system f a b u_a u_x_b N = Raise ValueError.
Proof.
  intros HN. unfold mixed_system. now rewrite linspace_negative by lia.
Qed.

Lemma mixed_system_minus_two :
  mixed_system f a b u_a u_x_b (-2) = Raise IndexError.
Proof.
  unfold mixed_system.
  change (Np.linspace a b (-2 + 2)) with (Ok (@nil R)).
  rewrite bind_Ok. rewrite py_div_ok by (simpl; lra).
  reflexivity.
Qed.

Lemma mixed_system_minus_one :
  mixed_system f a b u_a u_x_b (-1) = Raise ZeroDivisionError.
Proof.
  unfold mixed_system.
  change (Np.linspace a b (-1 + 2)) with
    (Ok (map (fun i => INR i * ((b - a) / INR (1 - 1)) + a) (seq 0 1))).
  rewrite bind_Ok.
  change (IZR (-1 + 1)) with 0. now rewrite py_div_zero.
Qed.

Ltac mixed_prefix n :=
  unfold mixed_system;
  replace (Z.of_nat n + 2)%Z with (Z.of_nat (n + 2)) by lia;
  rewrite linspace_tabulate, bind_Ok by lia; cbv zeta;
  rewrite IZR_succ_of_nat, py_div_ok, bind_Ok by apply INR_succ_neq_0;
  fold (spacing a b n);
  rewrite dirichlet_matrix_ok by lia;
  rewrite (setitem2_tabulate2 _ _ _ 0 0 0 0), bind_Ok
    by (apply norm_index_first; lia);
  rewrite (setitem2_tabulate2 _ _ _ 0 1 0 1), bind_Ok
    by (apply norm_index_first || apply norm_index_one; lia).

(** Without an interior point the last row has no third entry from the
    right. *)
Lemma mixed_system_no_interior :
  a <> b -> mixed_system f a b u_a u_x_b 0 = Raise IndexError.
Proof.
  intros Hab. change 0%Z with (Z.of_nat 0).
  mixed_prefix 0%nat.
  pose proof (spacing_neq_0 a b 0 Hab) as Hdx.
  assert (Hdx2 : 2 * spacing a b 0 <> 0) by lra.
  rewrite py_div_ok, bind_Ok by exact Hdx2.
  rewrite (setitem2_tabulate2 _ _ _ (-1) (-1) (0 + 2 - 1) (0 + 2 - 1)), bind_Ok
    by (apply norm_index_last; lia).
  rewrite py_div_ok, bind_Ok by exact Hdx2.
  rewrite (setitem2_tabulate2 _ _ _ (-1) (-2) (0 + 2 - 1) (0 + 2 - 2)), bind_Ok
    by (apply norm_index_last || apply norm_index_m2; lia).
  rewrite py_div_ok, bind_Ok by exact Hdx2.
  reflexivity.
Qed.

Lemma mixed_system_degenerate (n : nat) :
  mixed_system f a a u_a u_x_b (Z.of_nat n) = Raise ZeroDivisionError.
Proof.
  unfold mixed_system.
  replace (Z.of_nat n + 2)%Z with (Z.of_nat (n + 2)) by lia.
  rewrite linspace_tabulate, bind_Ok by lia. cbv zeta.
  rewrite IZR_succ_of_nat, py_div_ok, bind_Ok by apply INR_succ_neq_0.
  rewrite dirichlet_matrix_ok by lia.
  rewrite (setitem2_tabulate2 _ _ _ 0 0 0 0), bind_Ok
    by (apply norm_index_first; lia).
  rewrite (setitem2_tabulate2 _ _ _ 0 1 0 1), bind_Ok
    by (apply norm_index_first || apply norm_index_one; lia).
  replace (2 * ((a - a) / INR (n + 1))) with 0
    by (field; apply INR_succ_neq_0).
  now rewrite py_div_zero.
Qed.

Lemma mixed_system_Ok_inv (N : Z) (r : vec * matrix * vec) :
  mixed_system f a b u_a u_x_b N = Ok r -> (1 <= N)%Z /\ a <> b.
Proof.
  intros H.
  destruct (Z.le_gt_cases N (-3)) as [HN|HN].
  { rewrite mixed_system_negative in H by assumption. discriminate. }
  destruct (Z.eq_dec N (-2)) as [E|E].
  { rewrite E, mixed_system_minus_two in H. discriminate. }
  destruct (Z.eq_dec N (-1)) as [E1|E1].
  { rewrite E1, mixed_system_minus_one in H. discriminate. }
  destruct (Req_dec_T a b) as [Eab|Eab].
  { rewrite <- Eab in H. replace N with (Z.of_nat (Z.to_nat N)) in H by lia.
    rewrite mixed_system_degenerate in H. discriminate. }
  destruct (Z.eq_dec N 0) as [E0|E0].
  { rewrite E0, mixed_system_no_interior in H by assumption. discriminate. }
  split; [lia | assumption].
Qed.

End MixedFailures.

(** X7. The mixed cell checks none of its inputs; a resolution [N <= 0] or a
    degenerate interval makes it raise an ordinary exception during the
    assembly, before the linear solve is reached: [ValueError] for
    [N <= -3], [IndexError] at [A[0, 0]] for [N = -2], [ZeroDivisionError]
    for [N = -1], [ZeroDivisionError] at [3.0 / (2.0 * delta_x)] whenever
    [a = b] and [N >= 0], and [IndexError] at [A[-1, -3]] for [N = 0] with
    [a <> b].  In all other cases the assembly succeeds. *)
Theorem mixed_cell_input_errors
  (solve : matrix -> vec -> result vec) (junk : nat -> R) (f : R -> R)
  (a b u_a u_x_b : R) (N : Z) :
  mixed_cell solve junk f a b u_a u_x_b N
  = (if (N <=? -3)%Z then Raise ValueError
     else if (N =? -2)%Z then Raise IndexError
     else if (N =? -1)%Z then Raise ZeroDivisionError
     else if Req_dec_T a b then Raise ZeroDivisionError
     else if (N =? 0)%Z then Raise IndexError
     else (U <- solve (tabulate2 (Z.to_nat N + 2) (Z.to_nat N + 2)
                         (mixed_entry (spacing a b (Z.to_nat N)) (Z.to_nat N)))
                      (tabulate (Z.to_nat N + 2)
                         (mixed_rhs_entry f a b u_a u_x_b (Z.to_nat N))) ;;
           Ok (tabulate (Z.to_nat N + 2) (grid_point a b (Z.to_nat N)), U))).
Proof.
  unfold mixed_cell.
  destruct (Z.leb_spec N (-3)) as [H3|H3].
  { now rewrite mixed_system_negative. }
  destruct (Z.eqb_spec N (-2)) as [E2|E2].
  { rewrite E2. now rewrite mixed_system_minus_two. }
  destruct (Z.eqb_spec N (-1)) as [E1|E1].
  { rewrite E1. now rewrite mixed_system_minus_one. }
  destruct (Req_dec_T a b) as [Eab|Eab].
  { rewrite <- Eab. replace N with (Z.of_nat (Z.to_nat N)) at 1 by lia.
    now rewrite mixed_system_degenerate. }
  destruct (Z.eqb_spec N 0) as [E0|E0].
  { rewrite E0. now rewrite mixed_system_no_interior. }
  remember (Z.to_nat N) as n eqn:En.
  assert (EN : N = Z.of_nat n) by lia. rewrite EN.
  rewrite mixed_system_ok, bind_Ok by (assumption || lia).
  unfold Np.empty.
  replace (Z.of_nat n + 2 <? 0)%Z with false by (symmetry; apply Z.ltb_ge; lia).
  cbv iota. now rewrite bind_Ok.
Qed.

(** * The shooting loop: its last pass *)

Section ShootingLastPass.

Variable ode : ode_solver.
Variable f : R -> R * R -> R * R.
Variables u_a u_b : R.
Variable tolerance : R.
Variable x : vec.

Lemma shooting_loop_index_fst (indices : list nat) (n0 : option nat) (s : shoot_state) :
  shooting_loop ode f u_a u_b tolerance x indices s
  = (r <- shooting_loop_index ode f u_a u_b tolerance x indices n0 s ;; Ok (fst r)).
Proof.
  revert n0 s. induction indices as [|n rest IH]; intros n0 s.
  - reflexivity.
  - cbn [shooting_loop shooting_loop_index].
    destruct (shooting_iteration ode f u_a u_b tolerance x n s) as [[s1 brk]|e];
      [|reflexivity].
    rewrite !bind_Ok. cbn [fst snd].
    destruct brk; [reflexivity|]. apply IH.
Qed.

Variable init : shoot_state.

(** A non-breaking pass extends a run. *)
Lemma iterates_extend (trace : list R) (j : nat) (s s' : shoot_state) :
  iterates ode f u_a u_b tolerance x init trace j s ->
  shooting_iteration ode f u_a u_b tolerance x (length trace) s = Ok (s', false) ->
  exists j', (j <= j' <= S j)%nat /\
    iterates ode f u_a u_b tolerance x init
      (trace ++ [Rabs (value_at_b (u s') - u_b)]) j' s'.
Proof.
  intros Hit Hpass.
  destruct (Rlt_dec (value_at_b (u s')) u_b) as [Hlt|Hge].
  - exists j. split; [lia|]. now apply iterates_below with (s := s).
  - exists (S j). split; [lia|]. now apply iterates_above with (s := s).
Qed.

(** When the loop returns after at least one pass, the passes before the
    last one form a run, the last pass is the one of the loop index [n] kept
    by Python, and it either stopped the loop or was the last of the
    range. *)
Lemma shooting_loop_index_inv (m : nat) :
  forall (trace : list R) (j : nat) (s : shoot_state) (n0 : option nat)
         (s' : shoot_state) (n' : option nat),
    iterates ode f u_a u_b tolerance x init trace j s ->
    shooting_loop_index ode f u_a u_b tolerance x (seq (length trace) m) n0 s
    = Ok (s', n') ->
    (m = 0%nat /\ s' = s /\ n' = n0) \/
    exists trace' j' s'' brk,
      iterates ode f u_a u_b tolerance x init trace' j' s'' /\
      (length trace <= length trace' < length trace + m)%nat /\
      shooting_iteration ode f u_a u_b tolerance x (length trace') s'' = Ok (s', brk) /\
      n' = Some (length trace') /\
      (brk = false -> (length trace' + 1 = length trace + m)%nat).
Proof.
  induction m as [|m IH]; intros trace j s n0 s' n' Hit Hloop.
  - left. cbn in Hloop. inversion Hloop. auto.
  - right. cbn [seq shooting_loop_index] in Hloop.
    destruct (shooting_iteration ode f u_a u_b tolerance x (length trace) s)
      as [[s1 brk]|e] eqn:Hpass; [|discriminate].
    rewrite bind_Ok in Hloop. cbn [fst snd] in Hloop.
    destruct brk.
    + inversion Hloop; subst.
      exists trace, j, s, true.
      repeat split; try assumption; try lia; try discriminate.
    + destruct (iterates_extend trace j s s1 Hit Hpass) as (j1 & _ & Hit1).
      replace (S (length trace))
        with (length (trace ++ [Rabs (value_at_b (u s1) - u_b)])) in Hloop
        by (rewrite length_app; simpl; lia).
      destruct (IH _ _ _ _ _ _ Hit1 Hloop)
        as [(Em & Es & En)|(trace' & j' & s'' & brk & Hit' & Hlen & Hp & En & Hb)].
      * subst. exists trace, j, s, false. repeat split; try assumption; lia.
      * rewrite length_app in Hlen. simpl in Hlen.
        exists trace', j', s'', brk. repeat split; try assumption; try lia.
        intros E. specialize (Hb E). rewrite length_app in Hb. simpl in Hb. lia.
Qed.

End ShootingLastPass.

(** * Whole runs of the shooting cell *)

Lemma shooting_run_index_fst
  (ode : ode_solver) (junk : nat -> nat -> R) (f : R -> R * R -> R * R)
  (a b : R) (N : Z) (u_a u_b tolerance : R) (max_iterations : Z)
  (u_prime_rhs0 du_prime0 : R) :
  shooting_run ode junk f a b N u_a u_b tolerance max_iterations u_prime_rhs0 du_prime0
  = (r <- shooting_run_index ode junk f a b N u_a u_b tolerance max_iterations
            u_prime_rhs0 du_prime0 ;;
     Ok (fst r)).
Proof.
  unfold shooting_run, shooting_run_index.
  destruct (Np.linspace a b N) as [x|e]; [|reflexivity]. rewrite !bind_Ok.
  destruct (Np.empty2 junk 2 N) as [u0|e]; [|reflexivity]. rewrite !bind_Ok.
  destruct (Np.zeros max_iterations) as [c|e]; [|reflexivity]. rewrite !bind_Ok.
  apply shooting_loop_index_fst.
Qed.

Section ShootingRunFacts.

Variable ode : ode_solver.
Variable junk : nat -> nat -> R.
Variable f : R -> R * R -> R * R.
Variables a b : R.
Variable N : Z.
Variables u_a u_b : R.
Variable tolerance : R.
Variable max_iterations : nat.
Variables u_prime_rhs0 du_prime0 : R.

Let init := entry_state junk N max_iterations u_prime_rhs0 du_prime0.

Lemma shooting_run_index_Ok_inv (r : shoot_state * option nat) :
  shooting_run_index ode junk f a b N u_a u_b tolerance (Z.of_nat max_iterations)
    u_prime_rhs0 du_prime0 = Ok r ->
  exists x,
    Np.linspace a b N = Ok x /\
    shooting_loop_index ode f u_a u_b tolerance x (seq 0 max_iterations) None init
    = Ok r.
Proof.
  unfold shooting_run_index. intros H.
  destruct (Np.linspace a b N) as [x|e] eqn:Hx; [|discriminate].
  exists x. split; [reflexivity|].
  rewrite bind_Ok in H.
  destruct (linspace_length _ _ _ _ Hx) as [HN _].
  rewrite empty2_two_rows, bind_Ok in H by assumption.
  now rewrite zeros_of_nat, bind_Ok, Nat2Z.id in H.
Qed.

(** A run that returns after at least one pass: the passes before the last
    one, then the last pass, whose index Python keeps in [n]. *)
Lemma shooting_run_last_pass (s' : shoot_state) (n' : option nat) :
  (1 <= max_iterations)%nat ->
  shooting_run_index ode junk f a b N u_a u_b tolerance (Z.of_nat max_iterations)
    u_prime_rhs0 du_prime0 = Ok (s', n') ->
  exists x trace j s brk,
    Np.linspace a b N = Ok x /\
    iterates ode f u_a u_b tolerance x init trace j s /\
    (length trace < max_iterations)%nat /\
    shooting_iteration ode f u_a u_b tolerance x (length trace) s = Ok (s', brk) /\
    n' = Some (length trace) /\
    (brk = false -> (length trace + 1 = max_iterations)%nat).
Proof.
  intros HM H.
  destruct (shooting_run_index_Ok_inv _ H) as (x & Hx & Hloop).
  destruct (shooting_loop_index_inv ode f u_a u_b tolerance x init max_iterations
              [] 0%nat init None s' n' (iterates_start _ _ _ _ _ _ _) Hloop)
    as [(E & _)|(trace & j & s & brk & Hit & Hlen & Hp & En & Hb)]; [lia|].
  cbn [length] in Hlen, Hb.
  exists x, trace, j, s, brk. repeat split; try assumption; lia.
Qed.

End ShootingRunFacts.

Lemma shooting_iteration_shot
  (ode : ode_solver) (f : R -> R * R -> R * R) (u_a u_b tolerance : R)
  (x : vec) (n : nat) (s s' : shoot_state) (brk : bool) :
  (1 <= length x)%nat -> table_shape x (u s) ->
  shooting_iteration ode f u_a u_b tolerance x n s = Ok (s', brk) ->
  shot_table ode f x u_a (u_prime_rhs s) = Ok (u s').
Proof.
  intros Hx Hs H. rewrite shooting_iteration_table in H by assumption.
  destruct (shot_table ode f x u_a (u_prime_rhs s)) as [table|e]; [|discriminate].
  rewrite bind_Ok in H. cbv zeta in H.
  destruct (setitem _ _ _) as [c|e]; [|discriminate].
  rewrite bind_Ok in H.
  destruct (Rlt_dec _ _); [|destruct (Rlt_dec _ _)]; now inversion H.
Qed.

Lemma shot_table_first_column
  (ode : ode_solver) (f : R -> R * R -> R * R) (x : vec) (u_a g : R)
  (table : matrix) :
  shot_table ode f x u_a g = Ok table ->
  entry table 0 0 = u_a /\ entry table 1 0 = g.
Proof.
  unfold shot_table. intros H.
  destruct (trajectory _ _ _) as [t|e]; [|discriminate].
  rewrite bind_Ok in H. inversion H. split; reflexivity.
Qed.

Lemma demo_two_pass_run (junk : nat -> nat -> R) :
  shooting_run euler_ode junk pendulum 0 2 2 0 (3 / 2) TOLERANCE (Z.of_nat 2) 1 (1 / 2)
  = Ok (demo_state2 2).
Proof.
  rewrite (shooting_run_loop _ _ _ _ _ _ _ _ _ _ _ _ demo_grid demo_linspace).
  pose proof (iterates_loop _ _ _ _ _ _ _ _ _ _
                (demo_iterates_two junk 2 (le_n 2)) 0) as H.
  cbn [length Nat.add] in H. rewrite H. reflexivity.
Qed.

(** X9. When the shooting cell returns after at least one pass, the array
    [u] is the integrator's trajectory started at [t = 0] from [(u_a, g)]
    and read at the points [x[1:]], for the guess [g] with which the last
    pass was entered.  On success [g] is the slope [u_prime_rhs] that is
    returned.  Without success the returned loop variables are those the
    last pass left after its update of the guess and the step, the returned
    array still being the one computed from [g]. *)
Theorem shooting_returned_table
  (ode : ode_solver) (junk : nat -> nat -> R) (f : R -> R * R -> R * R)
  (a b : R) (N : Z) (u_a u_b tolerance : R) (max_iterations : nat)
  (u_prime_rhs0 du_prime0 : R) (x : vec) (s' : shoot_state) :
  (1 <= N)%Z -> (1 <= max_iterations)%nat ->
  Np.linspace a b N = Ok x ->
  shooting_run ode junk f a b N u_a u_b tolerance (Z.of_nat max_iterations)
    u_prime_rhs0 du_prime0 = Ok s' ->
  exists g,
    shot_table ode f x u_a g = Ok (u s') /\
    table_shape x (u s') /\
    entry (u s') 0 0 = u_a /\ entry (u s') 1 0 = g /\
    (success s' = true -> u_prime_rhs s' = g) /\
    (success s' = false ->
     exists s,
       u_prime_rhs s = g /\
       shooting_iteration ode f u_a u_b tolerance x (max_iterations - 1) s
       = Ok (s', false)).
Proof.
  intros HN HM Hx Hrun.
  rewrite shooting_run_index_fst in Hrun.
  destruct (shooting_run_index _ _ _ _ _ _ _ _ _ _ _ _) as [[s1 n']|e] eqn:Hidx;
    [|discriminate].
  rewrite bind_Ok in Hrun. cbn [fst] in Hrun. inversion Hrun; subst s1; clear Hrun.
  destruct (shooting_run_last_pass ode junk f a b N u_a u_b tolerance
              max_iterations u_prime_rhs0 du_prime0 s' n' HM Hidx)
    as (x' & trace & j & s & brk & Hx' & Hit & Hlen & Hp & _ & Hb).
  rewrite Hx in Hx'. inversion Hx'; subst x'; clear Hx'.
  destruct (linspace_length _ _ _ _ Hx) as [_ HL].
  assert (Hlx : (1 <= length x)%nat) by lia.
  pose proof (entry_state_shape junk a b N max_iterations u_prime_rhs0 du_prime0 x Hx)
    as Hinit.
  pose proof (iterates_shape ode f u_a u_b tolerance x Hlx _ Hinit _ _ _ Hit) as Hs.
  pose proof (shooting_iteration_shot _ _ _ _ _ _ _ _ _ _ Hlx Hs Hp) as Hshot.
  destruct (shot_table_first_column _ _ _ _ _ _ Hshot) as [E0 E1].
  destruct (iterates_convergence _ _ _ _ _ _ _ _ _ _ Hit) as (Hsucc & _).
  cbn [entry_state success] in Hsucc.
  exists (u_prime_rhs s).
  split; [exact Hshot|]. split; [exact (shot_table_shape _ _ _ _ _ _ Hlx Hshot)|].
  split; [exact E0|]. split; [exact E1|].
  destruct brk.
  - destruct (shooting_iteration_inv _ _ _ _ _ _ _ _ _ _ Hp)
      as (_ & _ & [(_ & _ & Hs' & Es & _)|(E & _)]); [|discriminate].
    split; [intros _; exact Es|]. intros F. rewrite Hs' in F. discriminate.
  - destruct (shooting_iteration_inv _ _ _ _ _ _ _ _ _ _ Hp)
      as (_ & _ & [(E & _)|(_ & _ & Hs' & _)]); [discriminate|].
    rewrite Hsucc in Hs'. split; [intros T; rewrite Hs' in T; discriminate|].
    intros _. exists s. split; [reflexivity|].
    specialize (Hb eq_refl).
    replace (max_iterations - 1)%nat with (length trace) by lia. exact Hp.
Qed.

Lemma shooting_returned_table_witness :
  exists g,
    shot_table euler_ode pendulum demo_grid 0 g = Ok (u (demo_state2 2)) /\
    table_shape demo_grid (u (demo_state2 2)) /\
    entry (u (demo_state2 2)) 0 0 = 0 /\ entry (u (demo_state2 2)) 1 0 = g /\
    (success (demo_state2 2) = true -> u_prime_rhs (demo_state2 2) = g) /\
    (success (demo_state2 2) = false ->
     exists s,
       u_prime_rhs s = g /\
       shooting_iteration euler_ode pendulum 0 (3 / 2) TOLERANCE demo_grid (2 - 1) s
       = Ok (demo_state2 2, false)).
Proof.
  apply (shooting_returned_table euler_ode (fun _ _ => 0) pendulum 0 2 2 0 (3 / 2)
           TOLERANCE 2 1 (1 / 2) demo_grid (demo_state2 2)).
  - lia.
  - lia.
  - exact demo_linspace.
  - exact (demo_two_pass_run (fun _ _ => 0)).
Defined.

Lemma combine_seq_firstn (l : list R) (n : nat) :
  (n <= length l)%nat ->
  combine (seq 0 n) (firstn n l) = map (fun k => (k, nth k l 0)) (seq 0 n).
Proof.
  intros Hn.
  assert (H : forall (l : list R) (n s : nat), (n <= length l)%nat ->
             combine (seq s n) (firstn n l)
             = map (fun k => (k, nth (k - s) l 0)) (seq s n)).
  { clear. intros l. induction l as [|h t IH]; intros n s Hn.
    - assert (n = 0%nat) by (simpl in Hn; lia). subst n. reflexivity.
    - destruct n as [|n]; [reflexivity|].
      cbn [seq firstn combine map]. rewrite Nat.sub_diag. cbn [nth].
      f_equal. rewrite IH by (simpl in Hn; lia).
      apply map_ext_in. intros k Hk. apply in_seq in Hk.
      replace (k - s)%nat with (S (k - S s)) by lia. reflexivity. }
  rewrite H by assumption. apply map_ext. intros k. now rewrite Nat.sub_0_r.
Qed.

(** X10. After the main loop Python's [n] is the index of the last pass.
    The convergence plot shows [convergence[:n]] against [arange(n)]: the
    residuals of all passes but the last, none of which is below the
    tolerance.  The residual of the last pass, the one that decides on
    success, is stored at [convergence[n]] and is not plotted; the entries
    after it keep their initial zero. *)
Theorem shooting_convergence_plot
  (ode : ode_solver) (junk : nat -> nat -> R) (f : R -> R * R -> R * R)
  (a b : R) (N : Z) (u_a u_b tolerance : R) (max_iterations : nat)
  (u_prime_rhs0 du_prime0 : R) (s' : shoot_state) (n' : option nat) :
  (1 <= max_iterations)%nat ->
  shooting_run_index ode junk f a b N u_a u_b tolerance (Z.of_nat max_iterations)
    u_prime_rhs0 du_prime0 = Ok (s', n') ->
  shooting_run ode junk f a b N u_a u_b tolerance (Z.of_nat max_iterations)
    u_prime_rhs0 du_prime0 = Ok s' /\
  exists n,
    n' = Some n /\ (n < max_iterations)%nat /\
    length (convergence s') = max_iterations /\
    convergence_plot n s' = map (fun k => (k, nth k (convergence s') 0)) (seq 0 n) /\
    (forall k, (k < n)%nat -> ~ nth k (convergence s') 0 < tolerance) /\
    nth n (convergence s') 0 = Rabs (value_at_b (u s') - u_b) /\
    (success s' = true <-> nth n (convergence s') 0 < tolerance) /\
    (forall k, (n < k)%nat -> nth k (convergence s') 0 = 0).
Proof.
  intros HM Hidx.
  split; [now rewrite shooting_run_index_fst, Hidx, bind_Ok|].
  destruct (shooting_run_last_pass ode junk f a b N u_a u_b tolerance
              max_iterations u_prime_rhs0 du_prime0 s' n' HM Hidx)
    as (x & trace & j & s & brk & Hx & Hit & Hlen & Hp & En & Hb).
  destruct (iterates_convergence _ _ _ _ _ _ _ _ _ _ Hit)
    as (Hsucc & _ & HL & Hpre & Hpost & Hall & _).
  cbn [entry_state success convergence] in Hsucc, HL, Hpost.
  rewrite repeat_length in HL.
  destruct (shooting_iteration_inv _ _ _ _ _ _ _ _ _ _ Hp) as (Hn & Hc & Hcases).
  cbv zeta in Hc, Hcases.
  set (r := Rabs (value_at_b (u s') - u_b)) in *.
  assert (Hat : nth (length trace) (convergence s') 0 = r).
  { rewrite Hc, nth_update, Nat.eqb_refl.
    now replace (length trace <? length (convergence s))%nat with true
      by (symmetry; apply Nat.ltb_lt; lia). }
  assert (Hother : forall k, k <> length trace ->
             nth k (convergence s') 0 = nth k (convergence s) 0).
  { intros k Hk. rewrite Hc, nth_update.
    now replace (k =? length trace)%nat with false
      by (symmetry; apply Nat.eqb_neq; lia). }
  exists (length trace).
  split; [exact En|]. split; [exact Hlen|].
  split; [now rewrite Hc, update_length|].
  split.
  { unfold convergence_plot. apply combine_seq_firstn.
    rewrite Hc, update_length. lia. }
  split.
  { intros k Hk. rewrite Hother, Hpre by lia.
    rewrite Forall_forall in Hall. apply Hall. now apply nth_In. }
  split; [exact Hat|].
  split.
  - rewrite Hat.
    destruct Hcases as [(_ & Hr & Hs' & _)|(_ & Hr & Hs' & _)].
    + split; intros _; assumption.
    + rewrite Hsucc in Hs'. rewrite Hs'. split; [discriminate|contradiction].
  - intros k Hk. rewrite Hother, Hpost by lia. apply nth_repeat.
Qed.

Lemma demo_converged_index (junk : nat -> nat -> R) (ds : R) :
  shooting_run_index euler_ode junk pendulum 0 2 2 0 (3 / 2) TOLERANCE (Z.of_nat 100)
    (3 / 4) ds
  = Ok ({| u_prime_rhs := 3 / 4; du_prime := ds; success := true;
           u := demo_table (3 / 4);
           convergence :=
             update (repeat 0 100) 0
               (Rabs (value_at_b (demo_table (3 / 4)) - 3 / 2)) |}, Some 0%nat).
Proof.
  unfold shooting_run_index. rewrite demo_linspace, bind_Ok.
  rewrite empty2_two_rows, bind_Ok by lia.
  rewrite zeros_of_nat, bind_Ok, Nat2Z.id.
  change (seq 0 100) with (0%nat :: seq 1 99).
  cbn [shooting_loop_index].
  rewrite demo_pass_break.
  - reflexivity.
  - apply (entry_state_shape junk 0 2 2 100 (3 / 4) ds demo_grid demo_linspace).
  - cbn [convergence]. rewrite repeat_length. lia.
  - cbn [u_prime_rhs].
    replace (2 * (3 / 4) - 3 / 2) with 0 by field.
    rewrite Rabs_R0. apply TOLERANCE_pos.
Qed.

Lemma shooting_convergence_plot_witness :
  shooting_run euler_ode (fun _ _ => 0) pendulum 0 2 2 0 (3 / 2) TOLERANCE
    (Z.of_nat 100) (3 / 4) (1 / 2) = Ok demo_state_converged /\
  exists n,
    Some 0%nat = Some n /\ (n < 100)%nat /\
    length (convergence demo_state_converged) = 100%nat /\
    convergence_plot n demo_state_converged
    = map (fun k => (k, nth k (convergence demo_state_converged) 0)) (seq 0 n) /\
    (forall k, (k < n)%nat ->
       ~ nth k (convergence demo_state_converged) 0 < TOLERANCE) /\
    nth n (convergence demo_state_converged) 0
    = Rabs (value_at_b (u demo_state_converged) - 3 / 2) /\
    (success demo_state_converged = true
     <-> nth n (convergence demo_state_converged) 0 < TOLERANCE) /\
    (forall k, (n < k)%nat -> nth k (convergence demo_state_converged) 0 = 0).
Proof.
  apply (shooting_convergence_plot euler_ode (fun _ _ => 0) pendulum 0 2 2 0 (3 / 2)
           TOLERANCE 100 (3 / 4) (1 / 2) demo_state_converged (Some 0%nat)).
  - lia.
  - exact (demo_converged_index (fun _ _ => 0) (1 / 2)).
Defined.

(** * The reference solutions of the two finite-difference cells *)

Lemma derivable_pt_lim_ext (g h : R -> R) (x l : R) :
  (forall t, g t = h t) -> derivable_pt_lim g x l -> derivable_pt_lim h x l.
Proof.
  intros E H eps Heps. destruct (H eps Heps) as [delta Hd].
  exists delta. intros k Hk0 Hk. rewrite <- !E. now apply Hd.
Qed.

Lemma derivable_pt_lim_affine_exp (c d x : R) :
  derivable_pt_lim (fun t => c * t + d + exp t) x (c + exp x).
Proof.
  apply (derivable_pt_lim_ext (((fun _ => c) * id + (fun _ => d)) + exp)%F).
  - intros t. unfold plus_fct, mult_fct, id. reflexivity.
  - replace (c + exp x) with ((0 * id x + c * 1) + 0 + exp x) by (unfold id; ring).
    apply derivable_pt_lim_plus; [|apply derivable_pt_lim_exp].
    apply derivable_pt_lim_plus; [|apply derivable_pt_lim_const].
    apply derivable_pt_lim_mult;
      [apply derivable_pt_lim_const | apply derivable_pt_lim_id].
Qed.

(** X11. The reference solutions coded in the two finite-difference cells
    solve the problems the cells set up: each [u_true] is twice
    differentiable with [u_true'' = exp]; in the Dirichlet cell
    [u_true 0 = 0] and [u_true 1 = 3]; in the mixed cell [u_true (-1) = 3]
    and [u_true' 1 = -5]. *)
Theorem reference_solutions :
  (exists du,
     (forall x, derivable_pt_lim u_true x (du x)) /\
     (forall x, derivable_pt_lim du x (exp x)) /\
     u_true 0 = 0 /\ u_true 1 = 3) /\
  (exists du,
     (forall x, derivable_pt_lim mixed_u_true x (du x)) /\
     (forall x, derivable_pt_lim du x (exp x)) /\
     mixed_u_true (- 1) = 3 /\ du 1 = - 5).
Proof.
  split.
  - exists (fun x => 0 * x + (4 - exp 1) + exp x).
    split; [|split; [|split]].
    + intros x.
      apply (derivable_pt_lim_ext (fun t => (4 - exp 1) * t + - 1 + exp t)).
      * intros t. unfold u_true. ring.
      * replace (0 * x + (4 - exp 1) + exp x) with (4 - exp 1 + exp x) by ring.
        apply derivable_pt_lim_affine_exp.
    + intros x. pose proof (derivable_pt_lim_affine_exp 0 (4 - exp 1) x) as H.
      now replace (0 + exp x) with (exp x) in H by ring.
    + unfold u_true. rewrite exp_0. ring.
    + unfold u_true. ring.
  - exists (fun x => 0 * x + - (5 + exp 1) + exp x).
    split; [|split; [|split]].
    + intros x.
      apply (derivable_pt_lim_ext
               (fun t => - (5 + exp 1) * t + - (2 + exp 1 + exp (- 1)) + exp t)).
      * intros t. unfold mixed_u_true. ring.
      * replace (0 * x + - (5 + exp 1) + exp x) with (- (5 + exp 1) + exp x) by ring.
        apply derivable_pt_lim_affine_exp.
    + intros x. pose proof (derivable_pt_lim_affine_exp 0 (- (5 + exp 1)) x) as H.
      now replace (0 + exp x) with (exp x) in H by ring.
    + unfold mixed_u_true. ring.
    + ring.
Qed.

(** * The shooting loop: where an exception comes from *)

Section ShootingRaise.

Variable ode : ode_solver.
Variable f : R -> R * R -> R * R.
Variables u_a u_b : R.
Variable tolerance : R.
Variable x : vec.
Hypothesis Hx : (1 <= length x)%nat.

Lemma shooting_iteration_raise_fails (n : nat) (s : shoot_state) (e : exn) :
  table_shape x (u s) -> (n < length (convergence s))%nat ->
  shooting_iteration ode f u_a u_b tolerance x n s = Raise e ->
  fails_within ode (set_initial_value ode f (u_a, u_prime_rhs s) 0) (slice_1 x).
Proof.
  intros Hs Hn H.
  rewrite shooting_iteration_table in H by assumption.
  unfold shot_table in H.
  destruct (trajectory _ _ _) as [t|e'] eqn:Et.
  - exfalso. rewrite !bind_Ok in H. cbv zeta in H.
    unfold setitem in H. rewrite norm_index_nonneg, !bind_Ok in H by assumption.
    destruct (Rlt_dec _ _); [|destruct (Rlt_dec _ _)]; discriminate.
  - now apply trajectory_raise_inv in Et.
Qed.

Variable init : shoot_state.
Hypothesis Hinit : table_shape x (u init).

Lemma shooting_loop_raise_pass (m : nat) :
  forall (trace : list R) (j : nat) (s : shoot_state) (e : exn),
    iterates ode f u_a u_b tolerance x init trace j s ->
    (length trace + m <= length (convergence init))%nat ->
    shooting_loop ode f u_a u_b tolerance x (seq (length trace) m) s = Raise e ->
    exists trace' j' s',
      iterates ode f u_a u_b tolerance x init trace' j' s' /\
      (length trace <= length trace' < length trace + m)%nat /\
      fails_within ode (set_initial_value ode f (u_a, u_prime_rhs s') 0) (slice_1 x).
Proof.
  induction m as [|m IH]; intros trace j s e Hit Hlen Hloop; [discriminate|].
  cbn [seq shooting_loop] in Hloop.
  destruct (shooting_iteration ode f u_a u_b tolerance x (length trace) s)
    as [[s1 brk]|e1] eqn:Hpass.
  - rewrite bind_Ok in Hloop. cbn [fst snd] in Hloop.
    destruct brk; [discriminate|].
    destruct (iterates_extend _ _ _ _ _ _ _ _ _ _ _ Hit Hpass) as (j1 & _ & Hit1).
    replace (S (length trace))
      with (length (trace ++ [Rabs (value_at_b (u s1) - u_b)])) in Hloop
      by (rewrite length_app; simpl; lia).
    assert (Hlen1 : (length (trace ++ [Rabs (value_at_b (u s1) - u_b)]) + m
                     <= length (convergence init))%nat)
      by (rewrite length_app; simpl; lia).
    destruct (IH _ _ _ e Hit1 Hlen1 Hloop) as (trace' & j' & s' & Hit' & Hl & Hf).
    rewrite length_app in Hl. simpl in Hl.
    exists trace', j', s'. repeat split; try assumption; lia.
  - exists trace, j, s. repeat split; try assumption; try lia.
    apply (shooting_iteration_raise_fails (length trace) s e1); try assumption.
    + exact (iterates_shape ode f u_a u_b tolerance x Hx init Hinit _ _ _ Hit).
    + destruct (iterates_convergence _ _ _ _ _ _ _ _ _ _ Hit) as (_ & _ & HL & _).
      lia.
Qed.

End ShootingRaise.

Lemma demo_failing_run (junk : nat -> nat -> R) :
  shooting_run failing_ode junk pendulum 0 2 2 0 (3 / 2) TOLERANCE (Z.of_nat 100)
    1 (1 / 2)
  = Raise (Exception "Integration Failed!").
Proof.
  rewrite (shooting_run_loop _ _ _ _ _ _ _ _ _ _ _ _ demo_grid demo_linspace).
  change (seq 0 100) with (0%nat :: seq 1 99).
  apply shooting_loop_raise. apply shooting_iteration_fails.
  - simpl. lia.
  - apply (entry_state_shape junk 0 2 2 100 1 (1 / 2) demo_grid demo_linspace).
  - left. reflexivity.
Qed.

(** X12. With at least one grid point the shooting cell raises only when the
    integrator has really reported a failure: the exception is
    ["Integration Failed!"], and there is a pass, reached through passes
    that did not stop the loop, in which [successful()] was false at one of
    the points [x[1:]].  In particular the cell never raises with an
    integrator that always succeeds, and never when [N = 1]. *)
Theorem shooting_raises_only_on_failure
  (ode : ode_solver) (junk : nat -> nat -> R) (f : R -> R * R -> R * R)
  (a b : R) (N : Z) (u_a u_b tolerance : R) (max_iterations : nat)
  (u_prime_rhs0 du_prime0 : R) (x : vec) (e : exn) :
  (1 <= N)%Z ->
  Np.linspace a b N = Ok x ->
  shooting_run ode junk f a b N u_a u_b tolerance (Z.of_nat max_iterations)
    u_prime_rhs0 du_prime0 = Raise e ->
  e = Exception "Integration Failed!" /\
  (exists trace j s,
     iterates ode f u_a u_b tolerance x
       (entry_state junk N max_iterations u_prime_rhs0 du_prime0) trace j s /\
     (length trace < max_iterations)%nat /\
     fails_within ode (set_initial_value ode f (u_a, u_prime_rhs s) 0) (slice_1 x)) /\
  (exists st, successful ode st = false) /\
  (2 <= N)%Z.
Proof.
  intros HN Hx Hrun.
  rewrite (shooting_run_loop _ _ _ _ _ _ _ _ _ _ _ _ x Hx) in Hrun.
  destruct (linspace_length _ _ _ _ Hx) as [_ HL].
  assert (Hlx : (1 <= length x)%nat) by lia.
  pose proof (entry_state_shape junk a b N max_iterations u_prime_rhs0 du_prime0 x Hx)
    as Hinit.
  assert (Hfail : exists trace j s,
     iterates ode f u_a u_b tolerance x
       (entry_state junk N max_iterations u_prime_rhs0 du_prime0) trace j s /\
     (length trace < max_iterations)%nat /\
     fails_within ode (set_initial_value ode f (u_a, u_prime_rhs s) 0) (slice_1 x)).
  { assert (Hlen0 : (length (@nil R) + max_iterations
                     <= length (convergence
                                  (entry_state junk N max_iterations
                                     u_prime_rhs0 du_prime0)))%nat)
      by (cbn [entry_state convergence length]; rewrite repeat_length; lia).
    destruct (shooting_loop_raise_pass ode f u_a u_b tolerance x Hlx _ Hinit
                max_iterations [] 0%nat _ e (iterates_start _ _ _ _ _ _ _)
                Hlen0 Hrun) as (trace & j & s & Hit & Hl & Hf).
    cbn [length] in Hl. exists trace, j, s. repeat split; try assumption; lia. }
  split; [|split; [exact Hfail|]].
  - apply (shooting_loop_raise_inv ode f u_a u_b tolerance x Hlx
             (seq 0 max_iterations) _ e Hinit); [|exact Hrun].
    intros n Hn. apply in_seq in Hn.
    cbn [entry_state convergence]. rewrite repeat_length. lia.
  - destruct Hfail as (trace & j & s & _ & _ & Hf).
    assert (Hgen : forall outputs st,
               fails_within ode st outputs ->
               (exists st', successful ode st' = false) /\ outputs <> []).
    { induction outputs as [|xo rest IH]; intros st H; [contradiction|].
      split; [|discriminate].
      destruct H as [H|[_ H]]; [eexists; exact H | exact (proj1 (IH _ H))]. }
    destruct (Hgen _ _ Hf) as [Hst Hne]. split; [exact Hst|].
    destruct x as [|x0 [|x1 rest]]; simpl in HL; try lia.
    now elim Hne.
Qed.

Lemma shooting_raises_only_on_failure_witness :
  Exception "Integration Failed!" = Exception "Integration Failed!" /\
  (exists trace j s,
     iterates failing_ode pendulum 0 (3 / 2) TOLERANCE demo_grid
       (entry_state (fun _ _ => 0) 2 100 1 (1 / 2)) trace j s /\
     (length trace < 100)%nat /\
     fails_within failing_ode
       (set_initial_value failing_ode pendulum (0, u_prime_rhs s) 0)
       (slice_1 demo_grid)) /\
  (exists st, successful failing_ode st = false) /\
  (2 <= 2)%Z.
Proof.
  apply (shooting_raises_only_on_failure failing_ode (fun _ _ => 0) pendulum 0 2 2
           0 (3 / 2) TOLERANCE 100 1 (1 / 2) demo_grid
           (Exception "Integration Failed!")).
  - lia.
  - exact demo_linspace.
  - exact (demo_failing_run (fun _ _ => 0)).
Defined.

(** * Second-order convergence of the mixed cell on [u_xx = e^x] *)

Lemma exp_neg_lower (h : R) : 0 <= h <= 1 -> 0 <= expoly 0 1 [-1; 1; -1/2; 1/6] h.
Proof.
  revert h.
  assert (L3 : forall t, 0 <= t <= 1 -> 0 <= expoly 0 (-1) [1] t).
  { intros t [Ht0 Ht1]. unfold expoly. cbn [peval].
    assert (exp (- t) <= 1).
    { destruct (Req_dec t 0) as [->|]; [rewrite Ropp_0, exp_0; lra|].
      rewrite <- exp_0. apply Rlt_le, exp_increasing. lra. }
    lra. }
  assert (L2 : forall t, 0 <= t <= 1 -> 0 <= expoly 0 1 [-1; 1] t)
    by expoly_chain L3.
  assert (L1 : forall t, 0 <= t <= 1 -> 0 <= expoly 0 (-1) [1; -1; 1/2] t)
    by expoly_chain L2.
  expoly_chain L1.
Qed.

Lemma exp_neg_upper (h : R) :
  0 <= h <= 1 -> 0 <= expoly 0 (-1) [1; -1; 1/2; -1/6; 1/24] h.
Proof.
  revert h.
  assert (L : forall t, 0 <= t <= 1 -> 0 <= expoly 0 1 [-1; 1; -1/2; 1/6] t)
    by exact exp_neg_lower.
  expoly_chain L.
Qed.

(** [1 - h^2 / 3 <= sigma h <= 1] on [(0, 1]]. *)
Lemma sigma_bounds (h : R) : 0 < h <= 1 -> 1 - h ^ 2 / 3 <= sigma h <= 1.
Proof.
  intros [Hh0 Hh1].
  pose proof (exp_neg_lower h ltac:(lra)) as HL.
  pose proof (exp_neg_upper h ltac:(lra)) as HU.
  unfold expoly in HL, HU. cbn [peval] in HL, HU.
  assert (Hw : exp (- (2 * h)) = exp (- h) * exp (- h)).
  { rewrite <- exp_plus. f_equal. ring. }
  assert (Hw1 : exp (- h) <= 1).
  { rewrite <- exp_0. apply Rlt_le, exp_increasing. lra. }
  unfold sigma. rewrite Hw.
  set (w := exp (- h)) in *.
  set (t := 1 - w).
  assert (Ht : h - h ^ 2 / 2 + h ^ 3 / 6 - h ^ 4 / 24 <= t <= h - h ^ 2 / 2 + h ^ 3 / 6)
    by (unfold t; split; lra).
  assert (Ht0 : 0 <= t) by (unfold t; lra).
  assert (E : w * w - 4 * w + 3 = t * (2 + t)) by (unfold t; ring).
  rewrite E.
  assert (H2h : 0 < 2 * h) by lra.
  assert (Hlo0 : 0 <= h - h ^ 2 / 2 + h ^ 3 / 6 - h ^ 4 / 24) by nra.
  split.
  - apply (Rmult_le_reg_r (2 * h)); [assumption|].
    unfold Rdiv at 2. rewrite Rmult_assoc, Rinv_l, Rmult_1_r by lra.
    set (L := h - h ^ 2 / 2 + h ^ 3 / 6 - h ^ 4 / 24) in *.
    assert (HLt : L * (2 + L) <= t * (2 + t)) by nra.
    assert (HLp : (1 - h ^ 2 / 3) * (2 * h) <= L * (2 + L)).
    { unfold L.
      assert (E2 : (h - h ^ 2 / 2 + h ^ 3 / 6 - h ^ 4 / 24)
                   * (2 + (h - h ^ 2 / 2 + h ^ 3 / 6 - h ^ 4 / 24))
                   - (1 - h ^ 2 / 3) * (2 * h)
                   = h ^ 4 * (1 / 2 - h / 4 + h ^ 2 * (5 / 72) - h ^ 3 / 72
                              + h ^ 4 / 576)) by field.
      assert (0 <= h ^ 4) by (apply pow_le; lra).
      assert (0 <= 1 / 2 - h / 4 + h ^ 2 * (5 / 72) - h ^ 3 / 72 + h ^ 4 / 576).
      { assert (0 <= h ^ 2) by (apply pow_le; lra).
        assert (0 <= h ^ 4) by (apply pow_le; lra).
        assert (h ^ 3 <= h ^ 2) by nra.
        lra. }
      assert (0 <= h ^ 4 * (1 / 2 - h / 4 + h ^ 2 * (5 / 72) - h ^ 3 / 72
                            + h ^ 4 / 576)) by (apply Rmult_le_pos; assumption).
      lra. }
    lra.
  - apply (Rmult_le_reg_r (2 * h)); [assumption|].
    unfold Rdiv. rewrite Rmult_assoc, Rinv_l, Rmult_1_r, Rmult_1_l by lra.
    set (T := h - h ^ 2 / 2 + h ^ 3 / 6) in *.
    assert (HtT : t * (2 + t) <= T * (2 + T)) by nra.
    assert (HTp : T * (2 + T) <= 2 * h).
    { unfold T.
      assert (E2 : 2 * h - (h - h ^ 2 / 2 + h ^ 3 / 6) * (2 + (h - h ^ 2 / 2 + h ^ 3 / 6))
                   = h ^ 3 * (2 / 3 - h * (7 / 12) + h ^ 2 / 6 - h ^ 3 / 36)) by field.
      assert (0 <= h ^ 3) by (apply pow_le; lra).
      assert (0 <= 2 / 3 - h * (7 / 12) + h ^ 2 / 6 - h ^ 3 / 36).
      { assert (0 <= h ^ 2) by (apply pow_le; lra).
        assert (h ^ 3 <= h ^ 2) by nra.
        nra. }
      assert (0 <= h ^ 3 * (2 / 3 - h * (7 / 12) + h ^ 2 / 6 - h ^ 3 / 36))
        by (apply Rmult_le_pos; assumption).
      lra. }
    lra.
Qed.

Lemma spacing_mixed_range (n : nat) : (1 <= n)%nat -> 0 < spacing (- 1) 1 n <= 1.
Proof.
  intros Hn. unfold spacing.
  assert (H2 : 2 <= INR (n + 1)).
  { replace 2 with (INR 2) by (simpl; lra). apply le_INR. lia. }
  replace (1 - - 1) with 2 by ring.
  split.
  - apply Rdiv_lt_0_compat; lra.
  - apply (Rmult_le_reg_r (INR (n + 1))); [lra|].
    unfold Rdiv. rewrite Rmult_assoc, Rinv_l, Rmult_1_r, Rmult_1_l by lra. exact H2.
Qed.

Lemma grid_point_mixed_range (n i : nat) :
  (i <= n + 1)%nat -> - 1 <= grid_point (- 1) 1 n i <= 1.
Proof.
  intros Hi. unfold grid_point.
  assert (Hn : 0 < INR (n + 1)) by (apply lt_0_INR; lia).
  assert (H0 : 0 <= INR i) by apply pos_INR.
  assert (H1 : INR i <= INR (n + 1)) by (apply le_INR; lia).
  assert (E : INR i * ((1 - - 1) / INR (n + 1)) = 2 * (INR i / INR (n + 1)))
    by (field; lra).
  rewrite E.
  assert (Hq0 : 0 <= INR i / INR (n + 1)).
  { apply Rmult_le_pos; [assumption | left; now apply Rinv_0_lt_compat]. }
  assert (Hq1 : INR i / INR (n + 1) <= 1).
  { apply (Rmult_le_reg_r (INR (n + 1))); [assumption|].
    unfold Rdiv. rewrite Rmult_assoc, Rinv_l, Rmult_1_r, Rmult_1_l by lra.
    assumption. }
  lra.
Qed.

Section MixedExpProblem.

Variable solve : matrix -> vec -> result vec.
Hypothesis solve_exact : exact_solver solve.
Variable junk : nat -> R.
Variable n : nat.
Hypothesis Hn : (1 <= n)%nat.

Let h := spacing (- 1) 1 n.

Lemma mixed_exp_closed_form :
  mixed_cell solve junk exp (- 1) 1 3 (- 5) (Z.of_nat n)
  = Ok (tabulate (n + 2) (grid_point (- 1) 1 n),
        tabulate (n + 2) (mixed_discrete_solution n)).
Proof.
  pose proof (spacing_mixed_range n Hn) as Hh. fold h in Hh.
  pose proof (kappa_pos h Hh) as Hk.
  assert (Hq : exp h + exp (- h) - 2 = kappa h * h ^ 2).
  { unfold kappa. field. lra. }
  assert (Hh2 : h ^ 2 <> 0) by (apply pow_nonzero; lra).
  assert (Hk0 : kappa h <> 0) by lra.
  apply mixed_cell_exact; try assumption; try lra.
  - unfold mixed_discrete_solution. cbv zeta. fold h.
    rewrite grid_point_first. field. lra.
  - intros i Hi. unfold mixed_discrete_solution. cbv zeta. fold h.
    rewrite (grid_point_S (- 1) 1 n (S i)). fold h.
    replace (grid_point (- 1) 1 n i) with (grid_point (- 1) 1 n (S i) - h)
      by (rewrite grid_point_S; fold h; ring).
    set (x := grid_point (- 1) 1 n (S i)).
    replace (exp (x - h)) with (exp x * exp (- h))
      by (rewrite <- exp_plus; f_equal; ring).
    rewrite exp_plus.
    transitivity (exp x * (exp h + exp (- h) - 2) / (kappa h * h ^ 2)).
    + field. split; lra.
    + rewrite Hq. field. split; lra.
  - unfold mixed_discrete_solution. cbv zeta. fold h.
    rewrite grid_point_last.
    replace (grid_point (- 1) 1 n n) with (1 - h).
    2:{ rewrite <- (grid_point_last (- 1) 1 n) at 1.
        replace (n + 1)%nat with (S n) by lia. rewrite grid_point_S. fold h. ring. }
    replace (grid_point (- 1) 1 n (n - 1)) with (1 - 2 * h).
    2:{ rewrite <- (grid_point_last (- 1) 1 n) at 1.
        replace (n + 1)%nat with (S (S (n - 1))) by lia.
        rewrite !grid_point_S. fold h. ring. }
    replace (exp (1 - 2 * h)) with (exp 1 * exp (- (2 * h)))
      by (rewrite <- exp_plus; f_equal; ring).
    replace (exp (1 - h)) with (exp 1 * exp (- h))
      by (rewrite <- exp_plus; f_equal; ring).
    unfold sigma. field. split; lra.
Qed.

Lemma mixed_exp_error (i : nat) :
  mixed_discrete_solution n i - mixed_u_true (grid_point (- 1) 1 n i)
  = exp 1 * ((kappa h - sigma h) / kappa h) * (1 + grid_point (- 1) 1 n i)
    - (1 - / kappa h) * (exp (grid_point (- 1) 1 n i) - exp (- 1)).
Proof.
  pose proof (spacing_mixed_range n Hn) as Hh. fold h in Hh.
  pose proof (kappa_pos h Hh) as Hk.
  unfold mixed_discrete_solution, mixed_u_true. cbv zeta. fold h. field. lra.
Qed.

Lemma mixed_exp_error_bound (i : nat) :
  (i <= n + 1)%nat ->
  Rabs (mixed_discrete_solution n i - mixed_u_true (grid_point (- 1) 1 n i))
  <= 3 * h ^ 2.
Proof.
  intros Hi.
  pose proof (spacing_mixed_range n Hn) as Hh. fold h in Hh.
  pose proof (kappa_bounds h Hh) as [Hk1 Hk2].
  pose proof (kappa_pos h Hh) as Hk.
  pose proof (sigma_bounds h Hh) as [Hs1 Hs2].
  pose proof (cfac_range h Hh) as [Hc0 Hc1]. unfold cfac in Hc0, Hc1.
  pose proof (grid_point_mixed_range n i Hi) as [Hx0 Hx1].
  pose proof exp_1_range as [He2 He3].
  rewrite mixed_exp_error.
  set (x := grid_point (- 1) 1 n i) in *.
  assert (Hh2 : 0 <= h ^ 2) by (apply pow_le; lra).
  assert (Hh21 : h ^ 2 <= 1) by nra.
  assert (Hh4 : h ^ 4 <= h ^ 2).
  { replace (h ^ 4) with (h ^ 2 * h ^ 2) by ring.
    rewrite <- (Rmult_1_r (h ^ 2)) at 3. apply Rmult_le_compat_l; assumption. }
  (* the slope defect *)
  assert (Hd0 : 0 <= (kappa h - sigma h) / kappa h).
  { apply Rmult_le_pos; [lra | left; apply Rinv_0_lt_compat; lra]. }
  assert (Hd1 : (kappa h - sigma h) / kappa h <= h ^ 2 * (19 / 45)).
  { apply (Rmult_le_reg_r (kappa h)); [lra|].
    unfold Rdiv. rewrite Rmult_assoc, Rinv_l, Rmult_1_r by lra.
    assert (h ^ 2 * (19 / 45) * 1 <= h ^ 2 * (19 / 45) * kappa h)
      by (apply Rmult_le_compat_l; [nra | lra]).
    lra. }
  (* the exponential term *)
  assert (Hex0 : 0 <= exp x - exp (- 1)).
  { destruct (Req_dec x (- 1)) as [->|Hne]; [lra|].
    left. apply Rlt_0_minus. apply exp_increasing. lra. }
  assert (Hex1 : exp x - exp (- 1) <= 3).
  { assert (exp x <= exp 1).
    { destruct (Req_dec x 1) as [->|Hne]; [lra|].
      left. apply exp_increasing. lra. }
    pose proof (exp_pos (- 1)). lra. }
  assert (Hc2 : 1 - / kappa h <= h ^ 2 * (4 / 45)) by lra.
  set (d := (kappa h - sigma h) / kappa h) in *.
  set (c := 1 - / kappa h) in *.
  set (g := exp x - exp (- 1)) in *.
  assert (P1 : 0 <= exp 1 * d * (1 + x)).
  { apply Rmult_le_pos; [apply Rmult_le_pos; lra | lra]. }
  assert (P2 : exp 1 * d * (1 + x) <= 3 * (h ^ 2 * (19 / 45)) * 2).
  { apply Rmult_le_compat; try lra.
    - apply Rmult_le_pos; lra.
    - apply Rmult_le_compat; lra. }
  assert (P3 : 0 <= c * g) by (apply Rmult_le_pos; lra).
  assert (P4 : c * g <= h ^ 2 * (4 / 45) * 3).
  { apply Rmult_le_compat; lra. }
  apply Rabs_le. split; lra.
Qed.

End MixedExpProblem.

(** X13. Second-order accuracy of the mixed cell on the problem of the
    notebook ([u_xx = e^x] on [[-1, 1]], [u(-1) = 3], [u'(1) = -5]): for
    every [n >= 1], with an exact linear solve, the cell returns the uniform
    grid [x_i = -1 + i * delta_x], [delta_x = 2 / (n + 1)], and a vector of
    [n + 2] values whose error against [u_true] is at most
    [3 * delta_x ^ 2] at every grid point. *)
Theorem mixed_second_order
  (solve : matrix -> vec -> result vec) (junk : nat -> R) (n : nat) :
  exact_solver solve -> (1 <= n)%nat ->
  exists x_bc U,
    mixed_cell solve junk exp (- 1) 1 3 (- 5) (Z.of_nat n) = Ok (x_bc, U) /\
    length x_bc = (n + 2)%nat /\ length U = (n + 2)%nat /\
    (forall i, (i < n + 2)%nat ->
       nth i x_bc 0 = - 1 + INR i * ((1 - - 1) / INR (n + 1))) /\
    nth 0 x_bc 0 = - 1 /\ nth (n + 1) x_bc 0 = 1 /\
    forall i, (i < n + 2)%nat ->
      Rabs (nth i U 0 - mixed_u_true (nth i x_bc 0))
      <= 3 * ((1 - - 1) / INR (n + 1)) ^ 2.
Proof.
  intros Hsolve Hn.
  exists (tabulate (n + 2) (grid_point (- 1) 1 n)),
         (tabulate (n + 2) (mixed_discrete_solution n)).
  split; [now apply mixed_exp_closed_form|].
  split; [apply tabulate_length|]. split; [apply tabulate_length|].
  split; [|split; [|split]].
  - intros i Hi. rewrite nth_tabulate by assumption. unfold grid_point. ring.
  - rewrite nth_tabulate by lia. apply grid_point_first.
  - rewrite nth_tabulate by lia. apply grid_point_last.
  - intros i Hi. rewrite !nth_tabulate by assumption.
    apply (mixed_exp_error_bound n Hn i). lia.
Qed.

Lemma mixed_second_order_witness :
  exists x_bc U,
    mixed_cell ideal_solve (fun _ => 0) exp (- 1) 1 3 (- 5) (Z.of_nat 10)
    = Ok (x_bc, U) /\
    length x_bc = (10 + 2)%nat /\ length U = (10 + 2)%nat /\
    (forall i, (i < 10 + 2)%nat ->
       nth i x_bc 0 = - 1 + INR i * ((1 - - 1) / INR (10 + 1))) /\
    nth 0 x_bc 0 = - 1 /\ nth (10 + 1) x_bc 0 = 1 /\
    forall i, (i < 10 + 2)%nat ->
      Rabs (nth i U 0 - mixed_u_true (nth i x_bc 0))
      <= 3 * ((1 - - 1) / INR (10 + 1)) ^ 2.
Proof.
  apply (mixed_second_order ideal_solve (fun _ => 0) 10).
  - exact ideal_solve_exact.
  - lia.
Defined.
